(** * Tagger: a shallow embedding of [src/tagger.ts]

    The hashtag generator is a pipeline of pure string and list functions
    ([slugifyHashtag], [extractHeadings], [topKeywords], [mapToCache],
    [filterNewWithDenylist]) driven by [processFile], plus a little
    fallible set-up code ([readJsonFile], [loadConfig],
    [loadOrCreateCache], [main]).

    Conventions of the embedding:
    - a JavaScript string is the list of its UTF-16 code units ([N]);
    - a JavaScript [number] that passed [Number.isFinite] is held by its
      value, a rational ([Q]); comparison, [Math.max]/[Math.min] and the
      truncation by [Array.slice] are exact on [Q]; the one quotient the
      program takes, the score of [mapToCache], is rounded to binary64 as
      IEEE 754 division rounds it ([divide]), and so is the threshold it
      is compared with ([double]);
    - a [Set<string>] or [Map<string, _>] is a duplicate-free list in
      insertion order, which is also the iteration order JavaScript uses;
    - a function that can throw returns a [result];
    - what the program gets from outside (the file system, [JSON.parse],
      [gray-matter], [js-yaml], the clock) is an argument of the function
      that uses it;
    - [console] output is not modelled. *)

From Stdlib Require Import Ascii String.
From Stdlib Require Import List NArith ZArith QArith Qminmax Bool Lia Lqa.
From Stdlib Require Import Sorted Permutation.
From Stdlib Require SpecFloat.
Import ListNotations.

Local Open Scope N_scope.

(** ** JavaScript strings *)

Module Js.

Definition jsstring := list N.

(** The code units of an ASCII literal. *)
Definition u (s : string) : jsstring :=
  map N_of_ascii (list_ascii_of_string s).

Definition str_eqb (a b : jsstring) : bool :=
  if list_eq_dec N.eq_dec a b then true else false.

(** [Set.prototype.has] / [Array.prototype.includes] on strings. *)
Definition has (s : list jsstring) (x : jsstring) : bool :=
  existsb (str_eqb x) s.

(** Character classes.  [isWhiteSpace] is the class [\s] of a regular
    expression without the [u] flag, which is also what [String.trim]
    strips: WhiteSpace and LineTerminator of ECMA-262. *)
Definition isWhiteSpace (c : N) : bool :=
  ((9 <=? c) && (c <=? 13)) || (c =? 32) || (c =? 0xA0) || (c =? 0x1680)
  || ((0x2000 <=? c) && (c <=? 0x200A)) || (c =? 0x2028) || (c =? 0x2029)
  || (c =? 0x202F) || (c =? 0x205F) || (c =? 0x3000) || (c =? 0xFEFF).

(** What [.] refuses to match: the line terminators. *)
Definition isLineTerminator (c : N) : bool :=
  (c =? 10) || (c =? 13) || (c =? 0x2028) || (c =? 0x2029).

Definition isChar (x : N) (c : N) : bool := c =? x.

Definition LF : N := 10.
Definition SPACE : N := 32.
Definition HASH : N := 35.
Definition HYPHEN : N := 45.
Definition BACKTICK : N := 96.

(** [String.prototype.toLowerCase].  The ASCII capitals and the two code
    units outside ASCII whose lower case contains an ASCII letter (U+0130
    and the Kelvin sign U+212A) are tabulated.  Every other code unit is
    outside ASCII and not white space both before and after lowering, and
    the program only ever looks at such units through the classes
    [a-z0-9\s-], so they are left as they are. *)
Definition lowerUnit (c : N) : jsstring :=
  if (65 <=? c) && (c <=? 90) then [c + 32]
  else if c =? 0x130 then [0x69; 0x307]
  else if c =? 0x212A then [0x6B]
  else [c].

Definition toLowerCase (s : jsstring) : jsstring := flat_map lowerUnit s.

Fixpoint dropWhile (p : N -> bool) (s : jsstring) : jsstring :=
  match s with
  | [] => []
  | c :: t => if p c then dropWhile p t else s
  end.

Fixpoint takeWhile (p : N -> bool) (s : jsstring) : jsstring :=
  match s with
  | [] => []
  | c :: t => if p c then c :: takeWhile p t else []
  end.

(** Drops the longest suffix whose units satisfy [p]. *)
Definition dropWhileEnd (p : N -> bool) (s : jsstring) : jsstring :=
  fold_right (fun c acc => match acc with
                           | [] => if p c then [] else [c]
                           | _ => c :: acc
                           end) [] s.

(** [String.prototype.trim]. *)
Definition trim (s : jsstring) : jsstring :=
  dropWhileEnd isWhiteSpace (dropWhile isWhiteSpace s).

(** [s.replace(/[class]/g, r)]: every unit of the class becomes [r]. *)
Definition replaceEach (p : N -> bool) (r : jsstring) (s : jsstring) : jsstring :=
  flat_map (fun c => if p c then r else [c]) s.

(** [s.replace(/[class]+/g, r)]: every maximal run of units of the class
    becomes one [r] (emitted when the run's last unit is reached). *)
Fixpoint replaceRuns (p : N -> bool) (r : jsstring) (s : jsstring) : jsstring :=
  match s with
  | [] => []
  | c :: t =>
      if p c then
        match t with
        | [] => r
        | c' :: _ => if p c' then replaceRuns p r t else r ++ replaceRuns p r t
        end
      else c :: replaceRuns p r t
  end.

(** [s.split(sep)] for a one-unit separator: never the empty array. *)
Fixpoint split (sep : N) (s : jsstring) : list jsstring :=
  match s with
  | [] => [[]]
  | c :: t =>
      if c =? sep then [] :: split sep t
      else match split sep t with
           | [] => [[c]]
           | w :: ws => (c :: w) :: ws
           end
  end.

(** [s.startsWith(p)], returning what follows the prefix. *)
Fixpoint stripPrefix (p s : jsstring) : option jsstring :=
  match p with
  | [] => Some s
  | x :: p' =>
      match s with
      | [] => None
      | c :: t => if c =? x then stripPrefix p' t else None
      end
  end.

(** [Array.prototype.slice(0, n)] for a finite number [n]: the end index is
    truncated toward zero; a negative end counts from the back. *)
Definition truncate (q : Q) : Z := Z.quot (Qnum q) (Zpos (Qden q)).

Definition sliceTo {A : Type} (n : Q) (l : list A) : list A :=
  let k := truncate n in
  if (k <? 0)%Z
  then firstn (Z.to_nat (Z.max (Z.of_nat (length l) + k) 0)) l
  else firstn (Z.to_nat k) l.

(** ** Numbers

    A JavaScript number is an IEEE 754 binary64 value.  The arithmetic
    below is the one of [SpecFloat], the Standard Library's specification
    of binary floating point, at precision 53 and maximal exponent 1024,
    rounding to nearest, ties to even. *)

(** The rational a finite binary64 value stands for. *)
Definition valueOf (x : SpecFloat.spec_float) : Q :=
  match x with
  | SpecFloat.S754_finite s m e =>
      let n := if s then Z.neg m else Z.pos m in
      if (e <? 0)%Z then n # Pos.pow 2 (Z.to_pos (- e))
      else inject_Z (n * 2 ^ e)
  | _ => 0
  end.

(** An integer as a number; exact up to [2^53], which the lengths the
    program divides never reach. *)
Definition binary64 (z : Z) : SpecFloat.spec_float :=
  SpecFloat.binary_normalize 53 1024 z 0 false.

(** [a / b] for two counters. *)
Definition divide (a b : nat) : Q :=
  valueOf (SpecFloat.SFdiv 53 1024 (binary64 (Z.of_nat a))
                                   (binary64 (Z.of_nat b))).

(** The binary64 value nearest to a finite [q]: [q] itself when [q] is the
    value of a number, and the number a decimal literal such as [0.6]
    denotes when [q] is the literal's value.  The quotient is taken to 1080
    binary places, which is finer than any binary64 value or midpoint of
    two, with a sticky bit for what is left; the library rounds it. *)
Definition double (q : Q) : Q :=
  let n := Z.abs (Qnum q) in
  let d := Zpos (Qden q) in
  let m := (n * 2 ^ 1080 / d)%Z in
  let sticky := if (n * 2 ^ 1080 mod d =? 0)%Z then 0%Z else 1%Z in
  let x := SpecFloat.binary_normalize 53 1024 (2 * m + sticky) (-1081) false in
  if (Qnum q <? 0)%Z then (- valueOf x)%Q else valueOf x.

End Js.

Import Js.

(** ** Regular expressions of the shape [^ c1{m1,n1} c2{m2,n2} ... $]

    The two anchored expressions of the program, the heading pattern and the
    patterns [globToRegExp] builds, are sequences of quantified character
    classes.  [matchItems] is the backtracking matcher for them: a greedy
    quantifier tries the longest repetition first, a lazy one the shortest,
    and the first way to reach the end of the input wins.  It returns the
    text each item matched. *)

Record item := {
  cls : N -> bool;
  rmin : nat;
  rmax : option nat;
  greedy : bool
}.

Definition counts (it : item) (avail : nat) : list nat :=
  let hi := match rmax it with Some m => Nat.min m avail | None => avail end in
  let up := seq (rmin it) (S hi - rmin it) in
  if greedy it then rev up else up.

Fixpoint matchItems (re : list item) (s : jsstring) : option (list jsstring) :=
  match re with
  | [] => match s with [] => Some [] | _ :: _ => None end
  | it :: re' =>
      (fix try (ns : list nat) : option (list jsstring) :=
         match ns with
         | [] => None
         | n :: ns' =>
             match matchItems re' (skipn n s) with
             | Some caps => Some (firstn n s :: caps)
             | None => try ns'
             end
         end) (counts it (length (takeWhile (cls it) s)))
  end.

(** [s.replace(re, r)] for a global expression given by [matchLen], the
    length of its match at the start of a string (matches are never empty).
    [skip] counts the units of the current match still to be dropped. *)
Fixpoint replaceMatches (matchLen : jsstring -> option nat) (r : jsstring)
    (skip : nat) (s : jsstring) : jsstring :=
  match s with
  | [] => []
  | c :: t =>
      match skip with
      | S k => replaceMatches matchLen r k t
      | O =>
          match matchLen s with
          | Some n => r ++ replaceMatches matchLen r (Nat.pred n) t
          | None => c :: replaceMatches matchLen r 0 t
          end
      end
  end.

(** [s.indexOf(pat)]. *)
Fixpoint indexOf (pat s : jsstring) : option nat :=
  match stripPrefix pat s with
  | Some _ => Some 0%nat
  | None =>
      match s with
      | [] => None
      | _ :: t => option_map S (indexOf pat t)
      end
  end.

(** ** The tagger *)

Definition STOPWORDS : list jsstring :=
  map u
    ["a"; "an"; "and"; "are"; "as"; "at"; "be"; "but"; "by"; "can"; "could";
     "did"; "do"; "does"; "for"; "from"; "had"; "has"; "have"; "how"; "i";
     "if"; "in"; "into"; "is"; "it"; "its"; "just"; "like"; "may"; "might";
     "more"; "most"; "not"; "of"; "on"; "or"; "our"; "should"; "so"; "some";
     "such"; "than"; "that"; "the"; "their"; "then"; "there"; "these";
     "this"; "those"; "to"; "too"; "up"; "use"; "using"; "was"; "we"; "were";
     "what"; "when"; "where"; "which"; "who"; "why"; "will"; "with"; "you";
     "your"]%string.

(** [uniqueStable]; [seen] is the [Set] of the items met so far. *)
Fixpoint uniqueStableFrom (seen : list jsstring) (items : list jsstring)
    : list jsstring :=
  match items with
  | [] => []
  | it :: rest =>
      if has seen it then uniqueStableFrom seen rest
      else it :: uniqueStableFrom (it :: seen) rest
  end.

Definition uniqueStable (items : list jsstring) : list jsstring :=
  uniqueStableFrom [] items.

(** The class [[a-z0-9-]]. *)
Definition isSlugChar (c : N) : bool :=
  ((97 <=? c) && (c <=? 122)) || ((48 <=? c) && (c <=? 57)) || (c =? 45).

(** The class [[a-z0-9\s-]], whose complement both [slugifyHashtag] and
    [extractWords] blank out. *)
Definition isSlugOrSpace (c : N) : bool := isSlugChar c || isWhiteSpace c.

Definition isQuote (c : N) : bool := (c =? 39) || (c =? 34).

(** [.replace(/^-|-$/g, empty)]: one hyphen at the start and one at the
    end are removed. *)
Definition dropFirstHyphen (s : jsstring) : jsstring :=
  match s with
  | c :: t => if c =? HYPHEN then t else s
  | [] => []
  end.

Fixpoint dropLastHyphen (s : jsstring) : jsstring :=
  match s with
  | [] => []
  | c :: t =>
      match t with
      | [] => if c =? HYPHEN then [] else [c]
      | _ :: _ => c :: dropLastHyphen t
      end
  end.

Definition stripEdgeHyphens (s : jsstring) : jsstring :=
  dropLastHyphen (dropFirstHyphen s).

(** The chain of calls that computes the local [cleaned]. *)
Definition cleanedOf (raw : jsstring) : jsstring :=
  stripEdgeHyphens                                     (* /^-|-$/g          *)
    (replaceRuns (isChar HYPHEN) [HYPHEN]              (* /-+/g -> '-'      *)
      (replaceEach isWhiteSpace [HYPHEN]               (* /\s/g -> '-'      *)
        (trim
          (replaceRuns isWhiteSpace [SPACE]            (* /\s+/g -> ' '     *)
            (replaceEach (fun c => negb (isSlugOrSpace c)) [SPACE]
                                                       (* /[^a-z0-9\s-]/g   *)
              (replaceEach (isChar 38) (u " and ")     (* /&/g -> ' and '   *)
                (replaceEach isQuote []                (* both quote marks  *)
                  (dropWhile (isChar HASH)             (* /^#+/g            *)
                    (trim (toLowerCase raw)))))))))).

Definition slugifyHashtag (raw : jsstring) : option jsstring :=
  let cleaned := cleanedOf raw in
  match cleaned with
  | [] => None
  | _ :: _ =>
      if (length cleaned <? 2)%nat then None
      else if has STOPWORDS cleaned then None
      else Some cleaned
  end.

(** [items.map(slugifyHashtag).filter(Boolean)]. *)
Definition slugifyAll (items : list jsstring) : list jsstring :=
  flat_map (fun h => match slugifyHashtag h with
                     | Some s => [s]
                     | None => []
                     end) items.

(** Length of a match of [/```[\s\S]*?```/] at the start of [s]. *)
Definition fencedLen (s : jsstring) : option nat :=
  match stripPrefix (u "```") s with
  | Some r => option_map (fun d => (3 + d + 3)%nat) (indexOf (u "```") r)
  | None => None
  end.

(** Length of a match of [/`[^`]*`/] at the start of [s]. *)
Definition inlineLen (s : jsstring) : option nat :=
  match s with
  | c :: r =>
      if c =? BACKTICK
      then option_map (fun d => (1 + d + 1)%nat) (indexOf [BACKTICK] r)
      else None
  | [] => None
  end.

Definition stripCodeBlocks (markdown : jsstring) : jsstring :=
  replaceMatches inlineLen [SPACE] 0
    (replaceMatches fencedLen [SPACE] 0 markdown).

(** [/^(#{1,6})\s+(.+?)\s*$/] *)
Definition headingRe : list item :=
  [ {| cls := isChar HASH; rmin := 1; rmax := Some 6%nat; greedy := true |};
    {| cls := isWhiteSpace; rmin := 1; rmax := None; greedy := true |};
    {| cls := fun c => negb (isLineTerminator c);
       rmin := 1; rmax := None; greedy := false |};
    {| cls := isWhiteSpace; rmin := 0; rmax := None; greedy := true |} ].

(** The body of the loop of [extractHeadings]: what one line pushes. *)
Definition headingOfLine (line : jsstring) : list jsstring :=
  match matchItems headingRe line with
  | Some [_; _; m2; _] => match m2 with [] => [] | _ => [m2] end
  | _ => []
  end.

Definition extractHeadings (markdown : jsstring) : list jsstring :=
  flat_map headingOfLine (split LF markdown).

(** Whether [/https?:\/\/\S+/] matches at the start of [s], and the length
    of that match: the scheme and then every unit up to the next white
    space. *)
Definition urlStart (s : jsstring) : bool :=
  match stripPrefix (u "http") s with
  | Some r =>
      let r' := match r with
                | c :: t => if c =? 115 then t else r
                | [] => r
                end in
      match stripPrefix (u "://") r' with
      | Some (c :: _) => negb (isWhiteSpace c)
      | _ => false
      end
  | None => false
  end.

Definition urlLen (s : jsstring) : option nat :=
  if urlStart s
  then Some (length (takeWhile (fun c => negb (isWhiteSpace c)) s))
  else None.

Definition extractWords (text : jsstring) : list jsstring :=
  filter (fun w => negb (has STOPWORDS w))
    (filter (fun w => (3 <=? length w)%nat)
      (split SPACE
        (trim
          (replaceRuns isWhiteSpace [SPACE]
            (replaceEach (fun c => negb (isSlugOrSpace c)) [SPACE]
              (replaceMatches urlLen [SPACE] 0 (toLowerCase text))))))).

(** [counts.set(w, (counts.get(w) ?? 0) + 1)] on an insertion-ordered map. *)
Fixpoint bump (w : jsstring) (m : list (jsstring * nat)) : list (jsstring * nat) :=
  match m with
  | [] => [(w, 1%nat)]
  | (k, n) :: rest =>
      if str_eqb k w then (k, S n) :: rest else (k, n) :: bump w rest
  end.

Definition countWords (ws : list jsstring) : list (jsstring * nat) :=
  fold_left (fun m w => bump w m) ws [].

(** [.sort((a, b) => b[1] - a[1])]: a stable sort, larger counts first. *)
Fixpoint insertByCount (x : jsstring * nat) (l : list (jsstring * nat))
    : list (jsstring * nat) :=
  match l with
  | [] => [x]
  | y :: r =>
      if (snd y <=? snd x)%nat then x :: y :: r else y :: insertByCount x r
  end.

Definition sortByCount (l : list (jsstring * nat)) : list (jsstring * nat) :=
  fold_right insertByCount [] l.

Definition topKeywords (text : jsstring) (limit : Q) : list jsstring :=
  map fst (sliceTo (Qmax 0 limit) (sortByCount (countWords (extractWords text)))).

(** [new Set(slug.split('-').filter(Boolean))] *)
Definition tokeniseSlug (slug : jsstring) : list jsstring :=
  uniqueStable
    (filter (fun t => match t with [] => false | _ => true end)
       (split HYPHEN slug)).

Record MatchResult := {
  mapped : jsstring;
  score : Q;
  from : option jsstring
}.

Definition Qlt_bool (a b : Q) : bool := negb (Qle_bool b a).

(** The [for] loop of [mapToCache] with its two locals, and the two
    [return]s after it.  [score] and [bestScore] are numbers the program
    computed; [threshold] is held by its value, and what [bestScore] is
    compared with is the number of that value. *)
Fixpoint mapLoop (candidate : jsstring) (candTokens : list jsstring)
    (threshold : Q) (cache : list jsstring) (best : jsstring) (bestScore : Q)
    : MatchResult :=
  match cache with
  | [] =>
      if Qle_bool (double threshold) bestScore
      then {| mapped := best; score := bestScore; from := Some best |}
      else {| mapped := candidate; score := bestScore; from := None |}
  | existing :: rest =>
      if str_eqb existing candidate
      then {| mapped := existing; score := 1; from := Some existing |}
      else
        let exTokens := tokeniseSlug existing in
        if (length exTokens =? 0)%nat
        then mapLoop candidate candTokens threshold rest best bestScore
        else
          let inter := length (filter (has exTokens) candTokens) in
          let union := (length candTokens + length exTokens - inter)%nat in
          let score :=
            if (union =? 0)%nat then 0%Q else divide inter union in
          if Qlt_bool bestScore score
          then mapLoop candidate candTokens threshold rest existing score
          else mapLoop candidate candTokens threshold rest best bestScore
  end.

Definition mapToCache (candidate : jsstring) (cache : list jsstring)
    (threshold : Q) : MatchResult :=
  let candTokens := tokeniseSlug candidate in
  if (length candTokens =? 0)%nat
  then {| mapped := candidate; score := 0; from := None |}
  else mapLoop candidate candTokens threshold cache candidate 0.

(** ** Values of unknown type: parsed JSON and YAML *)

Inductive number :=
| Finite (q : Q)
| NaN
| PosInfinity
| NegInfinity.

#[local] Set Warnings "-register-all".

Inductive jsval :=
| VNull
| VBool (b : bool)
| VNum (n : number)
| VStr (s : jsstring)
| VArr (items : list jsval)
| VObj (fields : list (jsstring * jsval)).

(** A plain object: its own properties in creation order. *)
Definition UnknownRecord := list (jsstring * jsval).

(** [o[k]]; [None] is [undefined]. *)
Fixpoint getField (o : UnknownRecord) (k : jsstring) : option jsval :=
  match o with
  | [] => None
  | (k', v) :: rest => if str_eqb k' k then Some v else getField rest k
  end.

(** [o[k] = v]: an existing property keeps its place, a new one goes last. *)
Fixpoint setField (o : UnknownRecord) (k : jsstring) (v : jsval) : UnknownRecord :=
  match o with
  | [] => [(k, v)]
  | (k', v') :: rest =>
      if str_eqb k' k then (k', v) :: rest else (k', v') :: setField rest k v
  end.

(** [raw.k] for a parsed JSON document.  None of the keys the program asks
    for names a property of a string, an array, a number or a boolean. *)
Definition getProp (v : jsval) (k : jsstring) : option jsval :=
  match v with
  | VObj fields => getField fields k
  | _ => None
  end.

Definition isStringArray (v : option jsval) : bool :=
  match v with
  | Some (VArr items) =>
      forallb (fun x => match x with VStr _ => true | _ => false end) items
  | _ => false
  end.

(** The strings of an array that passed [isStringArray]. *)
Definition strings (v : option jsval) : list jsstring :=
  match v with
  | Some (VArr items) =>
      flat_map (fun x => match x with VStr s => [s] | _ => [] end) items
  | _ => []
  end.

(** JavaScript truthiness of a parsed JSON value ([!raw] is its negation). *)
Definition truthy (v : jsval) : bool :=
  match v with
  | VNull => false
  | VBool b => b
  | VNum (Finite q) => negb (Qeq_bool q 0)
  | VNum NaN => false
  | VNum _ => true
  | VStr s => match s with [] => false | _ => true end
  | VArr _ => true
  | VObj _ => true
  end.

(** ** Errors *)

Inductive error :=
| ReadJsonError (filePath msg : jsstring)
    (* Failed to read JSON: <filePath>: <msg> *)
| ConfigMinError (min : Q)
    (* Config min must be >= 1 (got <min>) *)
| ConfigMaxError (max : Q)
    (* Config max must be >= min (got <max>) *)
| ReadFileError (filePath : jsstring)
    (* fs.readFile or matter(raw) threw *)
| WriteError (filePath : jsstring)
    (* fs.mkdir or fs.writeFile rejected *)
| ExitNoFiles.
    (* process.exit(1): no markdown files found *)

Inductive result (A : Type) :=
| Ok (a : A)
| Throw (e : error).

Arguments Ok {A} a.
Arguments Throw {A} e.

Definition bind {A B : Type} (r : result A) (k : A -> result B) : result B :=
  match r with
  | Ok a => k a
  | Throw e => Throw e
  end.

Notation "'let!' x ':=' r 'in' k" := (bind r (fun x => k))
  (at level 10, x name, r at level 100, k at level 200).

(** What the body of a [try] block did: returned a value, or threw an
    [Error] with an optional [code] (the errno name) and a message. *)
Inductive TryOutcome (T : Type) :=
| Returned (v : T)
| Threw (code : option jsstring) (message : jsstring).

Arguments Returned {T} v.
Arguments Threw {T} code message.

(** [readJsonFile]; [attempt] is the outcome of
    [JSON.parse(await fs.readFile(filePath, 'utf8'))]. *)
Definition readJsonFile (filePath : jsstring) (attempt : TryOutcome jsval)
    : result jsval :=
  match attempt with
  | Returned v => Ok v
  | Threw code msg =>
      match code with
      | Some c => if str_eqb c (u "ENOENT") then Ok VNull
                  else Throw (ReadJsonError filePath msg)
      | None => Throw (ReadJsonError filePath msg)
      end
  end.

Definition clampNumber (v min max : Q) : Q := Qmax min (Qmin max v).

(** ** Configuration *)

Inductive DenylistMode := Exact | Glob.

Record RequiredTaggerConfig := {
  contentDir : jsstring;
  contentGlob : option jsstring;
  min : Q;
  max : Q;
  denylist : list jsstring;
  denylistMode : DenylistMode;
  cacheFile : jsstring;
  cacheSimilarityThreshold : Q;
  verboseRemapLimit : Q;
  warningSuggestionLimit : Q;
  candidateLimit : Q;
  keywordLimit : Q;
  extraWordScanLimit : Q
}.

Record CliConfig := {
  configFile : jsstring;
  singleFile : option jsstring;
  dryRun : bool;
  write : bool;
  verbose : bool;
  cacheRebuild : bool
}.

Definition defaults : RequiredTaggerConfig := {|
  contentDir := u "src/content/blog";
  contentGlob := None;
  min := 3;
  max := 12;
  denylist := [];
  denylistMode := Exact;
  cacheFile := u "src/scripts/tagger/.hashtags-cache.json";
  cacheSimilarityThreshold := 6 # 10;
  verboseRemapLimit := 25;
  warningSuggestionLimit := 10;
  candidateLimit := 500;
  keywordLimit := 30;
  extraWordScanLimit := 300
|}.

(** [typeof v === 'string' && v.trim() ? v.trim() : d] *)
Definition trimmedOr {A : Type} (wrap : jsstring -> A) (v : option jsval) (d : A) : A :=
  match v with
  | Some (VStr s) => match trim s with [] => d | t => wrap t end
  | _ => d
  end.

(** [typeof v === 'number' && Number.isFinite(v) ? v : d] *)
Definition finiteOr (v : option jsval) (d : Q) : Q :=
  match v with
  | Some (VNum (Finite q)) => q
  | _ => d
  end.

Definition loadConfig (cfgPath : jsstring) (attempt : TryOutcome jsval)
    : result RequiredTaggerConfig :=
  let! raw := readJsonFile cfgPath attempt in
  if negb (truthy raw) then Ok defaults
  else
    let contentDir' :=
      trimmedOr (fun s => s) (getProp raw (u "contentDir")) (contentDir defaults) in
    let contentGlob' :=
      trimmedOr Some (getProp raw (u "contentGlob")) (contentGlob defaults) in
    let denylist' :=
      if isStringArray (getProp raw (u "denylist"))
      then slugifyAll (strings (getProp raw (u "denylist")))
      else [] in
    let denylistMode' :=
      match getProp raw (u "denylistMode") with
      | Some (VStr m) =>
          if str_eqb m (u "glob") then Glob
          else if str_eqb m (u "exact") then Exact
          else denylistMode defaults
      | _ => denylistMode defaults
      end in
    let min' := finiteOr (getProp raw (u "min")) (min defaults) in
    let max' := finiteOr (getProp raw (u "max")) (max defaults) in
    let cacheFile' :=
      trimmedOr (fun s => s) (getProp raw (u "cacheFile")) (cacheFile defaults) in
    let cacheSimilarityThreshold' :=
      match getProp raw (u "cacheSimilarityThreshold") with
      | Some (VNum (Finite q)) => clampNumber q 0 1
      | _ => cacheSimilarityThreshold defaults
      end in
    let verboseRemapLimit' :=
      finiteOr (getProp raw (u "verboseRemapLimit")) (verboseRemapLimit defaults) in
    let warningSuggestionLimit' :=
      finiteOr (getProp raw (u "warningSuggestionLimit"))
               (warningSuggestionLimit defaults) in
    let candidateLimit' :=
      finiteOr (getProp raw (u "candidateLimit")) (candidateLimit defaults) in
    let keywordLimit' :=
      finiteOr (getProp raw (u "keywordLimit")) (keywordLimit defaults) in
    let extraWordScanLimit' :=
      finiteOr (getProp raw (u "extraWordScanLimit")) (extraWordScanLimit defaults) in
    if Qlt_bool min' 1 then Throw (ConfigMinError min')
    else if Qlt_bool max' min' then Throw (ConfigMaxError max')
    else Ok {|
      contentDir := contentDir';
      contentGlob := contentGlob';
      min := min';
      max := max';
      denylist := denylist';
      denylistMode := denylistMode';
      cacheFile := cacheFile';
      cacheSimilarityThreshold := cacheSimilarityThreshold';
      verboseRemapLimit := verboseRemapLimit';
      warningSuggestionLimit := warningSuggestionLimit';
      candidateLimit := candidateLimit';
      keywordLimit := keywordLimit';
      extraWordScanLimit := extraWordScanLimit'
    |}.

(** ** Denylist *)

(** Case folding of the [i] flag, for the patterns the program compiles.
    The engine compares two units by their upper case; its rule never folds
    a unit outside ASCII onto an ASCII one.  So against an ASCII unit of the
    pattern, comparing [canonicalize c] is what the engine does whatever the
    input unit [c] is: ASCII letters are folded, and a unit outside ASCII
    differs.  Every pattern the program compiles is ASCII, for [loadConfig]
    leaves only normalised labels in the denylist.  For a pattern unit
    outside ASCII the engine would fold more (e-acute, sigma) than is
    written here. *)
Definition canonicalize (c : N) : N :=
  if (97 <=? c) && (c <=? 122) then c - 32 else c.

Definition anyChar : item :=
  {| cls := fun c => negb (isLineTerminator c);
     rmin := 1; rmax := Some 1%nat; greedy := true |}.

Definition anyRun : item :=
  {| cls := fun c => negb (isLineTerminator c);
     rmin := 0; rmax := None; greedy := true |}.

Definition literal (x : N) : item :=
  {| cls := fun c => canonicalize c =? canonicalize x;
     rmin := 1; rmax := Some 1%nat; greedy := true |}.

(** [globToRegExp]: the units [. + ^ $ { } ( ) | [ ] \] are escaped and so
    stand for themselves, [*] becomes [.*], [?] becomes [.]; every other
    unit is an ordinary pattern character.  The result is anchored by [^]
    and [$] and carries the [i] flag. *)
Definition globToRegExp (glob : jsstring) : list item :=
  map (fun c => if c =? 42 then anyRun
                else if c =? 63 then anyChar
                else literal c) glob.

(** [re.test(x)] *)
Definition test (re : list item) (x : jsstring) : bool :=
  match matchItems re x with
  | Some _ => true
  | None => false
  end.

Record DenyResult := {
  kept : list jsstring;
  denied : list jsstring
}.

Definition filterNewWithDenylist (newItems : list jsstring)
    (denylist : list jsstring) (mode : DenylistMode) : DenyResult :=
  match denylist with
  | [] => {| kept := newItems; denied := [] |}
  | _ =>
      match mode with
      | Exact =>
          {| kept := filter (fun x => negb (has denylist x)) newItems;
             denied := filter (fun x => has denylist x) newItems |}
      | Glob =>
          let patterns := map globToRegExp denylist in
          let hit x := existsb (fun re => test re x) patterns in
          {| kept := filter (fun x => negb (hit x)) newItems;
             denied := filter hit newItems |}
      end
  end.

(** ** Documents *)

(** A file as [processFile] sees it after [matter(raw)]: the text read, the
    front matter and the body. *)
Record ParsedFile := {
  raw : jsstring;
  data : UnknownRecord;
  content : jsstring
}.

(** A markdown file of the batch: its path, the title fallback
    [path.basename(filePath, path.extname(filePath))], what reading and
    parsing it gives ([None]: [fs.readFile] or [matter] throws) and whether
    [fs.writeFile] on it succeeds. *)
Record SourceFile := {
  filePath : jsstring;
  baseName : jsstring;
  parsed : option ParsedFile;
  writable : bool
}.

Record Outcome := {
  changed : bool;
  added : list jsstring;
  final : list jsstring
}.

Definition getTitleFromFrontmatter (fm : UnknownRecord) : option jsstring :=
  match getField fm (u "title") with
  | Some (VStr t) => match trim t with [] => None | t' => Some t' end
  | _ => None
  end.

(** The locals of [processFile], in the order it computes them. *)

Definition existingOf (fm : UnknownRecord) : list jsstring :=
  if isStringArray (getField fm (u "hashtags"))
  then uniqueStable (slugifyAll (strings (getField fm (u "hashtags"))))
  else [].

Definition rawCandidatesOf (base : jsstring) (p : ParsedFile)
    (conf : RequiredTaggerConfig) : list jsstring :=
  let title := match getTitleFromFrontmatter (data p) with
               | Some t => t
               | None => base
               end in
  let headings := extractHeadings (content p) in
  let tagCandidates :=
    if isStringArray (getField (data p) (u "tags"))
    then strings (getField (data p) (u "tags")) else [] in
  let bodyNoCode := stripCodeBlocks (content p) in
  let keywordCandidates := topKeywords bodyNoCode (keywordLimit conf) in
  sliceTo (candidateLimit conf)
    (uniqueStable (title :: headings ++ tagCandidates ++ keywordCandidates)).

Definition generatedAllOf (base : jsstring) (p : ParsedFile)
    (conf : RequiredTaggerConfig) : list jsstring :=
  uniqueStable (slugifyAll (rawCandidatesOf base p conf)).

Definition mappedNewOf (base : jsstring) (p : ParsedFile)
    (conf : RequiredTaggerConfig) (cacheHashtags : list jsstring) : list jsstring :=
  let denyRes :=
    filterNewWithDenylist (generatedAllOf base p conf)
      (denylist conf) (denylistMode conf) in
  map (fun c => mapped (mapToCache c cacheHashtags (cacheSimilarityThreshold conf)))
      (kept denyRes).

Definition combinedOf (base : jsstring) (p : ParsedFile)
    (conf : RequiredTaggerConfig) (cacheHashtags : list jsstring) : list jsstring :=
  sliceTo (max conf)
    (uniqueStable (existingOf (data p) ++ mappedNewOf base p conf cacheHashtags)).

Definition addedOf (base : jsstring) (p : ParsedFile)
    (conf : RequiredTaggerConfig) (cacheHashtags : list jsstring) : list jsstring :=
  filter (fun h => negb (has (existingOf (data p)) h))
         (combinedOf base p conf cacheHashtags).

(** [fm] after the assignment to its [hashtags] property. *)
Definition updatedData (p : ParsedFile) (combined : list jsstring) : UnknownRecord :=
  setField (data p) (u "hashtags") (VArr (map VStr combined)).

(** The body as it is written: [content.replace(/^\n+/, empty)] and the
    line feed of the template. *)
Definition writtenBody (p : ParsedFile) : jsstring :=
  dropWhile (isChar LF) (content p) ++ [LF].

Section Processing.

(** [yaml.dump(data, { lineWidth: 120, noRefs: true, sortKeys: false })] *)
Variable dump : UnknownRecord -> jsstring.

Definition toYamlFrontmatter (fm : UnknownRecord) : jsstring :=
  u "---" ++ [LF] ++ dump fm ++ u "---" ++ [LF].

Definition newRawOf (p : ParsedFile) (combined : list jsstring) : jsstring :=
  toYamlFrontmatter (updatedData p combined) ++ writtenBody p.

(** [processFile]: the value it resolves to and, when it called
    [fs.writeFile], the text it wrote. *)
Definition processFile (f : SourceFile) (cfg : CliConfig)
    (conf : RequiredTaggerConfig) (cacheHashtags : list jsstring)
    : result (Outcome * option jsstring) :=
  match parsed f with
  | None => Throw (ReadFileError (filePath f))
  | Some p =>
      let combined := combinedOf (baseName f) p conf cacheHashtags in
      let added' := addedOf (baseName f) p conf cacheHashtags in
      match added' with
      | [] => Ok ({| changed := false; added := []; final := combined |}, None)
      | _ =>
          let newRaw := newRawOf p combined in
          if str_eqb newRaw (raw p)
          then Ok ({| changed := false; added := []; final := combined |}, None)
          else if dryRun cfg
          then Ok ({| changed := true; added := added'; final := combined |}, None)
          else if writable f
          then Ok ({| changed := true; added := added'; final := combined |},
                   Some newRaw)
          else Throw (WriteError (filePath f))
      end
  end.

End Processing.

(** ** The vocabulary cache *)

(** [version] is always 1 and is left out.  [readJsonFile] casts without
    checking; the model reads [hashtags] at its declared type [string[]]
    (an entry that is not a string is outside the model and is skipped). *)
Record CacheFile := {
  updatedAt : option jsval;
  hashtags : list jsstring
}.

(** [a.localeCompare(b) <= 0] on labels: by code unit, which on the
    alphabet [[a-z0-9-]] is the order of the root collation.  It is the
    order of the program for entries that are labels only (an entry such
    as [Zed], which only a cache file edited by hand can hold, is placed
    by its code units here and by its letters there); nothing below rests
    on the order of a vocabulary. *)
Fixpoint str_leb (a b : jsstring) : bool :=
  match a, b with
  | [], _ => true
  | _ :: _, [] => false
  | x :: a', y :: b' =>
      if x <? y then true else if y <? x then false else str_leb a' b'
  end.

Fixpoint insertSorted (x : jsstring) (l : list jsstring) : list jsstring :=
  match l with
  | [] => [x]
  | y :: r => if str_leb x y then x :: l else y :: insertSorted x r
  end.

Definition sortLabels (l : list jsstring) : list jsstring :=
  fold_right insertSorted [] l.

Definition scanExistingHashtags (files : list SourceFile) : list jsstring :=
  sortLabels
    (uniqueStable
       (flat_map
          (fun f =>
             match parsed f with
             | Some p =>
                 if isStringArray (getField (data p) (u "hashtags"))
                 then slugifyAll (strings (getField (data p) (u "hashtags")))
                 else []
             | None => []          (* caught: Cache scan error for <f> *)
             end) files)).

Section Cache.

(** [new Date().toISOString()], and whether the cache file can be
    written. *)
Variable now : jsstring.
Variable cacheWritable : bool.

(** [buildCache]: the cache it resolves to and, when it called
    [writeJsonFile], the cache it wrote to the cache file. *)
Definition buildCache (files : list SourceFile) (cacheFilePath : jsstring)
    (dryRun : bool) : result (CacheFile * option CacheFile) :=
  let cache := {| updatedAt := Some (VStr now);
                  hashtags := scanExistingHashtags files |} in
  if dryRun then Ok (cache, None)
  else if cacheWritable then Ok (cache, Some cache)
  else Throw (WriteError cacheFilePath).

(** [loadOrCreateCache], with what it wrote, if anything; [attempt] is the
    outcome of reading and parsing the cache file. *)
Definition loadOrCreateCache (files : list SourceFile)
    (cacheFilePath : jsstring) (dryRun : bool) (attempt : TryOutcome jsval)
    : result (CacheFile * option CacheFile) :=
  let! existing := readJsonFile cacheFilePath attempt in
  match getProp existing (u "version"), getProp existing (u "hashtags") with
  | Some (VNum (Finite v)), Some (VArr items) =>
      if Qeq_bool v 1
      then Ok ({| updatedAt := getProp existing (u "updatedAt");
                  hashtags := strings (Some (VArr items)) |}, None)
      else buildCache files cacheFilePath dryRun
  | _, _ => buildCache files cacheFilePath dryRun
  end.

End Cache.

(** ** The batch *)

(** Everything [main] reads from outside: the two JSON files, the files
    [resolveFiles] found, the clock and whether the cache can be written.

    A file is read and parsed when the cache is scanned and again when it
    is processed, and the two need not agree: [gray-matter] keeps what it
    parsed, by content, and [processFile] assigns to the front matter it
    was handed, so a file with the content of one processed before it comes
    with that one's new [hashtags], and a file whose parse threw during
    the scan comes back without throwing.  [files] are the files as
    [processFile] gets them, each in its turn, and [scanned] the same
    files as [scanExistingHashtags] gets them before any is processed;
    nothing is assumed of how the two are related. *)
Record World := {
  configAttempt : TryOutcome jsval;
  cacheAttempt : TryOutcome jsval;
  cacheCanBeWritten : bool;
  files : list SourceFile;
  scanned : list SourceFile;
  clock : jsstring
}.

(** What a run of [main] that did not throw has done: per file the value
    of [processFile] (or the error the loop caught), the two counters, the
    cache [buildCache] wrote to the cache file, if it did, and the cache
    [main] wrote to it after the loop, if it did. *)
Record Report := {
  results : list (result (Outcome * option jsstring));
  changedCount : nat;
  skippedCount : nat;
  cacheBuilt : option CacheFile;
  cacheWritten : option CacheFile
}.

Section Main.

Variable dump : UnknownRecord -> jsstring.

Definition main (cfg : CliConfig) (w : World) : result Report :=
  let! conf := loadConfig (configFile cfg) (configAttempt w) in
  match files w with
  | [] => Throw ExitNoFiles
  | _ =>
      if cacheRebuild cfg then
        let! built := buildCache (clock w) (cacheCanBeWritten w) (scanned w)
                        (cacheFile conf) (dryRun cfg) in
        Ok {| results := []; changedCount := 0; skippedCount := 0;
              cacheBuilt := snd built; cacheWritten := None |}
      else
        let! loaded := loadOrCreateCache (clock w) (cacheCanBeWritten w)
                         (scanned w) (cacheFile conf) (dryRun cfg)
                         (cacheAttempt w) in
        let cacheHashtags := hashtags (fst loaded) in
        let res := map (fun f => processFile dump f cfg conf cacheHashtags)
                       (files w) in
        let isChanged r := match r with
                           | Ok (o, _) => changed o
                           | Throw _ => false
                           end in
        let isSkipped r := match r with
                           | Ok (o, _) => negb (changed o)
                           | Throw _ => false
                           end in
        let newlyAddedToCache :=
          flat_map (fun r => match r with
                             | Ok (o, _) => added o
                             | Throw _ => []
                             end) res in
        let mergedCache :=
          sortLabels (uniqueStable (cacheHashtags ++ newlyAddedToCache)) in
        let report upd :=
          {| results := res;
             changedCount := length (filter isChanged res);
             skippedCount := length (filter isSkipped res);
             cacheBuilt := snd loaded;
             cacheWritten := upd |} in
        if (length mergedCache =? length cacheHashtags)%nat
        then Ok (report None)
        else if dryRun cfg then Ok (report None)
        else if cacheCanBeWritten w
        then Ok (report (Some {| updatedAt := Some (VStr (clock w));
                                 hashtags := mergedCache |}))
        else Throw (WriteError (cacheFile conf))
  end.

End Main.

(** ** The vocabulary of the specification *)

Definition startsWithHyphen (s : jsstring) : bool :=
  match s with
  | c :: _ => c =? HYPHEN
  | [] => false
  end.

Fixpoint endsWithHyphen (s : jsstring) : bool :=
  match s with
  | [] => false
  | c :: t => match t with [] => c =? HYPHEN | _ :: _ => endsWithHyphen t end
  end.

Fixpoint noDoubleHyphen (s : jsstring) : bool :=
  match s with
  | [] => true
  | c :: t =>
      match t with
      | [] => true
      | c' :: _ => negb ((c =? HYPHEN) && (c' =? HYPHEN)) && noDoubleHyphen t
      end
  end.

(** The slug grammar: only lower-case letters, digits and hyphens, no
    hyphen at either end, no two hyphens in a row, at least two units, not a
    stopword. *)
Definition slugGrammar (s : jsstring) : Prop :=
  forallb isSlugChar s = true
  /\ startsWithHyphen s = false
  /\ endsWithHyphen s = false
  /\ noDoubleHyphen s = true
  /\ (2 <= length s)%nat
  /\ ~ In s STOPWORDS.

(** A label is a string [slugifyHashtag] accepts and leaves as it is. *)
Definition isLabel (s : jsstring) : Prop := slugifyHashtag s = Some s.

(** [slice(0, n)] keeps a number of leading elements that depends on [n]
    and on the length only. *)
Definition sliceLen (n : Q) (len : nat) : nat :=
  let k := truncate n in
  if (k <? 0)%Z then Z.to_nat (Z.max (Z.of_nat len + k) 0) else Z.to_nat k.

(** The text [extractWords] splits into words. *)
Definition wordText (text : jsstring) : jsstring :=
  trim
    (replaceRuns isWhiteSpace [SPACE]
      (replaceEach (fun c => negb (isSlugOrSpace c)) [SPACE]
        (replaceMatches urlLen [SPACE] 0 (toLowerCase text)))).

(** The three expressions replaced with [replaceMatches] do not see a line
    feed added at the end, and never match past the end. *)
Record lineFeedBlind (matchLen : jsstring -> option nat) : Prop := {
  blind_nil : matchLen [] = None;
  blind_cons : forall s, matchLen (LF :: s) = None;
  blind_snoc : forall s, matchLen (s ++ [LF]) = matchLen s;
  blind_bound : forall s n, matchLen s = Some n -> (n <= length s)%nat
}.

(** ** Examples to run the program on *)

(** A serializer to run the examples with, one line per key.  The theorems
    are proved for every serializer. *)
Definition keysOnly (fm : UnknownRecord) : jsstring :=
  flat_map (fun kv => fst kv ++ [LF]) fm.

Definition writeMode : CliConfig := {|
  configFile := u "src/scripts/tagger/tagger.config.json";
  singleFile := None;
  dryRun := false;
  write := true;
  verbose := false;
  cacheRebuild := false
|}.

(** The file [---\ntitle: Note\n---\n\nHello\n]. *)
Definition notePost : ParsedFile := {|
  raw := u "---" ++ [LF] ++ u "title: Note" ++ [LF] ++ u "---" ++ [LF]
           ++ [LF] ++ u "Hello" ++ [LF];
  data := [(u "title", VStr (u "Note"))];
  content := [LF] ++ u "Hello" ++ [LF]
|}.

Definition noteFile : SourceFile := {|
  filePath := u "src/content/blog/note.md";
  baseName := u "note";
  parsed := Some notePost;
  writable := true
|}.

Definition noteOutcome : Outcome := {|
  changed := true;
  added := [u "note"; u "hello"];
  final := [u "note"; u "hello"]
|}.

(** The file [---\ntitle: Note\nhashtags:\n  - web\n  - 2024\n---\nHello\n]:
    YAML reads the second entry as a number. *)
Definition mixedPost : ParsedFile := {|
  raw := u "---" ++ [LF] ++ u "title: Note" ++ [LF] ++ u "hashtags:" ++ [LF]
           ++ u "  - web" ++ [LF] ++ u "  - 2024" ++ [LF] ++ u "---" ++ [LF]
           ++ u "Hello" ++ [LF];
  data := [(u "title", VStr (u "Note"));
           (u "hashtags", VArr [VStr (u "web"); VNum (Finite 2024)])];
  content := u "Hello" ++ [LF]
|}.

Definition mixedFile : SourceFile := {|
  filePath := u "src/content/blog/mixed.md";
  baseName := u "mixed";
  parsed := Some mixedPost;
  writable := true
|}.

(** A serializer in the block style of [yaml.dump], for front matter whose
    values are plain strings and lists of plain strings: [key: value], and
    [key:] followed by one [  - item] line per entry.  Other values are
    left out. *)
Definition plainYaml (fm : UnknownRecord) : jsstring :=
  flat_map
    (fun kv =>
       match snd kv with
       | VStr s => fst kv ++ u ": " ++ s ++ [LF]
       | VArr items =>
           fst kv ++ u ":" ++ [LF]
           ++ flat_map (fun x => match x with
                                 | VStr s => u "  - " ++ s ++ [LF]
                                 | _ => []
                                 end) items
       | _ => []
       end) fm.

(** [taggedFile] as the run that writes leaves it, with the labels
    [rust, web, note, hello], read again. *)
Definition taggedAgainPost : ParsedFile := {|
  raw := u "---" ++ [LF] ++ u "title: Note" ++ [LF] ++ u "hashtags:" ++ [LF]
           ++ u "  - rust" ++ [LF] ++ u "  - web" ++ [LF]
           ++ u "  - note" ++ [LF] ++ u "  - hello" ++ [LF] ++ u "---" ++ [LF]
           ++ u "Hello" ++ [LF; LF];
  data := [(u "title", VStr (u "Note"));
           (u "hashtags", VArr [VStr (u "rust"); VStr (u "web");
                                VStr (u "note"); VStr (u "hello")])];
  content := u "Hello" ++ [LF; LF]
|}.

Definition taggedAgainFile : SourceFile := {|
  filePath := u "src/content/blog/tagged.md";
  baseName := u "tagged";
  parsed := Some taggedAgainPost;
  writable := true
|}.

(** The file [---\ntitle: Api Design\n---\nHello\n], and the same file
    as a run with the vocabulary [api-design-] leaves it, read again. *)
Definition apiPost : ParsedFile := {|
  raw := u "---" ++ [LF] ++ u "title: Api Design" ++ [LF] ++ u "---" ++ [LF]
           ++ u "Hello" ++ [LF];
  data := [(u "title", VStr (u "Api Design"))];
  content := u "Hello" ++ [LF]
|}.

Definition apiFile : SourceFile := {|
  filePath := u "src/content/blog/api.md";
  baseName := u "api";
  parsed := Some apiPost;
  writable := true
|}.

Definition apiAgainPost : ParsedFile := {|
  raw := u "---" ++ [LF] ++ u "title: Api Design" ++ [LF]
           ++ u "hashtags:" ++ [LF] ++ u "  - api-design-" ++ [LF]
           ++ u "  - hello" ++ [LF] ++ u "---" ++ [LF]
           ++ u "Hello" ++ [LF; LF];
  data := [(u "title", VStr (u "Api Design"));
           (u "hashtags", VArr [VStr (u "api-design-"); VStr (u "hello")])];
  content := u "Hello" ++ [LF; LF]
|}.

Definition apiAgainFile : SourceFile := {|
  filePath := u "src/content/blog/api.md";
  baseName := u "api";
  parsed := Some apiAgainPost;
  writable := true
|}.

(** The same file with its title in quotes, [title: 'Note'], which parses
    to the same front matter. *)
Definition quotedPost : ParsedFile := {|
  raw := u "---" ++ [LF] ++ u "title: 'Note'" ++ [LF] ++ u "---" ++ [LF]
           ++ [LF] ++ u "Hello" ++ [LF];
  data := [(u "title", VStr (u "Note"))];
  content := [LF] ++ u "Hello" ++ [LF]
|}.

Definition quotedFile : SourceFile := {|
  filePath := u "src/content/blog/note.md";
  baseName := u "note";
  parsed := Some quotedPost;
  writable := true
|}.

(** The file [---\ntitle: Note\nhashtags:\n  - '#Rust'\n  - web\n---\nHello\n]. *)
Definition taggedPost : ParsedFile := {|
  raw := u "---" ++ [LF] ++ u "title: Note" ++ [LF] ++ u "hashtags:" ++ [LF]
           ++ u "  - '#Rust'" ++ [LF] ++ u "  - web" ++ [LF] ++ u "---" ++ [LF]
           ++ u "Hello" ++ [LF];
  data := [(u "title", VStr (u "Note"));
           (u "hashtags", VArr [VStr (u "#Rust"); VStr (u "web")])];
  content := u "Hello" ++ [LF]
|}.

Definition taggedFile : SourceFile := {|
  filePath := u "src/content/blog/tagged.md";
  baseName := u "tagged";
  parsed := Some taggedPost;
  writable := true
|}.

Definition taggedOutcome : Outcome := {|
  changed := true;
  added := [u "note"; u "hello"];
  final := [u "rust"; u "web"; u "note"; u "hello"]
|}.

Definition taggedWritten : jsstring :=
  newRawOf keysOnly taggedPost [u "rust"; u "web"; u "note"; u "hello"].

Definition overshootConfig : jsval :=
  VObj [(u "min", VNum (Finite 2));
        (u "cacheSimilarityThreshold", VNum (Finite (5 # 2)))].

Definition globConfig : jsval :=
  VObj [(u "denylist", VArr [VStr (u "astro-*")]);
        (u "denylistMode", VStr (u "glob"))].



(** A markdown file that cannot be read. *)
Definition lostFile : SourceFile := {|
  filePath := u "src/content/blog/lost.md";
  baseName := u "lost";
  parsed := None;
  writable := true
|}.

(** A run over [noteFile] and [lostFile], with no configuration file and a
    cache file that holds the one label [web-dev]. *)
Definition batchWorld : World := {|
  configAttempt := Threw (Some (u "ENOENT")) (u "no such file or directory");
  cacheAttempt :=
    Returned (VObj [(u "version", VNum (Finite 1));
                    (u "hashtags", VArr [VStr (u "web-dev")])]);
  cacheCanBeWritten := true;
  files := [noteFile; lostFile];
  scanned := [noteFile; lostFile];
  clock := u "2026-01-01T00:00:00.000Z"
|}.


(** ** The command line *)

(** How [parseArgs] ends: with a configuration, with [process.exit(0)]
    after printing the help, or with one of its two errors. *)
Inductive ArgsOutcome :=
| Parsed (cfg : CliConfig)
| HelpExit
| MissingValue (opt : jsstring)      (* Missing value for <opt> *)
| UnknownOption (opt : jsstring).    (* Unknown option: <opt> *)

(** [a.startsWith('--')] *)
Definition isOption (a : jsstring) : bool :=
  match stripPrefix (u "--") a with
  | Some _ => true
  | None => false
  end.

(** [getValue(i)], given what follows [argv[i]]: the next argument, unless
    it is missing, empty or an option. *)
Definition getValue (rest : list jsstring) : option jsstring :=
  match rest with
  | v :: _ =>
      match v with
      | [] => None
      | _ :: _ => if isOption v then None else Some v
      end
  | [] => None
  end.

Definition withConfigFile (cfg : CliConfig) (v : jsstring) : CliConfig :=
  {| configFile := v; singleFile := singleFile cfg; dryRun := dryRun cfg;
     write := write cfg; verbose := verbose cfg;
     cacheRebuild := cacheRebuild cfg |}.

Definition withSingleFile (cfg : CliConfig) (v : jsstring) : CliConfig :=
  {| configFile := configFile cfg; singleFile := Some v; dryRun := dryRun cfg;
     write := write cfg; verbose := verbose cfg;
     cacheRebuild := cacheRebuild cfg |}.

Definition withDryRun (cfg : CliConfig) : CliConfig :=
  {| configFile := configFile cfg; singleFile := singleFile cfg; dryRun := true;
     write := write cfg; verbose := verbose cfg;
     cacheRebuild := cacheRebuild cfg |}.

Definition withWrite (cfg : CliConfig) : CliConfig :=
  {| configFile := configFile cfg; singleFile := singleFile cfg; dryRun := false;
     write := true; verbose := verbose cfg;
     cacheRebuild := cacheRebuild cfg |}.

Definition withCacheRebuild (cfg : CliConfig) : CliConfig :=
  {| configFile := configFile cfg; singleFile := singleFile cfg;
     dryRun := dryRun cfg; write := write cfg; verbose := verbose cfg;
     cacheRebuild := true |}.

Definition withVerbose (cfg : CliConfig) : CliConfig :=
  {| configFile := configFile cfg; singleFile := singleFile cfg;
     dryRun := dryRun cfg; write := write cfg; verbose := true;
     cacheRebuild := cacheRebuild cfg |}.

(** The [for] loop of [parseArgs] from index [i] on; [argv] is what is left
    from [argv[i]].  The value of [--config] and [--file] is not skipped: it
    is the next [a], and as it is no option it changes nothing. *)
Fixpoint parseLoop (argv : list jsstring) (cfg : CliConfig) : ArgsOutcome :=
  match argv with
  | [] => Parsed cfg
  | a :: rest =>
      if str_eqb a (u "--help") then HelpExit
      else if str_eqb a (u "--config") then
        match getValue rest with
        | Some v => parseLoop rest (withConfigFile cfg v)
        | None => MissingValue a
        end
      else if str_eqb a (u "--file") then
        match getValue rest with
        | Some v => parseLoop rest (withSingleFile cfg v)
        | None => MissingValue a
        end
      else if str_eqb a (u "--dry-run") then parseLoop rest (withDryRun cfg)
      else if str_eqb a (u "--write") then parseLoop rest (withWrite cfg)
      else if str_eqb a (u "--cache-rebuild") then
        parseLoop rest (withCacheRebuild cfg)
      else if str_eqb a (u "--verbose") then parseLoop rest (withVerbose cfg)
      else if isOption a then UnknownOption a
      else parseLoop rest cfg
  end.

Definition initialCli : CliConfig := {|
  configFile := u "src/scripts/tagger/tagger.config.json";
  singleFile := None;
  dryRun := true;
  write := false;
  verbose := false;
  cacheRebuild := false
|}.

Definition parseArgs (argv : list jsstring) : ArgsOutcome :=
  parseLoop argv initialCli.

Definition knownOptions : list jsstring :=
  map u ["--help"; "--config"; "--file"; "--dry-run"; "--write";
         "--cache-rebuild"; "--verbose"]%string.

(** ** The diagnostics of [processFile] *)

(** The local [suggestions]: labels that were generated and are not in the
    final list. *)
Definition suggestionsOf (base : jsstring) (p : ParsedFile)
    (conf : RequiredTaggerConfig) (cacheHashtags : list jsstring) : list jsstring :=
  uniqueStable
    (sliceTo (warningSuggestionLimit conf)
       (filter (fun h => negb (has (combinedOf base p conf cacheHashtags) h))
               (generatedAllOf base p conf))).

(** The condition under which [warnVerbose] is called:
    [combined.length === 1 || combined.length < conf.min]. *)
Definition warnsLowRichness (base : jsstring) (p : ParsedFile)
    (conf : RequiredTaggerConfig) (cacheHashtags : list jsstring) : bool :=
  let n := length (combinedOf base p conf cacheHashtags) in
  (n =? 1)%nat || Qlt_bool (inject_Z (Z.of_nat n)) (min conf).

(** ** Tools for the proofs about the matcher *)

(** The first answer a list of attempts gives. *)
Fixpoint firstSome {A B : Type} (f : A -> option B) (l : list A) : option B :=
  match l with
  | [] => None
  | x :: r =>
      match f x with
      | Some b => Some b
      | None => firstSome f r
      end
  end.

(** [x] and [y] are the same up to the case of ASCII letters. *)
Definition sameFolded (x y : jsstring) : Prop :=
  map canonicalize x = map canonicalize y.

(** How often [w] occurs in [ws]: the count [topKeywords] keeps. *)
Definition occurrences (ws : list jsstring) (w : jsstring) : nat :=
  count_occ (list_eq_dec N.eq_dec) ws w.

(** The map holds, for the words met, how often each was met. *)
Definition countsOf (seen : list jsstring) (m : list (jsstring * nat)) : Prop :=
  NoDup (map fst m)
  /\ forall k n, In (k, n) m <-> n = occurrences seen k /\ (0 < n)%nat.

(** The last unit of a non-empty string. *)
Definition lastUnit (s : jsstring) : N := last s 0.

(** The properties of the parsed configuration file that [loadConfig]
    reads. *)
Definition configKeys : list jsstring :=
  map u ["contentDir"; "contentGlob"; "denylist"; "denylistMode"; "min";
         "max"; "cacheFile"; "cacheSimilarityThreshold"; "verboseRemapLimit";
         "warningSuggestionLimit"; "candidateLimit"; "keywordLimit";
         "extraWordScanLimit"]%string.


(** * Properties *)

(** ** Strings *)

Lemma str_eqb_eq (a b : jsstring) : str_eqb a b = true <-> a = b.
Proof.
  unfold str_eqb. destruct (list_eq_dec N.eq_dec a b); split; congruence.
Qed.

Lemma str_eqb_refl (a : jsstring) : str_eqb a a = true.
Proof. now apply str_eqb_eq. Qed.

Lemma str_eqb_neq (a b : jsstring) : str_eqb a b = false <-> a <> b.
Proof.
  unfold str_eqb. destruct (list_eq_dec N.eq_dec a b); split; congruence.
Qed.

Lemma has_In (s : list jsstring) (x : jsstring) : has s x = true <-> In x s.
Proof.
  unfold has. rewrite existsb_exists. split.
  - intros [y [Hy E]]. apply str_eqb_eq in E. now subst.
  - intros H. exists x. split; [assumption | apply str_eqb_refl].
Qed.

Lemma has_not_In (s : list jsstring) (x : jsstring) : has s x = false <-> ~ In x s.
Proof.
  rewrite <- has_In. destruct (has s x); split; congruence.
Qed.

Ltac bool_to_prop :=
  repeat (rewrite ?Bool.orb_true_iff, ?Bool.andb_true_iff, ?Bool.orb_false_iff,
            ?Bool.andb_false_iff, ?Bool.negb_true_iff, ?Bool.negb_false_iff,
            ?N.leb_le, ?N.leb_gt, ?N.eqb_eq, ?N.eqb_neq in *).

(** Facts about one code unit, by unfolding the classes to comparisons. *)
Ltac char_facts :=
  unfold isSlugOrSpace, isSlugChar, isWhiteSpace, isLineTerminator, isQuote,
    isChar, HASH, HYPHEN, SPACE, LF, BACKTICK in *;
  bool_to_prop; lia.

Lemma slug_not_space (c : N) : isSlugChar c = true -> isWhiteSpace c = false.
Proof. intros H. char_facts. Qed.

Lemma slug_not_quote (c : N) : isSlugChar c = true -> isQuote c = false.
Proof. intros H. char_facts. Qed.

Lemma slug_not_amp (c : N) : isSlugChar c = true -> isChar 38 c = false.
Proof. intros H. char_facts. Qed.

Lemma slug_not_hash (c : N) : isSlugChar c = true -> isChar HASH c = false.
Proof. intros H. char_facts. Qed.

Lemma slug_is_slugOrSpace (c : N) :
  isSlugChar c = true -> negb (isSlugOrSpace c) = false.
Proof. intros H. unfold isSlugOrSpace. now rewrite H. Qed.

Lemma slug_lower (c : N) : isSlugChar c = true -> lowerUnit c = [c].
Proof.
  intros H. unfold lowerUnit.
  assert (E1 : (65 <=? c) && (c <=? 90) = false) by char_facts.
  assert (E2 : (c =? 0x130) = false) by char_facts.
  assert (E3 : (c =? 0x212A) = false) by char_facts.
  now rewrite E1, E2, E3.
Qed.

Lemma space_is_space : isWhiteSpace SPACE = true.
Proof. reflexivity. Qed.

Lemma hyphen_is_slug : isSlugChar HYPHEN = true.
Proof. reflexivity. Qed.

(** ** The passes of the normaliser *)

Section Passes.

Variables p q : N -> bool.

Lemma dropWhile_forallb (s : jsstring) :
  forallb q s = true -> forallb q (dropWhile p s) = true.
Proof.
  induction s as [|c t IH]; simpl; [easy|].
  intros H. apply andb_true_iff in H as [Hc Ht].
  destruct (p c); [now apply IH | simpl; now rewrite Hc, Ht].
Qed.

Lemma dropWhileEnd_cons (c : N) (s : jsstring) :
  dropWhileEnd p (c :: s) =
  match dropWhileEnd p s with
  | [] => if p c then [] else [c]
  | _ :: _ => c :: dropWhileEnd p s
  end.
Proof. reflexivity. Qed.

Lemma dropWhileEnd_forallb (s : jsstring) :
  forallb q s = true -> forallb q (dropWhileEnd p s) = true.
Proof.
  induction s as [|c t IH]; [easy|].
  intros H. simpl in H. apply andb_true_iff in H as [Hc Ht].
  rewrite dropWhileEnd_cons. specialize (IH Ht).
  destruct (dropWhileEnd p t) as [|d r].
  - destruct (p c); simpl; [reflexivity | now rewrite Hc].
  - change (forallb q (c :: d :: r)) with (q c && forallb q (d :: r)).
    now rewrite Hc, IH.
Qed.

Lemma replaceEach_forallb (r s : jsstring) :
  forallb q r = true ->
  (forall c, In c s -> p c = false -> q c = true) ->
  forallb q (replaceEach p r s) = true.
Proof.
  intros Hr. induction s as [|c t IH]; intros H; simpl; [reflexivity|].
  rewrite forallb_app. rewrite IH by (intros; apply H; simpl; auto).
  destruct (p c) eqn:E; [now rewrite Hr|].
  simpl. rewrite (H c); simpl; auto.
Qed.

Lemma replaceRuns_forallb (r s : jsstring) :
  forallb q r = true ->
  (forall c, In c s -> p c = false -> q c = true) ->
  forallb q (replaceRuns p r s) = true.
Proof.
  intros Hr. induction s as [|c t IH]; intros H; [reflexivity|].
  assert (IH' : forallb q (replaceRuns p r t) = true)
    by (apply IH; intros; apply H; simpl; auto).
  simpl. destruct (p c) eqn:E.
  - destruct t as [|c' t']; [assumption|].
    destruct (p c'); [assumption|].
    rewrite forallb_app. now rewrite Hr, IH'.
  - change (q c && forallb q (replaceRuns p r t) = true).
    rewrite IH', (H c); simpl; auto.
Qed.

Lemma dropWhile_id (s : jsstring) :
  (forall c, In c s -> p c = false) -> dropWhile p s = s.
Proof.
  destruct s as [|c t]; [reflexivity|].
  intros H. simpl. now rewrite (H c) by (simpl; auto).
Qed.

Lemma dropWhileEnd_id (s : jsstring) :
  (forall c, In c s -> p c = false) -> dropWhileEnd p s = s.
Proof.
  induction s as [|c t IH]; [reflexivity|].
  intros H. rewrite dropWhileEnd_cons.
  rewrite IH by (intros; apply H; simpl; auto).
  destruct t; [|reflexivity].
  now rewrite (H c) by (simpl; auto).
Qed.

Lemma replaceEach_id (r s : jsstring) :
  (forall c, In c s -> p c = false) -> replaceEach p r s = s.
Proof.
  induction s as [|c t IH]; [reflexivity|].
  intros H. simpl. rewrite (H c) by (simpl; auto).
  simpl. f_equal. apply IH. intros; apply H; simpl; auto.
Qed.

Lemma replaceRuns_id (r s : jsstring) :
  (forall c, In c s -> p c = false) -> replaceRuns p r s = s.
Proof.
  induction s as [|c t IH]; [reflexivity|].
  intros H. simpl. rewrite (H c) by (simpl; auto).
  f_equal. apply IH. intros; apply H; simpl; auto.
Qed.

End Passes.

Lemma trim_forallb (q : N -> bool) (s : jsstring) :
  forallb q s = true -> forallb q (trim s) = true.
Proof.
  intros H. unfold trim. now apply dropWhileEnd_forallb, dropWhile_forallb.
Qed.

Lemma trim_id (s : jsstring) :
  (forall c, In c s -> isWhiteSpace c = false) -> trim s = s.
Proof.
  intros H. unfold trim. rewrite dropWhile_id by assumption.
  now apply dropWhileEnd_id.
Qed.

(** Collapsing runs of hyphens leaves no two hyphens in a row. *)
Lemma collapse_noDoubleHyphen (s : jsstring) :
  noDoubleHyphen (replaceRuns (isChar HYPHEN) [HYPHEN] s) = true.
Proof.
  induction s as [|c t IH]; [reflexivity|].
  simpl replaceRuns. destruct (isChar HYPHEN c) eqn:E.
  - destruct t as [|c' t']; [reflexivity|].
    destruct (isChar HYPHEN c') eqn:E'; [assumption|].
    simpl replaceRuns in *. rewrite E' in *.
    change (negb ((HYPHEN =? HYPHEN) && (c' =? HYPHEN))
            && noDoubleHyphen (c' :: replaceRuns (isChar HYPHEN) [HYPHEN] t') = true).
    unfold isChar in E'. rewrite E', andb_false_r. simpl negb. now rewrite IH.
  - unfold isChar in E.
    destruct (replaceRuns (isChar HYPHEN) [HYPHEN] t) as [|d r] eqn:R;
      [reflexivity|].
    change (negb ((c =? HYPHEN) && (d =? HYPHEN)) && noDoubleHyphen (d :: r) = true).
    now rewrite E, IH.
Qed.

Lemma collapse_hyphens_id (s : jsstring) :
  noDoubleHyphen s = true -> replaceRuns (isChar HYPHEN) [HYPHEN] s = s.
Proof.
  induction s as [|c t IH]; [reflexivity|].
  intros H. simpl replaceRuns. destruct t as [|c' t'].
  - destruct (isChar HYPHEN c) eqn:E; [|reflexivity].
    unfold isChar in E. apply N.eqb_eq in E. now subst.
  - change (negb ((c =? HYPHEN) && (c' =? HYPHEN)) && noDoubleHyphen (c' :: t') = true)
      in H.
    apply andb_true_iff in H as [H1 H2]. specialize (IH H2).
    unfold isChar in *. destruct (c =? HYPHEN) eqn:E.
    + apply N.eqb_eq in E. subst c. simpl in H1.
      apply negb_true_iff in H1. rewrite H1. rewrite IH. reflexivity.
    + now rewrite IH.
Qed.

Lemma dropFirstHyphen_forallb (q : N -> bool) (s : jsstring) :
  forallb q s = true -> forallb q (dropFirstHyphen s) = true.
Proof.
  destruct s as [|c t]; [easy|]. simpl. intros H.
  apply andb_true_iff in H as [Hc Ht].
  destruct (c =? HYPHEN); [assumption | simpl; now rewrite Hc, Ht].
Qed.

Lemma dropLastHyphen_forallb (q : N -> bool) (s : jsstring) :
  forallb q s = true -> forallb q (dropLastHyphen s) = true.
Proof.
  induction s as [|c t IH]; [easy|]. intros H.
  simpl in H. apply andb_true_iff in H as [Hc Ht].
  simpl. destruct t as [|c' t'].
  - destruct (c =? HYPHEN); simpl; [reflexivity | now rewrite Hc].
  - change (q c && forallb q (dropLastHyphen (c' :: t')) = true).
    now rewrite Hc, IH.
Qed.

Lemma dropFirstHyphen_noDouble (s : jsstring) :
  noDoubleHyphen s = true ->
  noDoubleHyphen (dropFirstHyphen s) = true
  /\ startsWithHyphen (dropFirstHyphen s) = false.
Proof.
  destruct s as [|c t]; [easy|]. intros H. simpl dropFirstHyphen.
  destruct (c =? HYPHEN) eqn:E.
  - destruct t as [|c' t']; [easy|].
    change (negb ((c =? HYPHEN) && (c' =? HYPHEN)) && noDoubleHyphen (c' :: t') = true)
      in H.
    apply andb_true_iff in H as [H1 H2]. split; [assumption|].
    rewrite E in H1. simpl in *. now apply negb_true_iff in H1.
  - split; [assumption | exact E].
Qed.

Lemma dropLastHyphen_head (c : N) (t : jsstring) :
  (dropLastHyphen (c :: t) = [] /\ t = [] /\ c = HYPHEN)
  \/ exists r, dropLastHyphen (c :: t) = c :: r.
Proof.
  destruct t as [|c' t'].
  - simpl. destruct (c =? HYPHEN) eqn:E.
    + left. apply N.eqb_eq in E. auto.
    + right. now exists [].
  - right. now exists (dropLastHyphen (c' :: t')).
Qed.

Lemma noDoubleHyphen_cons (c c' : N) (t : jsstring) :
  noDoubleHyphen (c :: c' :: t) =
  negb ((c =? HYPHEN) && (c' =? HYPHEN)) && noDoubleHyphen (c' :: t).
Proof. reflexivity. Qed.

Lemma dropLastHyphen_noDouble (s : jsstring) :
  noDoubleHyphen s = true -> noDoubleHyphen (dropLastHyphen s) = true.
Proof.
  induction s as [|c t IH]; [easy|]. intros H.
  destruct t as [|c' t'].
  - simpl. now destruct (c =? HYPHEN).
  - rewrite noDoubleHyphen_cons in H. apply andb_true_iff in H as [H1 H2].
    specialize (IH H2).
    change (dropLastHyphen (c :: c' :: t')) with (c :: dropLastHyphen (c' :: t')).
    destruct (dropLastHyphen_head c' t') as [[E _]|[r E]]; rewrite E in *.
    + reflexivity.
    + rewrite noDoubleHyphen_cons. now rewrite H1, IH.
Qed.

Lemma dropLastHyphen_end (s : jsstring) :
  noDoubleHyphen s = true -> endsWithHyphen (dropLastHyphen s) = false.
Proof.
  induction s as [|c t IH]; [easy|]. intros H.
  destruct t as [|c' t'].
  - simpl. destruct (c =? HYPHEN) eqn:E; [reflexivity | simpl; exact E].
  - rewrite noDoubleHyphen_cons in H. apply andb_true_iff in H as [H1 H2].
    specialize (IH H2).
    change (dropLastHyphen (c :: c' :: t')) with (c :: dropLastHyphen (c' :: t')).
    destruct (dropLastHyphen_head c' t') as [[E [_ E']]|[r E]]; rewrite E in *.
    + subst c'. rewrite N.eqb_refl, andb_true_r in H1.
      apply negb_true_iff in H1. simpl. exact H1.
    + exact IH.
Qed.

Lemma dropLastHyphen_start (s : jsstring) :
  startsWithHyphen s = false -> startsWithHyphen (dropLastHyphen s) = false.
Proof.
  destruct s as [|c t]; [easy|]. intros H.
  destruct (dropLastHyphen_head c t) as [[E _]|[r E]]; rewrite E;
    [reflexivity | exact H].
Qed.

Lemma dropLastHyphen_id (s : jsstring) :
  endsWithHyphen s = false -> dropLastHyphen s = s.
Proof.
  induction s as [|c t IH]; [reflexivity|]. intros H.
  simpl in *. destruct t as [|c' t'].
  - now rewrite H.
  - now rewrite IH.
Qed.

(** ** The normaliser *)

Lemma forallb_In (q : N -> bool) (s : jsstring) (c : N) :
  forallb q s = true -> In c s -> q c = true.
Proof. intros H. now apply forallb_forall. Qed.

Lemma cleanedOf_shape (raw : jsstring) :
  forallb isSlugChar (cleanedOf raw) = true
  /\ startsWithHyphen (cleanedOf raw) = false
  /\ endsWithHyphen (cleanedOf raw) = false
  /\ noDoubleHyphen (cleanedOf raw) = true.
Proof.
  unfold cleanedOf, stripEdgeHyphens.
  set (s5 := replaceEach (isChar 38) _ _).
  set (s6 := replaceEach (fun c => negb (isSlugOrSpace c)) [SPACE] s5).
  set (s8 := trim (replaceRuns isWhiteSpace [SPACE] s6)).
  set (s9 := replaceEach isWhiteSpace [HYPHEN] s8).
  set (s10 := replaceRuns (isChar HYPHEN) [HYPHEN] s9).
  assert (H6 : forallb isSlugOrSpace s6 = true).
  { apply replaceEach_forallb; [reflexivity|].
    intros c _ E. now apply negb_false_iff in E. }
  assert (H8 : forallb isSlugOrSpace s8 = true).
  { apply trim_forallb, replaceRuns_forallb; [reflexivity|].
    intros c Hc _. exact (forallb_In _ _ _ H6 Hc). }
  assert (H9 : forallb isSlugChar s9 = true).
  { apply replaceEach_forallb; [reflexivity|].
    intros c Hc E. pose proof (forallb_In _ _ _ H8 Hc) as S.
    unfold isSlugOrSpace in S. rewrite E, orb_false_r in S. exact S. }
  assert (H10 : forallb isSlugChar s10 = true).
  { apply replaceRuns_forallb; [reflexivity|].
    intros c Hc _. exact (forallb_In _ _ _ H9 Hc). }
  pose proof (collapse_noDoubleHyphen s9) as N10. fold s10 in N10.
  destruct (dropFirstHyphen_noDouble s10 N10) as [N11 S11].
  repeat split.
  - now apply dropLastHyphen_forallb, dropFirstHyphen_forallb.
  - now apply dropLastHyphen_start.
  - now apply dropLastHyphen_end.
  - now apply dropLastHyphen_noDouble.
Qed.

Lemma slugify_Some (raw s : jsstring) :
  slugifyHashtag raw = Some s ->
  s = cleanedOf raw /\ (2 <= length s)%nat /\ has STOPWORDS s = false.
Proof.
  unfold slugifyHashtag. destruct (cleanedOf raw) as [|c t] eqn:E; [discriminate|].
  destruct (length (c :: t) <? 2)%nat eqn:L; [discriminate|].
  destruct (has STOPWORDS (c :: t)) eqn:S; [discriminate|].
  intros H. injection H as <-. apply Nat.ltb_ge in L. auto.
Qed.

Lemma toLowerCase_slug (s : jsstring) :
  forallb isSlugChar s = true -> toLowerCase s = s.
Proof.
  induction s as [|c t IH]; [reflexivity|]. simpl. intros H.
  apply andb_true_iff in H as [Hc Ht]. unfold toLowerCase in *. simpl.
  rewrite (slug_lower c Hc), IH by assumption. reflexivity.
Qed.

(** On a string of the grammar every pass of the chain is the identity. *)
Lemma cleanedOf_slug (s : jsstring) :
  forallb isSlugChar s = true ->
  startsWithHyphen s = false ->
  endsWithHyphen s = false ->
  noDoubleHyphen s = true ->
  cleanedOf s = s.
Proof.
  intros Hs Hstart Hend Hdbl.
  assert (A : forall c, In c s -> isSlugChar c = true)
    by (intros c; apply forallb_In; assumption).
  unfold cleanedOf, stripEdgeHyphens.
  rewrite toLowerCase_slug by assumption.
  rewrite (trim_id s) by (intros; apply slug_not_space; auto).
  rewrite (dropWhile_id _ s) by (intros; apply slug_not_hash; auto).
  rewrite (replaceEach_id _ _ s) by (intros; apply slug_not_quote; auto).
  rewrite (replaceEach_id _ _ s) by (intros; apply slug_not_amp; auto).
  rewrite (replaceEach_id _ _ s) by (intros; apply slug_is_slugOrSpace; auto).
  rewrite (replaceRuns_id _ _ s) by (intros; apply slug_not_space; auto).
  rewrite (trim_id s) by (intros; apply slug_not_space; auto).
  rewrite (replaceEach_id _ _ s) by (intros; apply slug_not_space; auto).
  rewrite collapse_hyphens_id by assumption.
  assert (F : dropFirstHyphen s = s).
  { destruct s as [|c t]; [reflexivity|]. simpl in *. now rewrite Hstart. }
  rewrite F. now apply dropLastHyphen_id.
Qed.

Lemma slugGrammar_isLabel (s : jsstring) : slugGrammar s -> isLabel s.
Proof.
  intros (Hs & Hstart & Hend & Hdbl & Hlen & Hstop).
  unfold isLabel, slugifyHashtag.
  rewrite cleanedOf_slug by assumption.
  destruct s as [|c t]; [simpl in Hlen; lia|].
  apply Nat.ltb_ge in Hlen. rewrite Hlen.
  apply has_not_In in Hstop. now rewrite Hstop.
Qed.

Lemma slugify_grammar (raw s : jsstring) :
  slugifyHashtag raw = Some s -> slugGrammar s.
Proof.
  intros H. apply slugify_Some in H as (-> & Hlen & Hstop).
  destruct (cleanedOf_shape raw) as (A & B & C & D).
  repeat split; try assumption. now apply has_not_In.
Qed.

Lemma slugify_isLabel (raw s : jsstring) :
  slugifyHashtag raw = Some s -> isLabel s.
Proof. intros H. eapply slugGrammar_isLabel, slugify_grammar, H. Qed.

(** C6. Slug normalisation is a total function (every input is either
    rejected, [None], or accepted), whatever it accepts satisfies the slug
    grammar, and normalising an accepted output again returns it
    unchanged. *)
Theorem slugify_total_grammar_idempotent (raw : jsstring) :
  match slugifyHashtag raw with
  | None => True
  | Some s => slugGrammar s /\ slugifyHashtag s = Some s
  end.
Proof.
  destruct (slugifyHashtag raw) as [s|] eqn:E; [|exact I].
  split; [eapply slugify_grammar | eapply slugify_isLabel]; exact E.
Qed.

(** ** [uniqueStable] *)

Lemma has_cons (x y : jsstring) (s : list jsstring) :
  has (y :: s) x = str_eqb x y || has s x.
Proof. reflexivity. Qed.

Lemma has_app (x : jsstring) (a b : list jsstring) :
  has (a ++ b) x = has a x || has b x.
Proof. unfold has. apply existsb_app. Qed.

Lemma uniqueStableFrom_ext (seen seen' items : list jsstring) :
  (forall x, has seen x = has seen' x) ->
  uniqueStableFrom seen items = uniqueStableFrom seen' items.
Proof.
  revert seen seen'. induction items as [|it rest IH]; intros seen seen' E;
    [reflexivity|].
  simpl. rewrite <- E. destruct (has seen it); [now apply IH|].
  f_equal. apply IH. intros x. rewrite !has_cons. now rewrite E.
Qed.

Lemma uniqueStableFrom_In (seen items : list jsstring) (x : jsstring) :
  In x (uniqueStableFrom seen items) <-> In x items /\ ~ In x seen.
Proof.
  revert seen. induction items as [|it rest IH]; intros seen; simpl; [tauto|].
  destruct (has seen it) eqn:E.
  - apply has_In in E. rewrite IH. split.
    + tauto.
    + intros [[->|H] N]; [contradiction | tauto].
  - apply has_not_In in E. simpl. rewrite IH. simpl. split.
    + intros [->|[H N]]; [tauto|]. split; [tauto|]. intros F. apply N. now right.
    + intros [[->|H] N]; [tauto|].
      destruct (list_eq_dec N.eq_dec it x) as [->|D]; [tauto|]. right.
      split; [assumption|]. intros [F|F]; [contradiction | contradiction].
Qed.

Lemma uniqueStableFrom_NoDup (seen items : list jsstring) :
  NoDup (uniqueStableFrom seen items).
Proof.
  revert seen. induction items as [|it rest IH]; intros seen; simpl;
    [constructor|].
  destruct (has seen it); [apply IH|].
  constructor; [|apply IH].
  rewrite uniqueStableFrom_In. simpl. tauto.
Qed.

Lemma uniqueStableFrom_id (seen items : list jsstring) :
  NoDup items -> (forall x, In x items -> ~ In x seen) ->
  uniqueStableFrom seen items = items.
Proof.
  revert seen. induction items as [|it rest IH]; intros seen D H; [reflexivity|].
  inversion D as [|? ? Hn D']; subst. simpl.
  assert (E : has seen it = false) by (apply has_not_In, H; simpl; auto).
  rewrite E. f_equal. apply IH; [assumption|].
  intros x Hx [F|F]; [now subst | exact (H x (or_intror Hx) F)].
Qed.

Lemma uniqueStableFrom_app (seen a b : list jsstring) :
  uniqueStableFrom seen (a ++ b) =
  uniqueStableFrom seen a ++ uniqueStableFrom (a ++ seen) b.
Proof.
  revert seen. induction a as [|it rest IH]; intros seen; [reflexivity|].
  simpl. destruct (has seen it) eqn:E.
  - rewrite IH. f_equal. apply uniqueStableFrom_ext. intros x.
    rewrite has_cons, !has_app.
    destruct (str_eqb x it) eqn:X; [|reflexivity].
    apply str_eqb_eq in X. subst. rewrite E. now rewrite orb_true_r.
  - rewrite IH. simpl. f_equal. f_equal. apply uniqueStableFrom_ext. intros x.
    rewrite has_cons, !has_app, has_cons.
    now destruct (str_eqb x it), (has rest x).
Qed.

Lemma uniqueStable_NoDup (items : list jsstring) : NoDup (uniqueStable items).
Proof. apply uniqueStableFrom_NoDup. Qed.

Lemma uniqueStable_In (items : list jsstring) (x : jsstring) :
  In x (uniqueStable items) <-> In x items.
Proof. unfold uniqueStable. rewrite uniqueStableFrom_In. simpl. tauto. Qed.

Lemma uniqueStable_id (items : list jsstring) :
  NoDup items -> uniqueStable items = items.
Proof. intros D. apply uniqueStableFrom_id; auto. Qed.

(** ** The vocabulary mapper *)

Lemma split_head (sep c : N) (t : jsstring) :
  (c =? sep) = false -> exists w ws, split sep (c :: t) = (c :: w) :: ws.
Proof.
  intros E. simpl. rewrite E. destruct (split sep t) as [|w ws]; eauto.
Qed.

Lemma label_has_token (s : jsstring) : isLabel s -> tokeniseSlug s <> [].
Proof.
  intros L. destruct (slugify_grammar s s L) as (_ & Hstart & _ & _ & Hlen & _).
  destruct s as [|c t]; [simpl in Hlen; lia|].
  destruct (split_head HYPHEN c t Hstart) as (w & ws & E).
  unfold tokeniseSlug, uniqueStable. rewrite E. simpl. discriminate.
Qed.

Lemma mapLoop_exact (candidate : jsstring) (candTokens : list jsstring)
    (threshold : Q) (cache : list jsstring) :
  In candidate cache ->
  forall best bestScore,
    mapLoop candidate candTokens threshold cache best bestScore =
    {| mapped := candidate; score := 1; from := Some candidate |}.
Proof.
  induction cache as [|existing rest IH]; intros H best bestScore; [easy|].
  simpl. destruct (str_eqb existing candidate) eqn:E.
  - apply str_eqb_eq in E. now subst.
  - apply str_eqb_neq in E. destruct H as [H|H]; [contradiction|].
    destruct (length (tokeniseSlug existing) =? 0)%nat; [now apply IH|].
    match goal with |- (if ?b then _ else _) = _ => destruct b end;
      now apply IH.
Qed.

Lemma mapToCache_exact (candidate : jsstring) (cache : list jsstring)
    (threshold : Q) :
  tokeniseSlug candidate <> [] -> In candidate cache ->
  mapToCache candidate cache threshold =
  {| mapped := candidate; score := 1; from := Some candidate |}.
Proof.
  intros T H. unfold mapToCache.
  destruct (tokeniseSlug candidate) as [|t ts] eqn:E; [contradiction|].
  simpl length. simpl Nat.eqb. cbv iota. now apply mapLoop_exact.
Qed.

(** C9. A candidate label that is, as a string, one of the vocabulary
    entries is mapped to that entry with score exactly 1, whatever the
    threshold. *)
Theorem mapToCache_exact_match (candidate : jsstring) (cache : list jsstring)
    (threshold : Q) :
  isLabel candidate -> In candidate cache ->
  mapToCache candidate cache threshold =
  {| mapped := candidate; score := 1; from := Some candidate |}.
Proof.
  intros L H. apply mapToCache_exact; [now apply label_has_token | assumption].
Qed.

Lemma mapToCache_exact_match_witness :
  isLabel (u "api-design")
  /\ In (u "api-design") [u "zebra"; u "api-design"; u "api"]
  /\ mapToCache (u "api-design") [u "zebra"; u "api-design"; u "api"] 5 =
     {| mapped := u "api-design"; score := 1; from := Some (u "api-design") |}.
Proof.
  assert (L : isLabel (u "api-design")) by (vm_compute; reflexivity).
  assert (H : In (u "api-design") [u "zebra"; u "api-design"; u "api"])
    by (simpl; auto).
  split; [exact L|]. split; [exact H|].
  exact (mapToCache_exact_match (u "api-design")
           [u "zebra"; u "api-design"; u "api"] 5 L H).
Defined.

(** ** Loading the configuration *)

Lemma Qlt_bool_false (a b : Q) : Qlt_bool a b = false <-> (b <= a)%Q.
Proof.
  unfold Qlt_bool. rewrite negb_false_iff. apply Qle_bool_iff.
Qed.

Lemma Qlt_bool_true (a b : Q) : Qlt_bool a b = true <-> (a < b)%Q.
Proof.
  unfold Qlt_bool. rewrite negb_true_iff. split.
  - intros H. apply Qnot_le_lt. intros F. apply Qle_bool_iff in F. congruence.
  - intros H. destruct (Qle_bool b a) eqn:E; [|reflexivity].
    apply Qle_bool_iff in E. apply Qle_not_lt in E. contradiction.
Qed.

Lemma clampNumber_range (v : Q) :
  (0 <= clampNumber v 0 1 <= 1)%Q
  /\ (v < 0 -> clampNumber v 0 1 == 0)%Q
  /\ (1 < v -> clampNumber v 0 1 == 1)%Q
  /\ (0 <= v <= 1 -> clampNumber v 0 1 == v)%Q.
Proof.
  unfold clampNumber.
  destruct (Q.min_spec 1 v) as [[A B]|[A B]];
  destruct (Q.max_spec 0 (Qmin 1 v)) as [[C D]|[C D]];
  repeat split; intros; lra.
Qed.

Lemma getProp_truthy (raw : jsval) (k : jsstring) (x : jsval) :
  getProp raw k = Some x -> truthy raw = true.
Proof. destruct raw; simpl; try discriminate. reflexivity. Qed.

(** What [loadConfig] returns for a parsed file that is truthy: the two
    range checks decide, and nothing else can fail. *)
Lemma loadConfig_returned (cfgPath : jsstring) (raw : jsval) :
  truthy raw = true ->
  let min' := finiteOr (getProp raw (u "min")) (min defaults) in
  let max' := finiteOr (getProp raw (u "max")) (max defaults) in
  (Qlt_bool min' 1 = true
   /\ loadConfig cfgPath (Returned raw) = Throw (ConfigMinError min'))
  \/ (Qlt_bool min' 1 = false /\ Qlt_bool max' min' = true
      /\ loadConfig cfgPath (Returned raw) = Throw (ConfigMaxError max'))
  \/ (Qlt_bool min' 1 = false /\ Qlt_bool max' min' = false
      /\ exists conf, loadConfig cfgPath (Returned raw) = Ok conf
         /\ min conf = min' /\ max conf = max'
         /\ cacheSimilarityThreshold conf =
            match getProp raw (u "cacheSimilarityThreshold") with
            | Some (VNum (Finite q)) => clampNumber q 0 1
            | _ => cacheSimilarityThreshold defaults
            end).
Proof.
  intros T min' max'. unfold loadConfig. simpl readJsonFile. cbv beta iota delta [bind].
  rewrite T. simpl negb. cbv iota. fold min' max'.
  destruct (Qlt_bool min' 1) eqn:A; [left; auto|].
  destruct (Qlt_bool max' min') eqn:B; [right; left; auto|].
  right; right. repeat split. eexists. split; [reflexivity|]. simpl. auto.
Qed.

(** C10. A finite [cacheSimilarityThreshold] is never a configuration
    error: loading such a file can only fail on [min] or [max], it succeeds
    whenever those two are in order, and the threshold it returns is the
    configured one clamped into [0, 1]. *)
Theorem threshold_clamped_not_rejected (cfgPath : jsstring) (raw : jsval) (v : Q) :
  getProp raw (u "cacheSimilarityThreshold") = Some (VNum (Finite v)) ->
  let min' := finiteOr (getProp raw (u "min")) 3 in
  let max' := finiteOr (getProp raw (u "max")) 12 in
  ((1 <= min')%Q -> (min' <= max')%Q ->
     exists conf, loadConfig cfgPath (Returned raw) = Ok conf)
  /\ match loadConfig cfgPath (Returned raw) with
     | Ok conf =>
         cacheSimilarityThreshold conf = clampNumber v 0 1
         /\ (0 <= cacheSimilarityThreshold conf <= 1)%Q
         /\ (v < 0 -> cacheSimilarityThreshold conf == 0)%Q
         /\ (1 < v -> cacheSimilarityThreshold conf == 1)%Q
         /\ (0 <= v <= 1 -> cacheSimilarityThreshold conf == v)%Q
     | Throw e =>
         (e = ConfigMinError min' /\ (min' < 1)%Q)
         \/ (e = ConfigMaxError max' /\ (max' < min')%Q)
     end.
Proof.
  intros H min' max'.
  pose proof (loadConfig_returned cfgPath raw (getProp_truthy raw _ _ H)) as R.
  cbv zeta in R. change (min defaults) with 3%Q in R.
  change (max defaults) with 12%Q in R. fold min' max' in R.
  destruct R as [[A E]|[(A & B & E)|(A & B & conf & E & _ & _ & Ht)]].
  - rewrite E. apply Qlt_bool_true in A. split; [intros; lra | left; auto].
  - rewrite E. apply Qlt_bool_true in B. split; [intros; lra | right; auto].
  - rewrite E. rewrite H in Ht. rewrite Ht. split; [eauto|].
    split; [reflexivity|]. apply clampNumber_range.
Qed.

Lemma threshold_clamped_not_rejected_witness :
  getProp overshootConfig (u "cacheSimilarityThreshold")
    = Some (VNum (Finite (5 # 2)))
  /\ match loadConfig (u "tagger.config.json") (Returned overshootConfig) with
     | Ok conf => cacheSimilarityThreshold conf = 1%Q
     | Throw _ => False
     end.
Proof.
  assert (H : getProp overshootConfig (u "cacheSimilarityThreshold")
              = Some (VNum (Finite (5 # 2)))) by reflexivity.
  split; [exact H|].
  pose proof (threshold_clamped_not_rejected (u "tagger.config.json")
                overshootConfig (5 # 2) H) as [_ T].
  destruct (loadConfig (u "tagger.config.json") (Returned overshootConfig))
    as [conf|e] eqn:E.
  - destruct T as [T _]. rewrite T. reflexivity.
  - vm_compute in E. discriminate.
Defined.

Lemma loadConfig_valid (cfgPath : jsstring) (attempt : TryOutcome jsval)
    (conf : RequiredTaggerConfig) :
  loadConfig cfgPath attempt = Ok conf ->
  (1 <= min conf)%Q /\ (min conf <= max conf)%Q.
Proof.
  assert (D : (1 <= min defaults)%Q /\ (min defaults <= max defaults)%Q)
    by (split; discriminate).
  assert (R : forall raw, loadConfig cfgPath (Returned raw) = Ok conf ->
                (1 <= min conf)%Q /\ (min conf <= max conf)%Q).
  { intros raw H. destruct (truthy raw) eqn:T.
    - destruct (loadConfig_returned cfgPath raw T)
        as [[_ E]|[(_ & _ & E)|(A & B & c & E & Hmin & Hmax & _)]];
        rewrite E in H; try discriminate.
      injection H as <-. rewrite Hmin, Hmax.
      apply Qlt_bool_false in A, B. auto.
    - unfold loadConfig in H. simpl in H. rewrite T in H. simpl in H.
      injection H as <-. exact D. }
  destruct attempt as [raw|code msg]; [apply R|].
  intros H. unfold loadConfig in H. destruct code as [c|]; simpl in H.
  - destruct (str_eqb c (u "ENOENT")); [|discriminate].
    simpl in H. injection H as <-. exact D.
  - discriminate.
Qed.

(** ** Slicing *)

Lemma truncate_nonneg (q : Q) : (0 <= q)%Q -> (0 <= truncate q)%Z.
Proof.
  destruct q as [n d]. unfold Qle, truncate. simpl. intros H.
  apply Z.quot_pos; lia.
Qed.

Lemma truncate_spec (q : Q) :
  (0 <= q)%Q ->
  (inject_Z (truncate q) <= q)%Q /\ (q < inject_Z (truncate q + 1))%Q.
Proof.
  destruct q as [n d]. unfold Qle, Qlt, truncate, inject_Z. simpl. intros H.
  assert (Hn : (0 <= n)%Z) by lia.
  rewrite Z.quot_div_nonneg by lia.
  pose proof (Z.mul_div_le n (Zpos d) ltac:(lia)).
  pose proof (Z.mul_succ_div_gt n (Zpos d) ltac:(lia)).
  split; lia.
Qed.

Lemma sliceTo_nonneg {A : Type} (n : Q) (l : list A) :
  (0 <= n)%Q -> sliceTo n l = firstn (Z.to_nat (truncate n)) l.
Proof.
  intros H. unfold sliceTo. apply truncate_nonneg in H.
  destruct (truncate n <? 0)%Z eqn:E; [|reflexivity].
  apply Z.ltb_lt in E. lia.
Qed.

(** An integer count below [n] fits in the slice; one at or above [n] does
    not exceed it. *)
Lemma count_lt_truncate (k : nat) (n : Q) :
  (0 <= n)%Q -> (inject_Z (Z.of_nat k) < n)%Q -> (k <= Z.to_nat (truncate n))%nat.
Proof.
  intros H0 H. destruct (truncate_spec n H0) as [_ U].
  assert (L : (inject_Z (Z.of_nat k) < inject_Z (truncate n + 1))%Q) by lra.
  rewrite <- Zlt_Qlt in L. pose proof (truncate_nonneg n H0). lia.
Qed.

Lemma count_ge_truncate (k : nat) (n : Q) :
  (0 <= n)%Q -> (n <= inject_Z (Z.of_nat k))%Q -> (Z.to_nat (truncate n) <= k)%nat.
Proof.
  intros H0 H. destruct (truncate_spec n H0) as [L _].
  assert (L' : (inject_Z (truncate n) <= inject_Z (Z.of_nat k))%Q) by lra.
  rewrite <- Zle_Qle in L'. lia.
Qed.

(** ** The merge policy *)

Lemma existingOf_NoDup (fm : UnknownRecord) : NoDup (existingOf fm).
Proof.
  unfold existingOf. destruct (isStringArray _);
    [apply uniqueStable_NoDup | constructor].
Qed.

Lemma merge_shape (existing mappedNew : list jsstring) :
  NoDup existing ->
  uniqueStable (existing ++ mappedNew) =
  existing ++ uniqueStableFrom (existing ++ []) mappedNew.
Proof.
  intros D. unfold uniqueStable. rewrite uniqueStableFrom_app.
  f_equal. now apply uniqueStableFrom_id.
Qed.

Lemma filter_nil_of_incl (existing l : list jsstring) :
  (forall x, In x l -> In x existing) ->
  filter (fun h => negb (has existing h)) l = [].
Proof.
  induction l as [|x r IH]; intros H; [reflexivity|]. simpl.
  assert (E : has existing x = true) by (apply has_In, H; simpl; auto).
  rewrite E. simpl. apply IH. intros y Hy. apply H. now right.
Qed.

Lemma In_firstn {A : Type} (k : nat) (l : list A) (x : A) :
  In x (firstn k l) -> In x l.
Proof.
  revert l. induction k as [|k IH]; intros [|y r]; simpl; try tauto.
  intros [->|H]; auto.
Qed.

Section MergePolicy.

Variables (base : jsstring) (p : ParsedFile) (conf : RequiredTaggerConfig)
          (cacheHashtags : list jsstring).
Hypothesis max_nonneg : (0 <= max conf)%Q.

Let existing := existingOf (data p).

Lemma combined_below_cap :
  (inject_Z (Z.of_nat (length existing)) < max conf)%Q ->
  exists rest, combinedOf base p conf cacheHashtags = existing ++ rest.
Proof.
  intros H. unfold combinedOf. fold existing.
  rewrite sliceTo_nonneg by assumption.
  rewrite merge_shape by apply existingOf_NoDup.
  rewrite firstn_app.
  rewrite firstn_all2 by (now apply count_lt_truncate).
  eauto.
Qed.

Lemma combined_at_cap :
  (max conf <= inject_Z (Z.of_nat (length existing)))%Q ->
  combinedOf base p conf cacheHashtags = sliceTo (max conf) existing
  /\ addedOf base p conf cacheHashtags = [].
Proof.
  intros H.
  assert (C : combinedOf base p conf cacheHashtags = sliceTo (max conf) existing).
  { unfold combinedOf. fold existing.
    rewrite !sliceTo_nonneg by assumption.
    rewrite merge_shape by apply existingOf_NoDup.
    rewrite firstn_app.
    pose proof (count_ge_truncate _ _ max_nonneg H) as L.
    replace (Z.to_nat (truncate (max conf)) - length existing)%nat with 0%nat
      by lia.
    simpl. apply app_nil_r. }
  split; [exact C|].
  unfold addedOf. rewrite C. fold existing. apply filter_nil_of_incl.
  intros x. rewrite sliceTo_nonneg by assumption. apply In_firstn.
Qed.

End MergePolicy.

(** ** What [processFile] resolves to *)

Lemma processFile_Ok (dump : UnknownRecord -> jsstring) (f : SourceFile)
    (cfg : CliConfig) (conf : RequiredTaggerConfig)
    (cacheHashtags : list jsstring) (o : Outcome) (w : option jsstring) :
  processFile dump f cfg conf cacheHashtags = Ok (o, w) ->
  exists p, parsed f = Some p
    /\ let combined := combinedOf (baseName f) p conf cacheHashtags in
       let added' := addedOf (baseName f) p conf cacheHashtags in
       let newRaw := newRawOf dump p combined in
       final o = combined
       /\ changed o = negb (match added' with [] => true | _ => false end)
                      && negb (str_eqb newRaw (raw p))
       /\ added o = (if changed o then added' else [])
       /\ w = (if changed o && negb (dryRun cfg) then Some newRaw else None).
Proof.
  unfold processFile. destruct (parsed f) as [p|]; [|discriminate].
  intros H. exists p. split; [reflexivity|]. cbv zeta.
  destruct (addedOf (baseName f) p conf cacheHashtags) as [|a r] eqn:A.
  - injection H as <- <-. simpl. auto.
  - destruct (str_eqb _ (raw p)) eqn:E.
    + injection H as <- <-. simpl. auto.
    + destruct (dryRun cfg).
      * injection H as <- <-. simpl. auto.
      * destruct (writable f); [|discriminate].
        injection H as <- <-. simpl. auto.
Qed.

(** ** Front matter *)

Lemma getField_setField_same (o : UnknownRecord) (k : jsstring) (v : jsval) :
  getField (setField o k v) k = Some v.
Proof.
  induction o as [|[k' v'] rest IH]; simpl.
  - now rewrite str_eqb_refl.
  - destruct (str_eqb k' k) eqn:E; simpl; rewrite E; [reflexivity | exact IH].
Qed.

Lemma getField_setField_other (o : UnknownRecord) (k k' : jsstring) (v : jsval) :
  k' <> k -> getField (setField o k v) k' = getField o k'.
Proof.
  intros D. induction o as [|[k0 v0] rest IH]; simpl.
  - destruct (str_eqb k k') eqn:E; [|reflexivity].
    apply str_eqb_eq in E. congruence.
  - destruct (str_eqb k0 k) eqn:E; simpl.
    + apply str_eqb_eq in E. subst k0.
      destruct (str_eqb k k') eqn:E'; [|reflexivity].
      apply str_eqb_eq in E'. congruence.
    + now rewrite IH.
Qed.

Lemma keys_setField (o : UnknownRecord) (k : jsstring) (v : jsval) :
  map fst (setField o k v) =
  match getField o k with
  | Some _ => map fst o
  | None => map fst o ++ [k]
  end.
Proof.
  induction o as [|[k' v'] rest IH]; simpl; [reflexivity|].
  destruct (str_eqb k' k) eqn:E; simpl; [reflexivity|].
  rewrite IH. now destruct (getField rest k).
Qed.

(** ** The example documents *)

Lemma noteFile_added : addedOf (u "note") notePost defaults [] = [u "note"; u "hello"].
Proof. vm_compute. reflexivity. Qed.

Lemma noteFile_combined :
  combinedOf (u "note") notePost defaults [] = [u "note"; u "hello"].
Proof. vm_compute. reflexivity. Qed.

Lemma noteFile_rewritten (dump : UnknownRecord -> jsstring) :
  str_eqb (newRawOf dump notePost [u "note"; u "hello"]) (raw notePost) = false.
Proof.
  apply str_eqb_neq. intros E.
  apply (f_equal (fun s => firstn 2 (rev s))) in E.
  unfold newRawOf, writtenBody in E. rewrite rev_app_distr in E.
  vm_compute in E. discriminate.
Qed.

Lemma noteFile_processed (dump : UnknownRecord -> jsstring) :
  processFile dump noteFile writeMode defaults [] =
  Ok (noteOutcome, Some (newRawOf dump notePost [u "note"; u "hello"])).
Proof.
  unfold processFile.
  change (parsed noteFile) with (Some notePost). cbv beta iota zeta.
  change (baseName noteFile) with (u "note").
  rewrite noteFile_added, noteFile_combined, noteFile_rewritten.
  reflexivity.
Qed.

Lemma taggedFile_processed :
  processFile keysOnly taggedFile writeMode defaults [] =
  Ok (taggedOutcome, Some taggedWritten).
Proof. vm_compute. reflexivity. Qed.

Lemma defaults_loaded :
  loadConfig (configFile writeMode)
    (Threw (Some (u "ENOENT")) (u "no such file or directory")) = Ok defaults.
Proof. reflexivity. Qed.

(** ** The claims about one document *)

(** For a configuration that [loadConfig] accepted, the final list starts
    with what the program takes for the existing labels, in their order,
    as long as there are fewer of them than [max]; with [max] or more of
    them the final list is these cut at [max] and nothing is added. *)
Lemma existing_labels_preserved (dump : UnknownRecord -> jsstring)
    (f : SourceFile) (cfg : CliConfig) (conf : RequiredTaggerConfig)
    (cacheHashtags : list jsstring) (cfgPath : jsstring)
    (attempt : TryOutcome jsval) (o : Outcome) (w : option jsstring) :
  loadConfig cfgPath attempt = Ok conf ->
  processFile dump f cfg conf cacheHashtags = Ok (o, w) ->
  exists p, parsed f = Some p
    /\ let existing := existingOf (data p) in
       ((inject_Z (Z.of_nat (length existing)) < max conf)%Q ->
          exists rest, final o = existing ++ rest)
       /\ ((max conf <= inject_Z (Z.of_nat (length existing)))%Q ->
             final o = sliceTo (max conf) existing /\ added o = []).
Proof.
  intros Hc H. apply loadConfig_valid in Hc as [H1 H2].
  assert (M : (0 <= max conf)%Q) by lra.
  apply processFile_Ok in H as (p & Hp & Hf & _ & Ha & _).
  exists p. split; [exact Hp|]. cbv zeta. rewrite Hf. split.
  - now apply combined_below_cap.
  - intros L. destruct (combined_at_cap (baseName f) p conf cacheHashtags M L)
      as [C A].
    split; [exact C|]. rewrite Ha, A. now destruct (changed o).
Qed.

Lemma mixedFile_processed (dump : UnknownRecord -> jsstring) :
  processFile dump mixedFile writeMode defaults [] =
  Ok (noteOutcome,
      Some (toYamlFrontmatter dump (updatedData mixedPost [u "note"; u "hello"])
            ++ u "Hello" ++ [LF; LF])).
Proof.
  unfold processFile.
  change (parsed mixedFile) with (Some mixedPost). cbv beta iota zeta.
  change (baseName mixedFile) with (u "mixed").
  assert (A : addedOf (u "mixed") mixedPost defaults [] = [u "note"; u "hello"])
    by (vm_compute; reflexivity).
  assert (C : combinedOf (u "mixed") mixedPost defaults [] = [u "note"; u "hello"])
    by (vm_compute; reflexivity).
  assert (E : str_eqb (newRawOf dump mixedPost [u "note"; u "hello"])
                      (raw mixedPost) = false).
  { apply str_eqb_neq. intros E.
    apply (f_equal (fun s => firstn 2 (rev s))) in E.
    unfold newRawOf, writtenBody in E. rewrite rev_app_distr in E.
    vm_compute in E. discriminate. }
  rewrite A, C, E. reflexivity.
Qed.

(** C5, on the code.  The labels a document carries count as existing only
    when its [hashtags] is an array of strings and nothing else.  The
    document with [hashtags: [web, 2024]], whose second entry YAML reads as
    a number, has no existing label for the program: the final list is
    [note, hello], and the document is written back with [hashtags] set to
    that list.  The label [web] it carried is gone. *)
Theorem stored_labels_overwritten :
  getField (data mixedPost) (u "hashtags")
  = Some (VArr [VStr (u "web"); VNum (Finite 2024)])
  /\ isLabel (u "web")
  /\ (forall fm, isStringArray (getField fm (u "hashtags")) = false ->
        existingOf fm = [])
  /\ existingOf (data mixedPost) = []
  /\ (forall dump : UnknownRecord -> jsstring,
        processFile dump mixedFile writeMode defaults [] =
        Ok ({| changed := true;
               added := [u "note"; u "hello"];
               final := [u "note"; u "hello"] |},
            Some (toYamlFrontmatter dump
                    (updatedData mixedPost [u "note"; u "hello"])
                  ++ u "Hello" ++ [LF; LF])))
  /\ getField (updatedData mixedPost [u "note"; u "hello"]) (u "hashtags")
     = Some (VArr [VStr (u "note"); VStr (u "hello")]).
Proof.
  split; [reflexivity|]. split; [vm_compute; reflexivity|].
  split; [intros fm H; unfold existingOf; now rewrite H|].
  split; [reflexivity|]. split; [exact mixedFile_processed|].
  reflexivity.
Qed.

(** C8. The outcome reports [changed] exactly when labels were added and
    the reserialized document differs from the text that was read.  The
    labels added are those of the merge or, equally, those the outcome
    reports. *)
Theorem changed_iff_added_and_differs (dump : UnknownRecord -> jsstring)
    (f : SourceFile) (cfg : CliConfig) (conf : RequiredTaggerConfig)
    (cacheHashtags : list jsstring) (o : Outcome) (w : option jsstring) :
  processFile dump f cfg conf cacheHashtags = Ok (o, w) ->
  exists p, parsed f = Some p
    /\ let newRaw := newRawOf dump p (final o) in
       (changed o = true <->
          addedOf (baseName f) p conf cacheHashtags <> [] /\ newRaw <> raw p)
       /\ (changed o = true <-> added o <> [] /\ newRaw <> raw p).
Proof.
  intros H. apply processFile_Ok in H as (p & Hp & Hf & Hc & Ha & _).
  exists p. split; [exact Hp|]. cbv zeta in *. rewrite Hf.
  assert (I : changed o = true <->
              addedOf (baseName f) p conf cacheHashtags <> []
              /\ newRawOf dump p (combinedOf (baseName f) p conf cacheHashtags)
                 <> raw p).
  { rewrite Hc, andb_true_iff, !negb_true_iff, str_eqb_neq.
    destruct (addedOf (baseName f) p conf cacheHashtags); split;
      intros [A B]; split; congruence. }
  split; [exact I|]. rewrite Ha. split.
  - intros C. rewrite C. now apply I.
  - intros [A B]. destruct (changed o); [reflexivity | congruence].
Qed.

Lemma changed_iff_added_and_differs_witness :
  exists p, parsed taggedFile = Some p
    /\ let newRaw := newRawOf keysOnly p (final taggedOutcome) in
       (changed taggedOutcome = true <->
          addedOf (baseName taggedFile) p defaults [] <> [] /\ newRaw <> raw p)
       /\ (changed taggedOutcome = true <->
             added taggedOutcome <> [] /\ newRaw <> raw p).
Proof.
  exact (changed_iff_added_and_differs keysOnly taggedFile writeMode defaults []
           taggedOutcome (Some taggedWritten) taggedFile_processed).
Defined.

Lemma dropWhile_length (p : N -> bool) (s : jsstring) :
  (length (dropWhile p s) <= length s)%nat.
Proof.
  induction s as [|c t IH]; simpl; [lia|]. destruct (p c); simpl; lia.
Qed.

(** The body that is written is the body that was read for one body only,
    the single line feed. *)
Lemma written_body_same (s : jsstring) :
  dropWhile (isChar LF) s ++ [LF] = s <-> s = [LF].
Proof.
  split; [|intros ->; reflexivity].
  destruct s as [|c t]; [discriminate|]. cbn [dropWhile].
  destruct (isChar LF c) eqn:C.
  - unfold isChar in C. apply N.eqb_eq in C. subst c. intros E.
    pose proof (f_equal (@length N) E) as L.
    rewrite length_app in L. cbn [length] in L.
    destruct t as [|d t']; [reflexivity|]. exfalso.
    cbn [dropWhile length] in E, L. destruct (isChar LF d) eqn:D.
    + pose proof (dropWhile_length (isChar LF) t'). lia.
    + cbn [app] in E. injection E as E _. subst d. discriminate.
  - intros E. pose proof (f_equal (@length N) E) as L.
    rewrite length_app in L. cbn [length] in L. lia.
Qed.

(** What [processFile] computes rests on the base name, the front matter
    and the body only; the text that was read is only compared with the
    text to write. *)
Lemma locals_same (base : jsstring) (p p' : ParsedFile)
    (conf : RequiredTaggerConfig) (cacheHashtags : list jsstring)
    (dump : UnknownRecord -> jsstring) :
  data p' = data p -> content p' = content p ->
  combinedOf base p' conf cacheHashtags = combinedOf base p conf cacheHashtags
  /\ addedOf base p' conf cacheHashtags = addedOf base p conf cacheHashtags
  /\ forall c, newRawOf dump p' c = newRawOf dump p c.
Proof.
  destruct p as [r d c], p' as [r' d' c']. cbn [data content].
  intros -> ->. repeat split.
Qed.

Lemma quotedFile_processed (dump : UnknownRecord -> jsstring) :
  processFile dump quotedFile writeMode defaults [] =
  processFile dump noteFile writeMode defaults [].
Proof.
  rewrite noteFile_processed. unfold processFile.
  change (parsed quotedFile) with (Some quotedPost). cbv beta iota zeta.
  change (baseName quotedFile) with (u "note").
  change (addedOf (u "note") quotedPost defaults [])
    with (addedOf (u "note") notePost defaults []).
  change (combinedOf (u "note") quotedPost defaults [])
    with (combinedOf (u "note") notePost defaults []).
  rewrite noteFile_added, noteFile_combined.
  assert (E : str_eqb (newRawOf dump quotedPost [u "note"; u "hello"])
                      (raw quotedPost) = false).
  { apply str_eqb_neq. intros E.
    apply (f_equal (fun s => firstn 2 (rev s))) in E.
    unfold newRawOf, writtenBody in E. rewrite rev_app_distr in E.
    vm_compute in E. discriminate. }
  rewrite E. reflexivity.
Qed.

(** C4, as the program has it.  When a document is written back, the front
    matter handed to the serializer is the one read with [hashtags] set to
    the final list: every other key keeps its value and every key its
    place.  The text written is what the serializer prints for it, between
    two [---] lines, followed by the body with its leading line feeds
    removed and one line feed appended: the body is written as it was read
    only when it is a single line feed.  The text rests on the front matter
    and the body that were parsed, not on the text that was read: another
    file with the same base name, front matter and body is written with
    the same text. *)
Theorem written_document_frame (dump : UnknownRecord -> jsstring)
    (f : SourceFile) (cfg : CliConfig) (conf : RequiredTaggerConfig)
    (cacheHashtags : list jsstring) (o : Outcome) (text : jsstring) :
  processFile dump f cfg conf cacheHashtags = Ok (o, Some text) ->
  exists p fm,
    parsed f = Some p
    /\ text = toYamlFrontmatter dump fm
              ++ dropWhile (isChar LF) (content p) ++ [LF]
    /\ getField fm (u "hashtags") = Some (VArr (map VStr (final o)))
    /\ (forall k, k <> u "hashtags" -> getField fm k = getField (data p) k)
    /\ map fst fm = match getField (data p) (u "hashtags") with
                    | Some _ => map fst (data p)
                    | None => map fst (data p) ++ [u "hashtags"]
                    end
    /\ (dropWhile (isChar LF) (content p) ++ [LF] = content p
        <-> content p = [LF])
    /\ (forall f' p' o' text',
          parsed f' = Some p' -> baseName f' = baseName f ->
          data p' = data p -> content p' = content p ->
          processFile dump f' cfg conf cacheHashtags = Ok (o', Some text') ->
          text' = text /\ final o' = final o).
Proof.
  intros H. apply processFile_Ok in H as (p & Hp & Hf & _ & _ & Hw).
  cbv zeta in *. exists p, (updatedData p (final o)).
  assert (T : text = newRawOf dump p (final o)).
  { destruct (changed o && negb (dryRun cfg)); [|discriminate].
    injection Hw as ->. now rewrite Hf. }
  split; [exact Hp|]. split; [exact T|].
  unfold updatedData. split; [apply getField_setField_same|].
  split; [intros k D; now apply getField_setField_other|].
  split; [apply keys_setField|].
  split; [apply written_body_same|].
  intros f' p' o' text' Hp' Hb Hd Hc H'.
  apply processFile_Ok in H' as (q & Hq & Hf' & _ & _ & Hw').
  rewrite Hp' in Hq. injection Hq as <-. cbv zeta in *.
  destruct (locals_same (baseName f) p p' conf cacheHashtags dump Hd Hc)
    as (E1 & _ & E3).
  rewrite Hb, E1, E3 in *.
  destruct (changed o' && negb (dryRun cfg)); [|discriminate].
  injection Hw' as ->. rewrite Hf', T, Hf. auto.
Qed.

Lemma written_document_frame_witness :
  exists p fm,
    parsed taggedFile = Some p
    /\ taggedWritten = toYamlFrontmatter keysOnly fm
                       ++ dropWhile (isChar LF) (content p) ++ [LF]
    /\ getField fm (u "hashtags") = Some (VArr (map VStr (final taggedOutcome)))
    /\ (forall k, k <> u "hashtags" -> getField fm k = getField (data p) k)
    /\ map fst fm = match getField (data p) (u "hashtags") with
                    | Some _ => map fst (data p)
                    | None => map fst (data p) ++ [u "hashtags"]
                    end
    /\ (dropWhile (isChar LF) (content p) ++ [LF] = content p
        <-> content p = [LF])
    /\ (forall f' p' o' text',
          parsed f' = Some p' -> baseName f' = baseName taggedFile ->
          data p' = data p -> content p' = content p ->
          processFile keysOnly f' writeMode defaults [] = Ok (o', Some text') ->
          text' = taggedWritten /\ final o' = final taggedOutcome).
Proof.
  exact (written_document_frame keysOnly taggedFile writeMode defaults []
           taggedOutcome taggedWritten taggedFile_processed).
Defined.

(** C4 as stated fails, for the body and for the other keys.  The body
    [\nHello\n] is written as [Hello\n\n], whatever the serializer prints
    before it.  And the file that differs from it only by the quotes of
    [title: 'Note'], which parses to the same front matter, is written
    with the very same text: whatever the serializer prints for [title],
    it is not the bytes of both files. *)
Lemma written_body_differs :
  (forall dump : UnknownRecord -> jsstring,
     processFile dump noteFile writeMode defaults [] =
     Ok (noteOutcome,
         Some (toYamlFrontmatter dump (updatedData notePost [u "note"; u "hello"])
               ++ u "Hello" ++ [LF; LF])))
  /\ content notePost = [LF] ++ u "Hello" ++ [LF]
  /\ raw quotedPost <> raw notePost
  /\ data quotedPost = data notePost
  /\ content quotedPost = content notePost
  /\ (forall dump : UnknownRecord -> jsstring,
        processFile dump quotedFile writeMode defaults [] =
        processFile dump noteFile writeMode defaults []).
Proof.
  split; [intros dump; apply noteFile_processed|].
  split; [reflexivity|]. split; [vm_compute; discriminate|].
  split; [reflexivity|]. split; [reflexivity|].
  exact quotedFile_processed.
Qed.

(** ** The denylist *)

Lemma slugifyAll_labels (items : list jsstring) (d : jsstring) :
  In d (slugifyAll items) -> isLabel d.
Proof.
  unfold slugifyAll. rewrite in_flat_map. intros (h & _ & H).
  destruct (slugifyHashtag h) as [s|] eqn:E; [|contradiction].
  destruct H as [<-|[]]. eapply slugify_isLabel, E.
Qed.

(** Whatever the mode, the denylist [loadConfig] returns holds labels only:
    every entry of the file went through [slugifyHashtag]. *)
Lemma loadConfig_denylist_labels (cfgPath : jsstring)
    (attempt : TryOutcome jsval) (conf : RequiredTaggerConfig) (d : jsstring) :
  loadConfig cfgPath attempt = Ok conf -> In d (denylist conf) -> isLabel d.
Proof.
  unfold loadConfig. destruct (readJsonFile cfgPath attempt) as [raw|e];
    [|discriminate].
  cbv beta iota delta [bind].
  destruct (negb (truthy raw)); [intros H; injection H as <-; contradiction|].
  destruct (Qlt_bool _ 1); [discriminate|].
  destruct (Qlt_bool _ _); [discriminate|].
  intros H. injection H as <-. simpl denylist.
  destruct (isStringArray _); [apply slugifyAll_labels | contradiction].
Qed.

(** So no wild card reaches [globToRegExp]: every pattern it compiles for a
    loaded configuration is a sequence of literals. *)
Lemma loaded_patterns_are_literal (cfgPath : jsstring)
    (attempt : TryOutcome jsval) (conf : RequiredTaggerConfig) (d : jsstring) :
  loadConfig cfgPath attempt = Ok conf -> In d (denylist conf) ->
  globToRegExp d = map literal d.
Proof.
  intros H Hd. pose proof (loadConfig_denylist_labels _ _ _ _ H Hd) as L.
  destruct (slugify_grammar d d L) as (S & _). unfold globToRegExp.
  apply map_ext_in. intros c Hc. pose proof (forallb_In _ _ _ S Hc) as K.
  assert (E1 : (c =? 42) = false) by char_facts.
  assert (E2 : (c =? 63) = false) by char_facts.
  now rewrite E1, E2.
Qed.

(** The pattern compiler and the matcher do what the documentation of
    [denylistMode] says of a glob such as [astro-*]. *)
Lemma glob_pattern_as_documented :
  test (globToRegExp (u "astro-*")) (u "astro-components") = true
  /\ test (globToRegExp (u "astro-*")) (u "astro") = false
  /\ test (globToRegExp (u "*-js")) (u "node-js") = true.
Proof. vm_compute. auto. Qed.

(** C1, on the code.  Loading the configuration
    [{ denylist: [astro-*], denylistMode: glob }] turns the pattern into the
    label [astro]; the filter then keeps [astro-components] and denies
    [astro], the reverse of what the glob asks for. *)
Theorem glob_denylist_is_slugified :
  match loadConfig (u "tagger.config.json") (Returned globConfig) with
  | Ok conf =>
      denylistMode conf = Glob
      /\ denylist conf = [u "astro"]
      /\ filterNewWithDenylist [u "astro-components"; u "astro"]
           (denylist conf) (denylistMode conf)
         = {| kept := [u "astro-components"]; denied := [u "astro"] |}
  | Throw _ => False
  end.
Proof. vm_compute. auto. Qed.

(** ** Headings *)

Lemma split_app (sep : N) (a b : jsstring) :
  split sep (a ++ sep :: b) = split sep a ++ split sep b.
Proof.
  induction a as [|c t IH]; simpl.
  - now rewrite N.eqb_refl.
  - destruct (c =? sep); [now rewrite IH|].
    rewrite IH. destruct (split sep t) as [|w ws] eqn:E; [|reflexivity].
    destruct t; simpl in E; [discriminate|].
    destruct (n =? sep); [discriminate|].
    destruct (split sep t); discriminate.
Qed.

(** Each line is matched on its own. *)
Lemma extractHeadings_app (a b : jsstring) :
  extractHeadings (a ++ LF :: b) = extractHeadings a ++ extractHeadings b.
Proof.
  unfold extractHeadings. rewrite split_app. apply flat_map_app.
Qed.

Lemma extractHeadings_In (markdown line h : jsstring) :
  In line (split LF markdown) -> In h (headingOfLine line) ->
  In h (extractHeadings markdown).
Proof.
  intros L H. unfold extractHeadings. apply in_flat_map. eauto.
Qed.



(** ** Loading the vocabulary *)






(** ** A line feed more or less around the body *)

Lemma stripPrefix_snoc (pat s : jsstring) (c : N) :
  ~ In c pat ->
  stripPrefix pat (s ++ [c]) = option_map (fun r => r ++ [c]) (stripPrefix pat s).
Proof.
  revert s. induction pat as [|x pat IH]; intros s H; [reflexivity|].
  assert (D : (c =? x) = false) by (apply N.eqb_neq; intros ->; apply H; now left).
  destruct s as [|d t]; simpl.
  - now rewrite D.
  - destruct (d =? x); [|reflexivity]. apply IH. intros F. apply H. now right.
Qed.

Lemma stripPrefix_length (pat s r : jsstring) :
  stripPrefix pat s = Some r -> length s = (length pat + length r)%nat.
Proof.
  revert s. induction pat as [|x pat IH]; intros s; simpl.
  - now intros [= ->].
  - destruct s as [|d t]; [discriminate|].
    destruct (d =? x); [|discriminate].
    intros H. simpl. f_equal. now apply IH.
Qed.

Lemma indexOf_snoc (pat s : jsstring) (x c : N) :
  ~ In c (x :: pat) -> indexOf (x :: pat) (s ++ [c]) = indexOf (x :: pat) s.
Proof.
  intros H. induction s as [|d t IH].
  - assert (D : (c =? x) = false)
      by (apply N.eqb_neq; intros ->; apply H; now left).
    simpl. now rewrite D.
  - change ((d :: t) ++ [c]) with (d :: (t ++ [c])).
    cbn [indexOf]. change (d :: (t ++ [c])) with ((d :: t) ++ [c]).
    rewrite stripPrefix_snoc by assumption.
    destruct (stripPrefix (x :: pat) (d :: t)); simpl; [reflexivity|].
    now rewrite IH.
Qed.

Lemma indexOf_bound (pat s : jsstring) (d : nat) :
  indexOf pat s = Some d -> (d + length pat <= length s)%nat.
Proof.
  revert d. induction s as [|c t IH]; intros d; cbn [indexOf].
  - destruct (stripPrefix pat []) eqn:E; [|discriminate].
    intros [= <-]. apply stripPrefix_length in E. simpl in *. lia.
  - destruct (stripPrefix pat (c :: t)) eqn:E.
    + intros [= <-]. apply stripPrefix_length in E. lia.
    + destruct (indexOf pat t) as [d'|]; [|discriminate].
      simpl. intros [= <-]. specialize (IH d' eq_refl). simpl. lia.
Qed.

Lemma takeWhile_snoc (p : N -> bool) (s : jsstring) (c : N) :
  p c = false -> takeWhile p (s ++ [c]) = takeWhile p s.
Proof.
  intros H. induction s as [|d t IH]; simpl; [now rewrite H|].
  destruct (p d); [now rewrite IH | reflexivity].
Qed.

Lemma takeWhile_length (p : N -> bool) (s : jsstring) :
  (length (takeWhile p s) <= length s)%nat.
Proof.
  induction s as [|d t IH]; simpl; [lia|]. destruct (p d); simpl; lia.
Qed.

Lemma fencedLen_blind : lineFeedBlind fencedLen.
Proof.
  split.
  - reflexivity.
  - reflexivity.
  - intros s. unfold fencedLen.
    rewrite stripPrefix_snoc by (vm_compute; intuition discriminate).
    destruct (stripPrefix (u "```") s) as [r|]; [|reflexivity]. simpl.
    change (u "```") with (96 :: [96; 96]).
    now rewrite indexOf_snoc by (vm_compute; intuition discriminate).
  - intros s n. unfold fencedLen.
    destruct (stripPrefix (u "```") s) as [r|] eqn:E; [|discriminate].
    destruct (indexOf (u "```") r) as [d|] eqn:I; [|discriminate].
    simpl. intros [= <-].
    apply stripPrefix_length in E. apply indexOf_bound in I.
    change (length (u "```")) with 3%nat in *. lia.
Qed.

Lemma inlineLen_blind : lineFeedBlind inlineLen.
Proof.
  split.
  - reflexivity.
  - reflexivity.
  - intros [|c t]; [reflexivity|]. simpl.
    destruct (c =? BACKTICK); [|reflexivity].
    now rewrite indexOf_snoc by (vm_compute; intuition discriminate).
  - intros [|c t] n; [discriminate|]. simpl.
    destruct (c =? BACKTICK); [|discriminate].
    destruct (indexOf [BACKTICK] t) as [d|] eqn:I; [|discriminate].
    simpl. intros [= <-]. apply indexOf_bound in I. simpl in I. lia.
Qed.

Lemma urlStart_snoc (s : jsstring) : urlStart (s ++ [LF]) = urlStart s.
Proof.
  unfold urlStart.
  rewrite stripPrefix_snoc by (vm_compute; intuition discriminate).
  destruct (stripPrefix (u "http") s) as [r|]; [|reflexivity]. simpl.
  assert (T : forall r0, match stripPrefix (u "://") (r0 ++ [LF]) with
                         | Some (c :: _) => negb (isWhiteSpace c)
                         | _ => false
                         end
                         = match stripPrefix (u "://") r0 with
                           | Some (c :: _) => negb (isWhiteSpace c)
                           | _ => false
                           end).
  { intros r0. rewrite stripPrefix_snoc by (vm_compute; intuition discriminate).
    destruct (stripPrefix (u "://") r0) as [[|c x]|]; reflexivity. }
  destruct r as [|c t]; [reflexivity|].
  change ((c :: t) ++ [LF]) with (c :: (t ++ [LF])). cbv iota beta.
  destruct (c =? 115); [apply T | apply (T (c :: t))].
Qed.

Lemma urlLen_blind : lineFeedBlind urlLen.
Proof.
  split.
  - reflexivity.
  - reflexivity.
  - intros s. unfold urlLen. rewrite urlStart_snoc.
    now rewrite takeWhile_snoc by reflexivity.
  - intros s n. unfold urlLen. destruct (urlStart s); [|discriminate].
    intros [= <-]. apply takeWhile_length.
Qed.

Section LineFeeds.

Variable matchLen : jsstring -> option nat.
Variable r : jsstring.
Hypothesis blind : lineFeedBlind matchLen.

Lemma replaceMatches_cons_LF (s : jsstring) :
  replaceMatches matchLen r 0 (LF :: s) = LF :: replaceMatches matchLen r 0 s.
Proof. simpl. now rewrite (blind_cons _ blind). Qed.

Lemma replaceMatches_snoc_LF (s : jsstring) (k : nat) :
  (k <= length s)%nat ->
  replaceMatches matchLen r k (s ++ [LF]) = replaceMatches matchLen r k s ++ [LF].
Proof.
  revert k. induction s as [|c t IH]; intros k H.
  - simpl in H. replace k with 0%nat by lia. simpl.
    change [LF] with ([] ++ [LF]) at 1.
    now rewrite (blind_snoc _ blind), (blind_nil _ blind).
  - change ((c :: t) ++ [LF]) with (c :: (t ++ [LF])).
    destruct k as [|k]; cbn [replaceMatches].
    + change (c :: (t ++ [LF])) with ((c :: t) ++ [LF]).
      rewrite (blind_snoc _ blind).
      destruct (matchLen (c :: t)) as [n|] eqn:E.
      * apply (blind_bound _ blind) in E. simpl in E.
        rewrite IH by lia. now rewrite app_assoc.
      * now rewrite IH by lia.
    + apply IH. simpl in H. lia.
Qed.

End LineFeeds.

Lemma stripCodeBlocks_cons_LF (s : jsstring) :
  stripCodeBlocks (LF :: s) = LF :: stripCodeBlocks s.
Proof.
  unfold stripCodeBlocks.
  rewrite (replaceMatches_cons_LF _ [SPACE] fencedLen_blind).
  now rewrite (replaceMatches_cons_LF _ [SPACE] inlineLen_blind).
Qed.

Lemma stripCodeBlocks_snoc_LF (s : jsstring) :
  stripCodeBlocks (s ++ [LF]) = stripCodeBlocks s ++ [LF].
Proof.
  unfold stripCodeBlocks.
  rewrite (replaceMatches_snoc_LF _ [SPACE] fencedLen_blind) by lia.
  now rewrite (replaceMatches_snoc_LF _ [SPACE] inlineLen_blind) by lia.
Qed.

Lemma dropWhile_snoc (p : N -> bool) (s : jsstring) (c : N) :
  p c = true ->
  dropWhile p (s ++ [c]) =
  match dropWhile p s with
  | [] => []
  | y => y ++ [c]
  end.
Proof.
  intros H. induction s as [|d t IH]; simpl; [now rewrite H|].
  destruct (p d); [exact IH | reflexivity].
Qed.

Lemma dropWhileEnd_snoc (p : N -> bool) (s : jsstring) (c : N) :
  p c = true -> dropWhileEnd p (s ++ [c]) = dropWhileEnd p s.
Proof.
  intros H. induction s as [|d t IH].
  - simpl. now rewrite H.
  - change ((d :: t) ++ [c]) with (d :: (t ++ [c])).
    now rewrite !dropWhileEnd_cons, IH.
Qed.

Lemma trim_cons_ws (c : N) (s : jsstring) :
  isWhiteSpace c = true -> trim (c :: s) = trim s.
Proof. intros H. unfold trim. simpl. now rewrite H. Qed.

Lemma trim_snoc_ws (c : N) (s : jsstring) :
  isWhiteSpace c = true -> trim (s ++ [c]) = trim s.
Proof.
  intros H. unfold trim. rewrite dropWhile_snoc by assumption.
  destruct (dropWhile isWhiteSpace s) as [|y ys]; [reflexivity|].
  now apply dropWhileEnd_snoc.
Qed.

Lemma replaceRuns_cons_in (p : N -> bool) (r : jsstring) (c : N) (s : jsstring) :
  p c = true ->
  replaceRuns p r (c :: s) = replaceRuns p r s
  \/ replaceRuns p r (c :: s) = r ++ replaceRuns p r s.
Proof.
  intros H. simpl. rewrite H. destruct s as [|d t].
  - right. now rewrite app_nil_r.
  - destruct (p d); auto.
Qed.

Lemma replaceRuns_snoc_in (p : N -> bool) (r : jsstring) (c : N) (s : jsstring) :
  p c = true ->
  replaceRuns p r (s ++ [c]) = replaceRuns p r s
  \/ replaceRuns p r (s ++ [c]) = replaceRuns p r s ++ r.
Proof.
  intros H. induction s as [|a t IH].
  - right. simpl. now rewrite H.
  - change ((a :: t) ++ [c]) with (a :: (t ++ [c])).
    destruct t as [|b t'].
    + simpl. rewrite H. destruct (p a); [now left|]. right. reflexivity.
    + change ((b :: t') ++ [c]) with (b :: (t' ++ [c])) in *.
      cbn [replaceRuns] in *. destruct (p a).
      * destruct (p b).
        -- exact IH.
        -- destruct IH as [-> | ->]; [now left|]. right. now rewrite app_assoc.
      * destruct IH as [-> | ->]; [now left | now right].
Qed.

Lemma wordText_cons_LF (s : jsstring) : wordText (LF :: s) = wordText s.
Proof.
  unfold wordText. change (toLowerCase (LF :: s)) with (LF :: toLowerCase s).
  rewrite (replaceMatches_cons_LF _ [SPACE] urlLen_blind).
  set (t := replaceMatches urlLen [SPACE] 0 (toLowerCase s)).
  change (replaceEach (fun c => negb (isSlugOrSpace c)) [SPACE] (LF :: t))
    with (LF :: replaceEach (fun c => negb (isSlugOrSpace c)) [SPACE] t).
  destruct (replaceRuns_cons_in isWhiteSpace [SPACE] LF
              (replaceEach (fun c => negb (isSlugOrSpace c)) [SPACE] t) eq_refl)
    as [-> | ->]; [reflexivity|].
  now apply trim_cons_ws.
Qed.

Lemma wordText_snoc_LF (s : jsstring) : wordText (s ++ [LF]) = wordText s.
Proof.
  unfold wordText. unfold toLowerCase at 1. rewrite flat_map_app. fold (toLowerCase s).
  change (flat_map lowerUnit [LF]) with [LF].
  rewrite (replaceMatches_snoc_LF _ [SPACE] urlLen_blind) by lia.
  set (t := replaceMatches urlLen [SPACE] 0 (toLowerCase s)).
  unfold replaceEach at 1. rewrite flat_map_app.
  fold (replaceEach (fun c => negb (isSlugOrSpace c)) [SPACE] t).
  change (flat_map _ [LF]) with [LF].
  destruct (replaceRuns_snoc_in isWhiteSpace [SPACE] LF
              (replaceEach (fun c => negb (isSlugOrSpace c)) [SPACE] t) eq_refl)
    as [-> | ->]; [reflexivity|].
  now apply trim_snoc_ws.
Qed.

Lemma extractWords_wordText (text : jsstring) :
  extractWords text =
  filter (fun w => negb (has STOPWORDS w))
    (filter (fun w => (3 <=? length w)%nat) (split SPACE (wordText text))).
Proof. reflexivity. Qed.

(** Neither the keywords nor the headings of a body change when its
    leading line feeds are removed and one is added at the end. *)
Lemma wordText_written (s : jsstring) :
  wordText (stripCodeBlocks (dropWhile (isChar LF) s ++ [LF]))
  = wordText (stripCodeBlocks s).
Proof.
  rewrite stripCodeBlocks_snoc_LF, wordText_snoc_LF.
  induction s as [|c t IH]; [reflexivity|].
  simpl dropWhile. destruct (isChar LF c) eqn:E; [|reflexivity].
  unfold isChar in E. apply N.eqb_eq in E. subst c.
  now rewrite IH, stripCodeBlocks_cons_LF, wordText_cons_LF.
Qed.

Lemma extractHeadings_written (s : jsstring) :
  extractHeadings (dropWhile (isChar LF) s ++ [LF]) = extractHeadings s.
Proof.
  rewrite extractHeadings_app.
  change (extractHeadings []) with (@nil jsstring). rewrite app_nil_r.
  induction s as [|c t IH]; [reflexivity|].
  simpl dropWhile. destruct (isChar LF c) eqn:E; [|reflexivity].
  unfold isChar in E. apply N.eqb_eq in E. subst c.
  rewrite IH. symmetry. apply (extractHeadings_app [] t).
Qed.

(** ** Running the merge again *)

Lemma filter_filter_has (X : list jsstring) (it : jsstring) (l : list jsstring) :
  has X it = true ->
  filter (fun h => negb (has X h)) (filter (fun h => negb (has [it] h)) l)
  = filter (fun h => negb (has X h)) l.
Proof.
  intros H. induction l as [|x r IH]; [reflexivity|]. cbn [filter].
  rewrite has_cons. change (has [] x) with false. rewrite orb_false_r.
  destruct (str_eqb x it) eqn:E; cbn [negb filter].
  - apply str_eqb_eq in E. subst x. rewrite H. exact IH.
  - now rewrite IH.
Qed.

Lemma uniqueStableFrom_filter (X seen items : list jsstring) :
  uniqueStableFrom (X ++ seen) items
  = filter (fun h => negb (has X h)) (uniqueStableFrom seen items).
Proof.
  revert X seen. induction items as [|it rest IH]; intros X seen; [reflexivity|].
  simpl. rewrite has_app. destruct (has seen it) eqn:S.
  - rewrite orb_true_r. apply IH.
  - rewrite orb_false_r. destruct (has X it) eqn:HX.
    + simpl. rewrite HX. simpl.
      rewrite IH. change (it :: seen) with ([it] ++ seen).
      rewrite (IH [it] seen). now rewrite filter_filter_has.
    + simpl. rewrite HX. simpl. f_equal. rewrite <- IH.
      apply uniqueStableFrom_ext. intros x.
      rewrite has_cons, !has_app, has_cons.
      now destruct (str_eqb x it), (has X x).
Qed.

Lemma filter_has_self_app (A B : list jsstring) :
  NoDup (A ++ B) -> filter (fun h => negb (has A h)) (A ++ B) = B.
Proof.
  intros D. rewrite filter_app.
  assert (E1 : filter (fun h => negb (has A h)) A = []).
  { apply filter_nil_of_incl. auto. }
  rewrite E1. simpl.
  assert (K : forall x, In x B -> ~ In x A).
  { intros x Hb Ha. revert D Ha Hb. clear. induction A as [|a A IH]; simpl.
    - tauto.
    - intros D [->|Ha] Hb; inversion D as [|? ? Hn D']; subst.
      + apply Hn. apply in_or_app. now right.
      + now apply IH. }
  clear D E1. induction B as [|b B IH]; [reflexivity|]. simpl.
  assert (E : has A b = false) by (apply has_not_In, K; now left).
  rewrite E. simpl. f_equal. apply IH. intros x Hx. apply K. now right.
Qed.

Lemma NoDup_firstn {A : Type} (k : nat) (l : list A) :
  NoDup l -> NoDup (firstn k l).
Proof.
  revert l. induction k as [|k IH]; intros [|x r] D; simpl; try constructor.
  - inversion D; subst. intros F. apply In_firstn in F. contradiction.
  - inversion D; subst. now apply IH.
Qed.

Lemma sliceTo_firstn {A : Type} (n : Q) (l : list A) :
  sliceTo n l = firstn (sliceLen n (length l)) l.
Proof. unfold sliceTo, sliceLen. now destruct (truncate n <? 0)%Z. Qed.

Lemma merge_again (existing mappedNew : list jsstring) (j : nat) :
  NoDup existing -> (length existing <= j)%nat ->
  uniqueStable (firstn j (uniqueStable (existing ++ mappedNew)) ++ mappedNew)
  = uniqueStable (existing ++ mappedNew).
Proof.
  intros D L.
  assert (DU : NoDup (uniqueStable (existing ++ mappedNew)))
    by apply uniqueStable_NoDup.
  rewrite (merge_shape existing mappedNew D) in *.
  set (N := uniqueStableFrom (existing ++ []) mappedNew) in *.
  rewrite firstn_app, firstn_all2 by assumption.
  set (N1 := firstn (j - length existing) N).
  assert (EN : N = N1 ++ skipn (j - length existing) N)
    by (symmetry; apply firstn_skipn).
  assert (DC : NoDup (existing ++ N1)).
  { rewrite EN, app_assoc in DU. now apply NoDup_app_remove_r in DU. }
  rewrite (merge_shape _ mappedNew DC). rewrite <- app_assoc. f_equal.
  rewrite (uniqueStableFrom_ext ((existing ++ N1) ++ []) (N1 ++ (existing ++ []))).
  - rewrite uniqueStableFrom_filter. fold N.
    assert (F : filter (fun h => negb (has N1 h)) N
                = skipn (j - length existing) N).
    { rewrite EN at 1. apply filter_has_self_app. rewrite <- EN.
      now apply NoDup_app_remove_l in DU. }
    rewrite F. symmetry. exact EN.
  - intros x. rewrite !has_app. simpl.
    now destruct (has existing x), (has N1 x).
Qed.

(** ** Running [processFile] on its own output *)

Lemma existingOf_labels (fm : UnknownRecord) (x : jsstring) :
  In x (existingOf fm) -> isLabel x.
Proof.
  unfold existingOf. destruct (isStringArray _); [|contradiction].
  rewrite uniqueStable_In. apply slugifyAll_labels.
Qed.

Lemma kept_incl (items deny : list jsstring) (mode : DenylistMode) (x : jsstring) :
  In x (kept (filterNewWithDenylist items deny mode)) -> In x items.
Proof.
  unfold filterNewWithDenylist. destruct deny as [|d ds]; [auto|].
  destruct mode; simpl; rewrite filter_In; tauto.
Qed.

Lemma mapLoop_mapped (candidate : jsstring) (candTokens : list jsstring)
    (threshold : Q) (cache : list jsstring) :
  forall best bestScore,
    let m := mapped (mapLoop candidate candTokens threshold cache best bestScore) in
    m = candidate \/ m = best \/ In m cache.
Proof.
  induction cache as [|existing rest IH]; intros best bestScore; cbn [mapLoop].
  - cbv zeta. destruct (Qle_bool (double threshold) bestScore);
      cbn [mapped]; auto.
  - cbv zeta. destruct (str_eqb existing candidate); [simpl; auto|].
    destruct (length (tokeniseSlug existing) =? 0)%nat.
    + destruct (IH best bestScore) as [H|[H|H]]; simpl; auto.
    + match goal with
      | |- context [Qlt_bool bestScore ?sc] =>
          destruct (Qlt_bool bestScore sc);
          [destruct (IH existing sc) as [H|[H|H]]
          |destruct (IH best bestScore) as [H|[H|H]]]
      end; simpl; auto.
Qed.

Lemma mapToCache_mapped (candidate : jsstring) (cache : list jsstring)
    (threshold : Q) :
  mapped (mapToCache candidate cache threshold) = candidate
  \/ In (mapped (mapToCache candidate cache threshold)) cache.
Proof.
  unfold mapToCache. destruct (length (tokeniseSlug candidate) =? 0)%nat;
    [now left|].
  destruct (mapLoop_mapped candidate (tokeniseSlug candidate) threshold cache
              candidate 0%Q) as [H|[H|H]]; auto.
Qed.

Lemma isStringArray_strings (l : list jsstring) :
  isStringArray (Some (VArr (map VStr l))) = true
  /\ strings (Some (VArr (map VStr l))) = l.
Proof.
  simpl. induction l as [|x r [IH1 IH2]]; [auto|]. simpl. split; [exact IH1|].
  now rewrite IH2.
Qed.

Lemma slugifyAll_id (l : list jsstring) :
  (forall x, In x l -> isLabel x) -> slugifyAll l = l.
Proof.
  induction l as [|x r IH]; intros H; [reflexivity|].
  unfold slugifyAll in *. simpl. rewrite (H x) by (now left).
  simpl. f_equal. apply IH. intros y Hy. apply H. now right.
Qed.

Lemma topKeywords_wordText (a b : jsstring) (limit : Q) :
  wordText a = wordText b -> topKeywords a limit = topKeywords b limit.
Proof.
  intros E. unfold topKeywords. now rewrite !extractWords_wordText, E.
Qed.

Section Rerun.

Variables (base : jsstring) (p p' : ParsedFile) (conf : RequiredTaggerConfig)
          (cacheHashtags : list jsstring).
Hypothesis vocabulary_labels : Forall isLabel cacheHashtags.

Let combined := combinedOf base p conf cacheHashtags.

(** [p'] is the document read again after [p] was written back with the
    labels [combined]: it has the [hashtags] that were written, the [title]
    and the [tags] of [p], and the body that was written. *)
Hypothesis hashtags_back :
  getField (data p') (u "hashtags") = Some (VArr (map VStr combined)).
Hypothesis title_back :
  getField (data p') (u "title") = getField (data p) (u "title").
Hypothesis tags_back :
  getField (data p') (u "tags") = getField (data p) (u "tags").
Hypothesis body_back : content p' = dropWhile (isChar LF) (content p) ++ [LF].

Lemma mappedNewOf_labels (x : jsstring) :
  In x (mappedNewOf base p conf cacheHashtags) -> isLabel x.
Proof.
  unfold mappedNewOf. rewrite in_map_iff. intros (c & E & Hc).
  apply kept_incl in Hc. unfold generatedAllOf in Hc.
  rewrite uniqueStable_In in Hc. apply slugifyAll_labels in Hc.
  destruct (mapToCache_mapped c cacheHashtags (cacheSimilarityThreshold conf))
    as [M|M]; rewrite E in M.
  - rewrite M. exact Hc.
  - rewrite Forall_forall in vocabulary_labels. now apply vocabulary_labels.
Qed.

Lemma combined_labels (x : jsstring) : In x combined -> isLabel x.
Proof.
  unfold combined, combinedOf. rewrite sliceTo_firstn. intros H.
  apply In_firstn in H. rewrite uniqueStable_In in H.
  apply in_app_or in H as [H|H];
    [eapply existingOf_labels, H | now apply mappedNewOf_labels].
Qed.

Lemma combined_NoDup : NoDup combined.
Proof.
  unfold combined, combinedOf. rewrite sliceTo_firstn.
  apply NoDup_firstn, uniqueStable_NoDup.
Qed.

Lemma existingOf_again : existingOf (data p') = combined.
Proof.
  unfold existingOf. rewrite hashtags_back.
  destruct (isStringArray_strings combined) as [-> ->].
  rewrite slugifyAll_id by apply combined_labels.
  apply uniqueStable_id, combined_NoDup.
Qed.

Lemma rawCandidatesOf_again :
  rawCandidatesOf base p' conf = rawCandidatesOf base p conf.
Proof.
  unfold rawCandidatesOf, getTitleFromFrontmatter.
  rewrite title_back, tags_back, body_back.
  rewrite extractHeadings_written.
  now rewrite (topKeywords_wordText _ _ _ (wordText_written (content p))).
Qed.

Lemma mappedNewOf_again :
  mappedNewOf base p' conf cacheHashtags = mappedNewOf base p conf cacheHashtags.
Proof.
  unfold mappedNewOf, generatedAllOf. now rewrite rawCandidatesOf_again.
Qed.

Lemma combinedOf_again :
  addedOf base p conf cacheHashtags <> [] ->
  combinedOf base p' conf cacheHashtags = combined.
Proof.
  intros A. unfold combinedOf at 1.
  rewrite existingOf_again, mappedNewOf_again.
  unfold combined, combinedOf.
  set (E := existingOf (data p)). set (M := mappedNewOf base p conf cacheHashtags).
  rewrite (sliceTo_firstn (max conf) (uniqueStable (E ++ M))).
  set (j := sliceLen (max conf) (length (uniqueStable (E ++ M)))).
  destruct (Nat.le_gt_cases (length E) j) as [L|L].
  - rewrite merge_again by (assumption || apply existingOf_NoDup).
    apply sliceTo_firstn.
  - exfalso. apply A. unfold addedOf, combinedOf. fold E M.
    rewrite sliceTo_firstn. fold j.
    rewrite (merge_shape E M (existingOf_NoDup _)), firstn_app.
    replace (j - length E)%nat with 0%nat by lia. simpl. rewrite app_nil_r.
    apply filter_nil_of_incl. intros x. apply In_firstn.
Qed.

Lemma addedOf_again :
  addedOf base p conf cacheHashtags <> [] ->
  addedOf base p' conf cacheHashtags = [].
Proof.
  intros A. unfold addedOf. rewrite existingOf_again.
  rewrite (combinedOf_again A). apply filter_nil_of_incl. auto.
Qed.

End Rerun.

(** C7, as the program has it.  Processing is idempotent under two
    conditions.  The vocabulary holds normalised labels only; and the
    document the first run wrote is read again with the [hashtags] that
    were written, the [title] and the [tags] it had, and the body that was
    written.  Then the second run, under the same configuration and
    vocabulary, reports no change, an empty [added] list and the final list
    of the first run, and writes nothing.  A first run that reports no
    change has added nothing and written nothing. *)
Theorem processing_idempotent (dump : UnknownRecord -> jsstring)
    (f : SourceFile) (cfg : CliConfig) (conf : RequiredTaggerConfig)
    (cacheHashtags : list jsstring) (o : Outcome) (w : option jsstring)
    (p : ParsedFile) :
  Forall isLabel cacheHashtags ->
  processFile dump f cfg conf cacheHashtags = Ok (o, w) ->
  parsed f = Some p ->
  (changed o = false -> added o = [] /\ w = None)
  /\ (changed o = true ->
      forall (f' : SourceFile) (p' : ParsedFile),
        parsed f' = Some p' ->
        baseName f' = baseName f ->
        getField (data p') (u "hashtags") = Some (VArr (map VStr (final o))) ->
        getField (data p') (u "title") = getField (data p) (u "title") ->
        getField (data p') (u "tags") = getField (data p) (u "tags") ->
        content p' = dropWhile (isChar LF) (content p) ++ [LF] ->
        processFile dump f' cfg conf cacheHashtags
        = Ok ({| changed := false; added := []; final := final o |}, None)).
Proof.
  intros V H Hp.
  apply processFile_Ok in H as (q & Hq & Hf & Hc & Ha & Hw). cbv zeta in *.
  rewrite Hp in Hq. injection Hq as <-. split.
  - intros C. rewrite C in Ha, Hw. auto.
  - intros C f' p' Hp' Hb H1 H2 H3 H4. rewrite C in Hc.
    symmetry in Hc. apply andb_true_iff in Hc as [Hc _].
    assert (A : addedOf (baseName f) p conf cacheHashtags <> [])
      by (destruct (addedOf (baseName f) p conf cacheHashtags);
          [discriminate | congruence]).
    rewrite Hf in H1.
    unfold processFile. rewrite Hp', Hb. cbv beta iota zeta.
    rewrite (addedOf_again _ p p' _ _ V H1 H2 H3 H4 A).
    now rewrite (combinedOf_again _ p p' _ _ V H1 H2 H3 H4 A), Hf.
Qed.

Lemma processing_idempotent_witness :
  processFile plainYaml taggedAgainFile writeMode defaults [u "web-dev"]
  = Ok ({| changed := false; added := []; final := final taggedOutcome |}, None).
Proof.
  refine (proj2 (processing_idempotent plainYaml taggedFile writeMode defaults
                   [u "web-dev"] taggedOutcome
                   (Some (raw taggedAgainPost)) taggedPost _ _ eq_refl)
            eq_refl taggedAgainFile taggedAgainPost
            eq_refl eq_refl eq_refl eq_refl eq_refl eq_refl).
  - constructor; [vm_compute; reflexivity | constructor].
  - vm_compute. reflexivity.
Defined.

(** C7 as stated fails for a vocabulary that holds an entry which is no
    normalised label, as a cache file edited by hand can.  With the
    vocabulary [api-design-], the first run maps the title's slug
    [api-design] to that entry and writes [api-design-, hello].  The second
    run, on the document as it was written, normalises the stored entry to
    [api-design], maps the title's slug to [api-design-] again, and adds
    it. *)
Lemma hand_edited_vocabulary_adds_again :
  processFile plainYaml apiFile writeMode defaults [u "api-design-"]
  = Ok ({| changed := true;
           added := [u "api-design-"; u "hello"];
           final := [u "api-design-"; u "hello"] |},
        Some (raw apiAgainPost))
  /\ data apiAgainPost
     = updatedData apiPost [u "api-design-"; u "hello"]
  /\ content apiAgainPost = dropWhile (isChar LF) (content apiPost) ++ [LF]
  /\ exists text,
       processFile plainYaml apiAgainFile writeMode defaults [u "api-design-"]
       = Ok ({| changed := true;
                added := [u "api-design-"];
                final := [u "api-design"; u "hello"; u "api-design-"] |},
             Some text).
Proof.
  split; [vm_compute; reflexivity|]. split; [reflexivity|].
  split; [reflexivity|]. eexists. vm_compute. reflexivity.
Qed.

(** The vocabularies the program builds itself hold labels only. *)
Lemma insertSorted_In (x y : jsstring) (l : list jsstring) :
  In y (insertSorted x l) <-> y = x \/ In y l.
Proof.
  induction l as [|z r IH]; simpl; [intuition congruence|].
  destruct (str_leb x z); simpl; [intuition congruence|].
  rewrite IH. intuition congruence.
Qed.

Lemma sortLabels_In (l : list jsstring) (y : jsstring) :
  In y (sortLabels l) <-> In y l.
Proof.
  induction l as [|x r IH]; simpl; [tauto|].
  rewrite insertSorted_In, IH. intuition congruence.
Qed.

Lemma scanExistingHashtags_labels (files : list SourceFile) :
  Forall isLabel (scanExistingHashtags files).
Proof.
  apply Forall_forall. intros x. unfold scanExistingHashtags.
  rewrite sortLabels_In, uniqueStable_In, in_flat_map.
  intros (f & _ & H). destruct (parsed f) as [p|]; [|contradiction].
  destruct (isStringArray _); [|contradiction].
  eapply slugifyAll_labels, H.
Qed.

(** * More of the program *)

(** ** De-duplication and tokens *)

(** X1. [uniqueStable] returns a duplicate-free list with the members of its
    argument, in the order of their first occurrences (what it gives for a
    concatenation is what it gives for the first part, followed by what it
    gives for the second without the members of the first), and applying it
    twice changes nothing more. *)
Theorem uniqueStable_first_occurrences (a b : list jsstring) :
  NoDup (uniqueStable a)
  /\ (forall x, In x (uniqueStable a) <-> In x a)
  /\ uniqueStable (a ++ b)
     = uniqueStable a ++ filter (fun h => negb (has a h)) (uniqueStable b)
  /\ uniqueStable (uniqueStable a) = uniqueStable a.
Proof.
  split; [apply uniqueStable_NoDup|].
  split; [intros x; apply uniqueStable_In|].
  split; [|apply uniqueStable_id, uniqueStable_NoDup].
  unfold uniqueStable. rewrite uniqueStableFrom_app. f_equal.
  apply uniqueStableFrom_filter.
Qed.

Lemma split_no_sep (sep : N) (s w : jsstring) :
  In w (split sep s) -> ~ In sep w.
Proof.
  revert w. induction s as [|c t IH]; intros w; simpl.
  - intros [<-|[]]. auto.
  - destruct (c =? sep) eqn:E.
    + intros [<-|H]; [auto | now apply IH].
    + apply N.eqb_neq in E. destruct (split sep t) as [|w0 ws] eqn:S.
      * intros [<-|[]]. intros [F|[]]. congruence.
      * intros [<-|H].
        -- intros [F|F]; [congruence|]. apply (IH w0); [now left | exact F].
        -- apply IH. now right.
Qed.

(** X2. The tokens of a slug are pairwise different, none is empty and none
    contains a hyphen. *)
Theorem tokeniseSlug_tokens (slug : jsstring) :
  NoDup (tokeniseSlug slug)
  /\ forall t, In t (tokeniseSlug slug) -> t <> [] /\ ~ In HYPHEN t.
Proof.
  split; [apply uniqueStable_NoDup|].
  intros t H. unfold tokeniseSlug in H. rewrite uniqueStable_In, filter_In in H.
  destruct H as [H E]. split.
  - intros ->. discriminate.
  - eapply split_no_sep, H.
Qed.

(** ** The vocabulary mapper, whatever the candidate *)







(** The score is a binary64 quotient: one token of five in common reaches
    the threshold [0.2], and three of five the default threshold [0.6];
    the number [0.2] is above the rational [1/5] and the number [0.6] below
    the rational [3/5]. *)
Lemma score_is_rounded :
  mapped (mapToCache (u "aa-bb-cc") [u "aa-dd-ee"] (2 # 10)) = u "aa-dd-ee"
  /\ mapped (mapToCache (u "aa-bb-cc-dd")
               [u "aa-bb-cc-ee"]
               (cacheSimilarityThreshold defaults)) = u "aa-bb-cc-ee"
  /\ (1 # 5 < double (2 # 10))%Q
  /\ (double (6 # 10) < 3 # 5)%Q.
Proof. vm_compute. auto. Qed.

(** A number is its own nearest number, and the number of a literal is the
    quotient the program would compute from its digits. *)
Lemma double_examples :
  (double (divide 1 3) == divide 1 3)%Q
  /\ (double (divide 3 5) == divide 3 5)%Q
  /\ (double (2 # 10) == divide 2 10)%Q
  /\ (double (6 # 10) == divide 6 10)%Q
  /\ (double 0 == 0)%Q /\ (double 1 == 1)%Q /\ (double 12 == 12)%Q
  /\ (double (-3 # 4) == -3 # 4)%Q.
Proof. vm_compute. auto 10. Qed.


(** ** The denylist filter *)

Lemma filter_split_Permutation {A : Type} (h : A -> bool) (l : list A) :
  Permutation (filter (fun x => negb (h x)) l ++ filter h l) l.
Proof.
  induction l as [|x r IH]; [constructor|]. simpl.
  destruct (h x); simpl.
  - apply Permutation_sym, Permutation_cons_app, Permutation_sym, IH.
  - now constructor.
Qed.

Lemma filterNewWithDenylist_by (newItems denylist : list jsstring)
    (mode : DenylistMode) :
  exists h : jsstring -> bool,
    kept (filterNewWithDenylist newItems denylist mode)
      = filter (fun x => negb (h x)) newItems
    /\ denied (filterNewWithDenylist newItems denylist mode) = filter h newItems
    /\ (denylist = [] -> forall x, h x = false)
    /\ (mode = Exact -> forall x, h x = has denylist x).
Proof.
  destruct denylist as [|d ds].
  - exists (fun _ => false). simpl. repeat split; auto.
    + clear. induction newItems as [|x r IH]; simpl; congruence.
    + clear. induction newItems as [|x r IH]; simpl; congruence.
  - destruct mode.
    + exists (has (d :: ds)). simpl. repeat split; auto. discriminate.
    + exists (fun x => existsb (fun re => test re x) (map globToRegExp (d :: ds))).
      simpl. repeat split; auto; discriminate.
Qed.

(** X4. [filterNewWithDenylist] splits the new labels in two: every label
    ends up kept or denied and never both (the two lists together are a
    permutation of the input).  An empty denylist denies nothing, and in
    exact mode the denied labels are exactly those that are on the list. *)
Theorem denylist_partitions (newItems denylist : list jsstring)
    (mode : DenylistMode) :
  let r := filterNewWithDenylist newItems denylist mode in
  Permutation (kept r ++ denied r) newItems
  /\ (forall x, In x (kept r) -> In x (denied r) -> False)
  /\ (denylist = [] -> kept r = newItems /\ denied r = [])
  /\ (mode = Exact ->
      forall x, In x (denied r) <-> In x newItems /\ In x denylist).
Proof.
  cbv zeta.
  destruct (filterNewWithDenylist_by newItems denylist mode)
    as (h & -> & -> & Hnil & Hexact).
  split; [apply filter_split_Permutation|]. split; [|split].
  - intros x K D. apply filter_In in K as [_ K], D as [_ D].
    rewrite D in K. discriminate.
  - intros E. specialize (Hnil E). split.
    + clear -Hnil. induction newItems as [|x r IH]; simpl; [reflexivity|].
      rewrite Hnil. simpl. now rewrite IH.
    + clear -Hnil. induction newItems as [|x r IH]; simpl; [reflexivity|].
      now rewrite Hnil.
  - intros E x. specialize (Hexact E). rewrite filter_In, Hexact, has_In. tauto.
Qed.

(** ** The matcher on glob patterns *)

Lemma matchItems_cons (it : item) (re : list item) (s : jsstring) :
  matchItems (it :: re) s
  = firstSome (fun n => option_map (cons (firstn n s)) (matchItems re (skipn n s)))
      (counts it (length (takeWhile (cls it) s))).
Proof.
  cbn [matchItems].
  induction (counts it (length (takeWhile (cls it) s))) as [|n ns IH];
    [reflexivity|].
  simpl. destruct (matchItems re (skipn n s)); [reflexivity | exact IH].
Qed.

Lemma firstSome_none {A B : Type} (f : A -> option B) (l : list A) :
  (forall x, In x l -> f x = None) -> firstSome f l = None.
Proof.
  induction l as [|x r IH]; intros H; [reflexivity|]. simpl.
  rewrite (H x) by (now left). apply IH. intros y Hy. apply H. now right.
Qed.

Lemma firstSome_skip {A B : Type} (f : A -> option B) (l1 l2 : list A) :
  (forall x, In x l1 -> f x = None) ->
  firstSome f (l1 ++ l2) = firstSome f l2.
Proof.
  induction l1 as [|x r IH]; intros H; [reflexivity|]. simpl.
  rewrite (H x) by (now left). apply IH. intros y Hy. apply H. now right.
Qed.

Lemma firstSome_Some {A B : Type} (f : A -> option B) (l : list A) (b : B) :
  firstSome f l = Some b -> exists x, In x l /\ f x = Some b.
Proof.
  induction l as [|x r IH]; [discriminate|]. simpl.
  destruct (f x) as [b'|] eqn:E.
  - intros [= <-]. exists x. auto.
  - intros H. destruct (IH H) as (y & Hy & Fy). exists y. auto.
Qed.

Lemma takeWhile_all (p : N -> bool) (s : jsstring) :
  forallb p s = true -> takeWhile p s = s.
Proof.
  induction s as [|c t IH]; [reflexivity|]. simpl. intros H.
  apply andb_true_iff in H as [-> Ht]. now rewrite IH.
Qed.

Lemma takeWhile_short (p : N -> bool) (s : jsstring) :
  forallb p s = false -> (length (takeWhile p s) < length s)%nat.
Proof.
  induction s as [|c t IH]; [discriminate|]. simpl.
  destruct (p c); simpl; [|lia]. intros H. specialize (IH H). lia.
Qed.

Lemma skipn_nil_length {A : Type} (n : nat) (l : list A) :
  skipn n l = [] -> (length l <= n)%nat.
Proof.
  revert l. induction n as [|n IH]; intros [|x r]; simpl; try lia.
  - discriminate.
  - intros H. specialize (IH r H). lia.
Qed.

(** A greedy [c*] as the last item takes the whole rest or fails. *)
Lemma matchItems_last_star (p : N -> bool) (s : jsstring) :
  matchItems [{| cls := p; rmin := 0; rmax := None; greedy := true |}] s
  = if forallb p s then Some [s] else None.
Proof.
  rewrite matchItems_cons. unfold counts. cbn [rmin rmax greedy cls].
  rewrite Nat.sub_0_r. destruct (forallb p s) eqn:F.
  - rewrite takeWhile_all by assumption.
    rewrite seq_S, rev_app_distr. simpl.
    now rewrite skipn_all, firstn_all.
  - apply firstSome_none. intros n Hn. apply in_rev, in_seq in Hn.
    pose proof (takeWhile_short p s F) as L.
    destruct (skipn n s) as [|c t] eqn:E; [|reflexivity].
    apply skipn_nil_length in E. lia.
Qed.

Lemma matchItems_literal (a : N) (re : list item) (s : jsstring) :
  matchItems (literal a :: re) s
  = match s with
    | [] => None
    | c :: t =>
        if canonicalize c =? canonicalize a
        then option_map (cons [c]) (matchItems re t)
        else None
    end.
Proof.
  rewrite matchItems_cons. destruct s as [|c t]; [reflexivity|].
  unfold counts. cbn [rmin rmax greedy cls literal takeWhile].
  destruct (canonicalize c =? canonicalize a); [|reflexivity].
  cbn [length Nat.min Nat.sub seq rev app firstSome skipn firstn].
  now destruct (matchItems re t).
Qed.

Lemma test_literals (p : jsstring) (re : list item) (x : jsstring) :
  test (map literal p ++ re) x = true
  <-> exists a b, x = a ++ b /\ sameFolded a p /\ test re b = true.
Proof.
  revert x. induction p as [|c p IH]; intros x.
  - simpl. split.
    + intros H. exists [], x. repeat split. exact H.
    + intros (a & b & -> & S & H). unfold sameFolded in S.
      destruct a; [exact H | discriminate].
  - cbn [map app]. unfold test at 1. rewrite matchItems_literal.
    destruct x as [|d t].
    + split; [discriminate|]. intros (a & b & E & S & _).
      unfold sameFolded in S. destruct a; [discriminate|]. discriminate.
    + destruct (canonicalize d =? canonicalize c) eqn:E; cbv iota.
      * specialize (IH t). unfold test at 1 in IH. apply N.eqb_eq in E.
        destruct (matchItems (map literal p ++ re) t) as [caps|]; cbn [option_map];
          rewrite IH; clear IH;
          (split;
           [ intros (a & b & -> & S & H); exists (d :: a), b;
             repeat split; [|exact H]; unfold sameFolded in *; simpl;
             now rewrite E, S
           | intros (a & b & Ex & S & H); unfold sameFolded in S;
             destruct a as [|d' a]; [discriminate|];
             injection Ex as <- ->; injection S as _ S; now exists a, b ]).
      * apply N.eqb_neq in E. split; [discriminate|].
        intros (a & b & Ex & S & _). unfold sameFolded in S.
        destruct a as [|d' a]; [discriminate|].
        injection Ex as <- ->. injection S as S _. contradiction.
Qed.

Lemma globToRegExp_literal (p : jsstring) :
  forallb (fun c => negb ((c =? 42) || (c =? 63))) p = true ->
  globToRegExp p = map literal p.
Proof.
  intros H. unfold globToRegExp. apply map_ext_in. intros c Hc.
  pose proof (forallb_In _ _ _ H Hc) as K. apply negb_true_iff in K.
  apply orb_false_iff in K as [-> ->]. reflexivity.
Qed.

Lemma test_nil (x : jsstring) : test [] x = true <-> x = [].
Proof. destruct x; unfold test; simpl; split; intros H; congruence || discriminate. Qed.

Lemma glob_literal_iff (p x : jsstring) :
  forallb (fun c => negb ((c =? 42) || (c =? 63))) p = true ->
  (test (globToRegExp p) x = true <-> sameFolded x p).
Proof.
  intros H. rewrite (globToRegExp_literal p H).
  rewrite <- (app_nil_r (map literal p)), test_literals. split.
  - intros (a & b & -> & S & T). apply test_nil in T. subst b.
    now rewrite app_nil_r.
  - intros S. exists x, []. rewrite app_nil_r.
    split; [reflexivity|]. split; [exact S|]. now apply test_nil.
Qed.

Lemma canonicalize_ascii (c x : N) :
  (x <? 128) = true -> canonicalize c = canonicalize x -> (c <? 128) = true.
Proof.
  unfold canonicalize. intros X E. apply N.ltb_lt in X. apply N.ltb_lt.
  destruct ((97 <=? c) && (c <=? 122)) eqn:C;
    destruct ((97 <=? x) && (x <=? 122)) eqn:K; bool_to_prop; lia.
Qed.

Lemma sameFolded_ascii (x p : jsstring) :
  forallb (fun c => c <? 128) p = true -> sameFolded x p ->
  forallb (fun c => c <? 128) x = true.
Proof.
  unfold sameFolded. revert p. induction x as [|c t IH]; intros [|y q] A E;
    try discriminate; [reflexivity|].
  cbn [map] in E. injection E as E1 E2.
  cbn [forallb] in A. apply andb_true_iff in A as [A1 A2].
  cbn [forallb]. rewrite (canonicalize_ascii c y A1 E1). now apply (IH q).
Qed.

(** X5. A glob of ASCII units without [*] and [?] matches exactly the
    strings that are equal to it up to the case of ASCII letters, which are
    ASCII strings themselves: the match is anchored at both ends and every
    unit of the glob, regular-expression operators included, stands for
    itself. *)
Theorem glob_without_wildcard (p x : jsstring) :
  forallb (fun c => c <? 128) p = true ->
  forallb (fun c => negb ((c =? 42) || (c =? 63))) p = true ->
  (test (globToRegExp p) x = true <-> sameFolded x p)
  /\ (test (globToRegExp p) x = true -> forallb (fun c => c <? 128) x = true).
Proof.
  intros A H. split; [exact (glob_literal_iff p x H)|].
  intros T. apply (sameFolded_ascii x p A). now apply (glob_literal_iff p x H).
Qed.

Lemma glob_without_wildcard_witness :
  (test (globToRegExp (u "a.b+c")) (u "A.B+C") = true
   <-> sameFolded (u "A.B+C") (u "a.b+c"))
  /\ (test (globToRegExp (u "a.b+c")) (u "A.B+C") = true ->
      forallb (fun c => c <? 128) (u "A.B+C") = true).
Proof.
  apply (glob_without_wildcard (u "a.b+c") (u "A.B+C")); reflexivity.
Defined.

(** X6. A glob that is a wildcard-free ASCII prefix followed by one [*]
    matches exactly the strings that start with the prefix, up to the case
    of ASCII letters, and go on without a line terminator; the part that
    matches the prefix is ASCII. *)
Theorem glob_prefix_star (p x : jsstring) :
  forallb (fun c => c <? 128) p = true ->
  forallb (fun c => negb ((c =? 42) || (c =? 63))) p = true ->
  (test (globToRegExp (p ++ [42])) x = true
   <-> exists a b, x = a ++ b /\ sameFolded a p
                   /\ forallb (fun c => c <? 128) a = true
                   /\ forallb (fun c => negb (isLineTerminator c)) b = true).
Proof.
  intros A H. unfold globToRegExp. rewrite map_app.
  fold (globToRegExp p). rewrite (globToRegExp_literal p H).
  cbn [map]. change (42 =? 42) with true. cbv iota.
  rewrite test_literals.
  assert (T : forall b, test [anyRun] b
                        = forallb (fun c => negb (isLineTerminator c)) b).
  { intros b. unfold test, anyRun. rewrite matchItems_last_star.
    now destruct (forallb _ b). }
  split.
  - intros (a & b & E & S & K). exists a, b.
    split; [exact E|]. split; [exact S|].
    split; [exact (sameFolded_ascii a p A S)|]. now rewrite <- T.
  - intros (a & b & E & S & _ & K). exists a, b.
    split; [exact E|]. split; [exact S|]. now rewrite T.
Qed.

Lemma glob_prefix_star_witness :
  test (globToRegExp (u "astro-" ++ [42])) (u "Astro-components") = true
  <-> exists a b, u "Astro-components" = a ++ b /\ sameFolded a (u "astro-")
                  /\ forallb (fun c => c <? 128) a = true
                  /\ forallb (fun c => negb (isLineTerminator c)) b = true.
Proof.
  apply (glob_prefix_star (u "astro-") (u "Astro-components")); reflexivity.
Defined.

Lemma slug_cases (c : N) :
  isSlugChar c = true -> 97 <= c <= 122 \/ 48 <= c <= 57 \/ c = 45.
Proof. intros H. char_facts. Qed.

Lemma canonicalize_slug_inj (a b : N) :
  isSlugChar a = true -> isSlugChar b = true ->
  canonicalize a = canonicalize b -> a = b.
Proof.
  intros Ha Hb. apply slug_cases in Ha, Hb. unfold canonicalize.
  destruct (N.leb_spec 97 a), (N.leb_spec a 122),
           (N.leb_spec 97 b), (N.leb_spec b 122); simpl; lia.
Qed.

Lemma sameFolded_slug (x d : jsstring) :
  forallb isSlugChar x = true -> forallb isSlugChar d = true ->
  sameFolded x d -> x = d.
Proof.
  unfold sameFolded. revert d. induction x as [|a x IH]; intros [|b d];
    simpl; try discriminate; [reflexivity|].
  intros Hx Hd E. apply andb_true_iff in Hx as [Ha Hx], Hd as [Hb Hd].
  injection E as E1 E2. f_equal; [now apply canonicalize_slug_inj | now apply IH].
Qed.

Lemma label_glob_is_equality (d x : jsstring) :
  isLabel d -> isLabel x -> test (globToRegExp d) x = str_eqb x d.
Proof.
  intros Ld Lx. destruct (slugify_grammar d d Ld) as (Sd & _).
  destruct (slugify_grammar x x Lx) as (Sx & _).
  assert (W : forallb (fun c => negb ((c =? 42) || (c =? 63))) d = true).
  { apply forallb_forall. intros c Hc. pose proof (forallb_In _ _ _ Sd Hc) as K.
    apply negb_true_iff, orb_false_iff. split; char_facts. }
  destruct (str_eqb x d) eqn:E.
  - apply str_eqb_eq in E. subst. now apply glob_literal_iff.
  - destruct (test (globToRegExp d) x) eqn:T; [|reflexivity].
    apply (glob_literal_iff d x W) in T. apply sameFolded_slug in T; try assumption.
    apply str_eqb_neq in E. contradiction.
Qed.

Lemma existsb_map {A B : Type} (f : B -> bool) (g : A -> B) (l : list A) :
  existsb f (map g l) = existsb (fun a => f (g a)) l.
Proof. induction l as [|a r IH]; simpl; [reflexivity | now rewrite IH]. Qed.

(** X7. For a configuration that [loadConfig] returned, the two denylist
    modes are one: on labels, which is what [processFile] filters, glob mode
    keeps and denies exactly what exact mode does.  (Every loaded entry is
    a label, so no pattern holds a wild card.) *)
Theorem loaded_glob_mode_is_exact (cfgPath : jsstring)
    (attempt : TryOutcome jsval) (conf : RequiredTaggerConfig)
    (newItems : list jsstring) :
  loadConfig cfgPath attempt = Ok conf ->
  Forall isLabel newItems ->
  filterNewWithDenylist newItems (denylist conf) Glob
  = filterNewWithDenylist newItems (denylist conf) Exact.
Proof.
  intros H L. rewrite Forall_forall in L.
  assert (D : forall d, In d (denylist conf) -> isLabel d)
    by (intros d; eapply loadConfig_denylist_labels, H).
  unfold filterNewWithDenylist. destruct (denylist conf) as [|d ds] eqn:E;
    [reflexivity|].
  assert (P : forall x, In x newItems ->
                existsb (fun re => test re x) (map globToRegExp (d :: ds))
                = has (d :: ds) x).
  { intros x Hx. rewrite existsb_map. unfold has.
    assert (G : forall l, (forall d', In d' l -> isLabel d') ->
                  existsb (fun a => test (globToRegExp a) x) l
                  = existsb (str_eqb x) l).
    { induction l as [|d' l IH]; intros Hl; [reflexivity|]. simpl.
      rewrite (label_glob_is_equality d' x) by (auto; apply Hl; now left).
      f_equal. apply IH. intros d'' H''. apply Hl. now right. }
    apply G. exact D. }
  f_equal; apply filter_ext_in; intros x Hx; now rewrite (P x Hx).
Qed.

Lemma loaded_glob_mode_is_exact_witness :
  match loadConfig (u "tagger.config.json") (Returned globConfig) with
  | Ok conf =>
      filterNewWithDenylist [u "astro-components"; u "astro"] (denylist conf) Glob
      = filterNewWithDenylist [u "astro-components"; u "astro"] (denylist conf) Exact
  | Throw _ => False
  end.
Proof.
  destruct (loadConfig (u "tagger.config.json") (Returned globConfig))
    as [conf|e] eqn:E.
  - refine (loaded_glob_mode_is_exact (u "tagger.config.json")
              (Returned globConfig) conf _ E _).
    constructor; [vm_compute; reflexivity|].
    constructor; [vm_compute; reflexivity | constructor].
  - vm_compute in E. discriminate.
Defined.

(** ** The configuration, whatever the file holds *)

Lemma dropWhileEnd_idem (p : N -> bool) (s : jsstring) :
  dropWhileEnd p (dropWhileEnd p s) = dropWhileEnd p s.
Proof.
  induction s as [|c t IH]; [reflexivity|].
  rewrite dropWhileEnd_cons. destruct (dropWhileEnd p t) as [|d r] eqn:E.
  - destruct (p c) eqn:P; [reflexivity|]. simpl. now rewrite P.
  - rewrite dropWhileEnd_cons, IH. reflexivity.
Qed.

Lemma dropWhile_head (p : N -> bool) (s : jsstring) (c : N) (r : jsstring) :
  dropWhile p s = c :: r -> p c = false.
Proof.
  induction s as [|d t IH]; [discriminate|]. simpl.
  destruct (p d) eqn:P; [exact IH|]. intros [= <- _]. exact P.
Qed.

Lemma trim_head (s : jsstring) (c : N) (r : jsstring) :
  trim s = c :: r -> isWhiteSpace c = false.
Proof.
  unfold trim. destruct (dropWhile isWhiteSpace s) as [|d t] eqn:E;
    [discriminate|].
  pose proof (dropWhile_head _ _ _ _ E) as P. rewrite dropWhileEnd_cons.
  destruct (dropWhileEnd isWhiteSpace t).
  - rewrite P. now intros [= <- _].
  - now intros [= <- _].
Qed.

Lemma trim_idem (s : jsstring) : trim (trim s) = trim s.
Proof.
  destruct (trim s) as [|c r] eqn:E; [reflexivity|].
  pose proof (trim_head _ _ _ E) as P. rewrite <- E. unfold trim at 1.
  rewrite E. simpl dropWhile. rewrite P. rewrite <- E. unfold trim.
  apply dropWhileEnd_idem.
Qed.

Lemma trimmedOr_shape (v : option jsval) (d : jsstring) :
  d <> [] -> trim d = d ->
  trimmedOr (fun s => s) v d <> []
  /\ trim (trimmedOr (fun s => s) v d) = trimmedOr (fun s => s) v d.
Proof.
  intros Hd Ht. unfold trimmedOr. destruct v as [[| | |s| |]|]; auto.
  destruct (trim s) as [|c r] eqn:E; auto. rewrite <- E.
  split; [rewrite E; discriminate | apply trim_idem].
Qed.

(** What [loadConfig] returns is the defaults or is built from a parsed
    file field by field. *)
Lemma loadConfig_fields (cfgPath : jsstring) (attempt : TryOutcome jsval)
    (conf : RequiredTaggerConfig) :
  loadConfig cfgPath attempt = Ok conf ->
  conf = defaults
  \/ exists raw,
       contentDir conf
         = trimmedOr (fun s => s) (getProp raw (u "contentDir")) (contentDir defaults)
       /\ cacheFile conf
          = trimmedOr (fun s => s) (getProp raw (u "cacheFile")) (cacheFile defaults)
       /\ cacheSimilarityThreshold conf
          = match getProp raw (u "cacheSimilarityThreshold") with
            | Some (VNum (Finite q)) => clampNumber q 0 1
            | _ => cacheSimilarityThreshold defaults
            end.
Proof.
  unfold loadConfig. destruct (readJsonFile cfgPath attempt) as [raw|e];
    [|discriminate].
  cbv beta iota delta [bind].
  destruct (negb (truthy raw)); [intros H; injection H as <-; now left|].
  destruct (Qlt_bool _ 1); [discriminate|].
  destruct (Qlt_bool _ _); [discriminate|].
  intros H. injection H as <-. right. exists raw. simpl. auto.
Qed.

(** X8. Every configuration [loadConfig] returns is in order: [min] is at
    least 1 and at most [max], the similarity threshold lies between 0 and
    1, every denylist entry is a normalised label, and the content
    directory and the cache path are non-empty and carry no white space
    around them. *)
Theorem loaded_config_in_order (cfgPath : jsstring) (attempt : TryOutcome jsval)
    (conf : RequiredTaggerConfig) :
  loadConfig cfgPath attempt = Ok conf ->
  (1 <= min conf <= max conf)%Q
  /\ (0 <= cacheSimilarityThreshold conf <= 1)%Q
  /\ Forall isLabel (denylist conf)
  /\ contentDir conf <> [] /\ trim (contentDir conf) = contentDir conf
  /\ cacheFile conf <> [] /\ trim (cacheFile conf) = cacheFile conf.
Proof.
  intros H. split; [apply (loadConfig_valid _ _ _ H)|].
  assert (L : Forall isLabel (denylist conf)).
  { apply Forall_forall. intros d. eapply loadConfig_denylist_labels, H. }
  destruct (loadConfig_fields _ _ _ H) as [->|(raw & Ec & Ef & Et)].
  - split; [split; discriminate|]. split; [constructor|].
    repeat split; try discriminate; vm_compute; reflexivity.
  - split.
    + rewrite Et. destruct (getProp raw (u "cacheSimilarityThreshold"))
        as [[| |[q| | |]| | |]|]; try (split; discriminate).
      apply clampNumber_range.
    + split; [exact L|]. rewrite Ec, Ef.
      destruct (trimmedOr_shape (getProp raw (u "contentDir")) (contentDir defaults))
        as [A B]; [discriminate | vm_compute; reflexivity |].
      destruct (trimmedOr_shape (getProp raw (u "cacheFile")) (cacheFile defaults))
        as [C D]; [discriminate | vm_compute; reflexivity |].
      auto.
Qed.

Lemma loaded_config_in_order_witness :
  match loadConfig (u "tagger.config.json") (Returned overshootConfig) with
  | Ok conf =>
      (1 <= min conf <= max conf)%Q
      /\ (0 <= cacheSimilarityThreshold conf <= 1)%Q
      /\ Forall isLabel (denylist conf)
      /\ contentDir conf <> [] /\ trim (contentDir conf) = contentDir conf
      /\ cacheFile conf <> [] /\ trim (cacheFile conf) = cacheFile conf
  | Throw _ => False
  end.
Proof.
  destruct (loadConfig (u "tagger.config.json") (Returned overshootConfig))
    as [conf|e] eqn:E.
  - exact (loaded_config_in_order _ _ conf E).
  - vm_compute in E. discriminate.
Defined.

(** X9. How [loadConfig] validates a parsed file that is not falsy.  With
    [min] and [max] read from the file, or 3 and 12 where the file gives no
    finite number: a [min] below 1 is reported first; otherwise a [max]
    below [min] is reported; otherwise loading succeeds with these two
    values.  So a file that only sets [max] to 2 is rejected, for the
    default [min] is 3. *)
Theorem loadConfig_validation (cfgPath : jsstring) (raw : jsval) :
  truthy raw = true ->
  let min' := finiteOr (getProp raw (u "min")) 3 in
  let max' := finiteOr (getProp raw (u "max")) 12 in
  ((min' < 1)%Q ->
     loadConfig cfgPath (Returned raw) = Throw (ConfigMinError min'))
  /\ ((1 <= min')%Q -> (max' < min')%Q ->
        loadConfig cfgPath (Returned raw) = Throw (ConfigMaxError max'))
  /\ ((1 <= min')%Q -> (min' <= max')%Q ->
        exists conf, loadConfig cfgPath (Returned raw) = Ok conf
                     /\ min conf = min' /\ max conf = max').
Proof.
  intros T min' max'.
  pose proof (loadConfig_returned cfgPath raw T) as R.
  cbv zeta in R. change (min defaults) with 3%Q in R.
  change (max defaults) with 12%Q in R. fold min' max' in R.
  destruct R as [[A E]|[(A & B & E)|(A & B & conf & E & Hmin & Hmax & _)]].
  - apply Qlt_bool_true in A. repeat split; intros; try lra. exact E.
  - apply Qlt_bool_false in A. apply Qlt_bool_true in B.
    repeat split; intros; try lra. exact E.
  - apply Qlt_bool_false in A, B. repeat split; intros; try lra. eauto.
Qed.

Lemma loadConfig_validation_witness :
  loadConfig (u "tagger.config.json")
    (Returned (VObj [(u "max", VNum (Finite 2))]))
  = Throw (ConfigMaxError 2).
Proof.
  refine (proj1 (proj2 (loadConfig_validation (u "tagger.config.json")
                          (VObj [(u "max", VNum (Finite 2))]) eq_refl)) _ _);
    vm_compute; congruence.
Defined.

(** X10. [clampNumber] with bounds in order returns a number within the
    bounds, the argument itself when it already lies within them, and
    clamping twice is clamping once; with bounds out of order it returns
    the lower one. *)
Theorem clampNumber_bounds (v lo hi : Q) :
  ((lo <= hi)%Q ->
     (lo <= clampNumber v lo hi <= hi)%Q
     /\ ((lo <= v <= hi)%Q -> clampNumber v lo hi == v)
     /\ clampNumber (clampNumber v lo hi) lo hi == clampNumber v lo hi)
  /\ ((hi < lo)%Q -> clampNumber v lo hi == lo).
Proof.
  unfold clampNumber.
  destruct (Q.min_spec hi v) as [[A B]|[A B]];
  destruct (Q.max_spec lo (Qmin hi v)) as [[C D]|[C D]];
  destruct (Q.min_spec hi (Qmax lo (Qmin hi v))) as [[E F]|[E F]];
  destruct (Q.max_spec lo (Qmin hi (Qmax lo (Qmin hi v)))) as [[G I]|[G I]];
  repeat split; intros; lra.
Qed.

(** ** Words and keywords *)

Lemma split_chars (sep : N) (s w : jsstring) (c : N) :
  In w (split sep s) -> In c w -> In c s.
Proof.
  revert w. induction s as [|d t IH]; intros w; simpl.
  - intros [<-|[]] [].
  - destruct (d =? sep).
    + intros [<-|H] Hc; [destruct Hc|]. right. eapply IH; eauto.
    + destruct (split sep t) as [|w0 ws] eqn:S.
      * intros [<-|[]] [->|[]]. now left.
      * intros [<-|H] Hc.
        -- destruct Hc as [->|Hc]; [now left|]. right. apply (IH w0); auto.
           now left.
        -- right. apply (IH w); auto. now right.
Qed.

Lemma wordText_chars (text : jsstring) (c : N) :
  In c (wordText text) -> isSlugChar c = true \/ c = SPACE.
Proof.
  intros H.
  assert (F : forallb (fun c => isSlugChar c || (c =? SPACE)) (wordText text) = true).
  { unfold wordText. apply trim_forallb, replaceRuns_forallb; [reflexivity|].
    intros d Hd W.
    assert (S : forallb isSlugOrSpace
                  (replaceEach (fun c => negb (isSlugOrSpace c)) [SPACE]
                     (replaceMatches urlLen [SPACE] 0 (toLowerCase text))) = true).
    { apply replaceEach_forallb; [reflexivity|].
      intros e _ E. now apply negb_false_iff in E. }
    pose proof (forallb_In _ _ _ S Hd) as K. unfold isSlugOrSpace in K.
    rewrite W, orb_false_r in K. now rewrite K. }
  pose proof (forallb_In _ _ _ F H) as K. apply orb_true_iff in K as [K|K]; auto.
  right. now apply N.eqb_eq.
Qed.

Lemma extractWords_In (text w : jsstring) :
  In w (extractWords text) ->
  (3 <= length w)%nat /\ ~ In w STOPWORDS /\ forallb isSlugChar w = true.
Proof.
  rewrite extractWords_wordText, !filter_In. intros [[S L] N].
  split; [now apply Nat.leb_le|]. split.
  - apply negb_true_iff in N. now apply has_not_In.
  - apply forallb_forall. intros c Hc.
    destruct (wordText_chars text c (split_chars _ _ _ _ S Hc)) as [K| ->];
      [exact K|].
    exfalso. exact (split_no_sep _ _ _ S Hc).
Qed.

(** X11. Every word [extractWords] returns has at least three units, all of
    them lower-case letters, digits or hyphens, and is not a stopword. *)
Theorem extractWords_words (text : jsstring) :
  Forall (fun w => (3 <= length w)%nat /\ ~ In w STOPWORDS
                   /\ forallb isSlugChar w = true)
         (extractWords text).
Proof. apply Forall_forall. intros w. apply extractWords_In. Qed.

Lemma bump_spec (w : jsstring) (m : list (jsstring * nat)) :
  NoDup (map fst m) ->
  NoDup (map fst (bump w m))
  /\ forall k n, In (k, n) (bump w m)
       <-> (k = w /\ ((~ In w (map fst m) /\ n = 1%nat)
                      \/ exists n0, In (w, n0) m /\ n = S n0))
           \/ (k <> w /\ In (k, n) m).
Proof.
  induction m as [|[k0 n0] r IH]; intros D.
  - simpl. split; [repeat constructor; auto|].
    intros k n. split.
    + intros [[= <- <-]|[]]. left. split; [reflexivity|]. left. auto.
    + intros [[-> [[_ ->]|(n1 & [] & _)]]|[_ []]]. now left.
  - inversion D as [|? ? Hn D']; subst. simpl in Hn. simpl.
    destruct (str_eqb k0 w) eqn:E.
    + apply str_eqb_eq in E. subst k0. split; [simpl; now constructor|].
      intros k n. simpl. split.
      * intros [[= <- <-]|H].
        -- left. split; [reflexivity|]. right. exists n0. auto.
        -- right. split; [|auto]. intros ->. apply Hn.
           apply (in_map fst) in H. exact H.
      * intros [[-> [[F _]|(n1 & [[= <-]|H] & ->)]]|[Dk [[= <- <-]|H]]]; auto.
        -- exfalso. apply F. now left.
        -- exfalso. apply Hn. apply (in_map fst) in H. exact H.
        -- congruence.
    + apply str_eqb_neq in E. destruct (IH D') as [IH1 IH2]. split.
      * simpl. constructor; [|exact IH1].
        intros F. apply in_map_iff in F as ([k n] & Ek & F). simpl in Ek. subst k.
        apply IH2 in F as [[-> _]|[_ F]]; [congruence|].
        apply Hn. apply (in_map fst) in F. exact F.
      * intros k n. simpl. rewrite IH2. split.
        -- intros [[= <- <-]|[[-> [[F ->]|(n1 & H & ->)]]|[Dk H]]].
           ++ right. auto.
           ++ left. split; [reflexivity|]. left. split; [|reflexivity].
              intros [G|G]; [congruence | contradiction].
           ++ left. split; [reflexivity|]. right. exists n1. auto.
           ++ right. auto.
        -- intros [[-> [[F ->]|(n1 & [[= -> _]|H] & ->)]]|[Dk [[= <- <-]|H]]].
           ++ right. left. split; [reflexivity|]. left. split; [|reflexivity].
              intros G. apply F. now right.
           ++ congruence.
           ++ right. left. split; [reflexivity|]. right. exists n1. auto.
           ++ now left.
           ++ right. right. auto.
Qed.

Lemma occurrences_snoc (seen : list jsstring) (w k : jsstring) :
  occurrences (seen ++ [w]) k
  = (occurrences seen k + (if list_eq_dec N.eq_dec w k then 1 else 0))%nat.
Proof.
  unfold occurrences. rewrite count_occ_app. simpl.
  now destruct (list_eq_dec N.eq_dec w k).
Qed.

Lemma countsOf_bump (seen : list jsstring) (m : list (jsstring * nat))
    (w : jsstring) :
  countsOf seen m -> countsOf (seen ++ [w]) (bump w m).
Proof.
  intros [D Sp]. destruct (bump_spec w m D) as [D' B]. split; [exact D'|].
  intros k n. rewrite B, occurrences_snoc.
  destruct (list_eq_dec N.eq_dec w k) as [<-|Dk].
  - split.
    + intros [[_ [[F ->]|(n0 & H & ->)]]|[Dk _]]; [| |congruence].
      * destruct (occurrences seen w) as [|o] eqn:O; [auto|].
        exfalso. apply F. apply (in_map fst m (w, S o)). apply Sp. split; [auto|lia].
      * apply Sp in H as [-> _]. split; lia.
    + intros [-> _]. left. split; [reflexivity|].
      destruct (occurrences seen w) as [|o] eqn:O.
      * left. split; [|reflexivity]. intros F.
        apply in_map_iff in F as ([k n] & Ek & F). simpl in Ek. subst k.
        apply Sp in F as [-> F]. lia.
      * right. exists (S o). split; [|lia]. apply Sp. split; [auto|lia].
  - rewrite Nat.add_0_r. split.
    + intros [[-> _]|[_ H]]; [congruence|]. now apply Sp.
    + intros H. right. split; [congruence|]. now apply Sp.
Qed.

Lemma countsOf_fold (ws seen : list jsstring) (m : list (jsstring * nat)) :
  countsOf seen m ->
  countsOf (seen ++ ws) (fold_left (fun m w => bump w m) ws m).
Proof.
  revert seen m. induction ws as [|w ws IH]; intros seen m H; simpl.
  - now rewrite app_nil_r.
  - replace (seen ++ w :: ws) with ((seen ++ [w]) ++ ws)
      by (now rewrite <- app_assoc).
    apply IH, countsOf_bump, H.
Qed.

Lemma countWords_spec (ws : list jsstring) : countsOf ws (countWords ws).
Proof.
  apply (countsOf_fold ws [] []). split; [constructor|].
  intros k n. simpl. split; [tauto|]. intros [-> F]. unfold occurrences in F.
  simpl in F. lia.
Qed.

Lemma insertByCount_Permutation (x : jsstring * nat) (l : list (jsstring * nat)) :
  Permutation (insertByCount x l) (x :: l).
Proof.
  induction l as [|y r IH]; simpl; [reflexivity|].
  destruct (snd y <=? snd x)%nat; [reflexivity|].
  rewrite IH. apply perm_swap.
Qed.

Lemma sortByCount_Permutation (l : list (jsstring * nat)) :
  Permutation (sortByCount l) l.
Proof.
  induction l as [|x r IH]; simpl; [reflexivity|].
  rewrite insertByCount_Permutation. now constructor.
Qed.

Lemma insertByCount_sorted (x : jsstring * nat) (l : list (jsstring * nat)) :
  StronglySorted (fun a b => (snd b <= snd a)%nat) l ->
  StronglySorted (fun a b => (snd b <= snd a)%nat) (insertByCount x l).
Proof.
  induction l as [|y r IH]; intros H; simpl; [repeat constructor|].
  inversion H as [|? ? Hr Hy]; subst.
  destruct (snd y <=? snd x)%nat eqn:E.
  - apply Nat.leb_le in E. constructor; [exact H|].
    constructor; [exact E|]. rewrite Forall_forall in *. intros z Hz.
    specialize (Hy z Hz). simpl in *. lia.
  - apply Nat.leb_gt in E. constructor; [now apply IH|].
    rewrite Forall_forall in *. intros z Hz.
    apply (Permutation_in _ (insertByCount_Permutation x r)) in Hz.
    destruct Hz as [<-|Hz]; [lia | now apply Hy].
Qed.

Lemma sortByCount_sorted (l : list (jsstring * nat)) :
  StronglySorted (fun a b => (snd b <= snd a)%nat) (sortByCount l).
Proof.
  induction l as [|x r IH]; simpl; [constructor | now apply insertByCount_sorted].
Qed.

Lemma StronglySorted_firstn {A : Type} (R : A -> A -> Prop) (k : nat) (l : list A) :
  StronglySorted R l -> StronglySorted R (firstn k l).
Proof.
  revert l. induction k as [|k IH]; intros [|x r] H; simpl; try constructor.
  - inversion H; subst. now apply IH.
  - inversion H as [|? ? _ F]; subst. rewrite Forall_forall in *.
    intros z Hz. apply F. eapply In_firstn, Hz.
Qed.

Lemma Qmax_0_cases (limit : Q) :
  (Qmax 0 limit = limit /\ (0 < limit)%Q) \/ (Qmax 0 limit = 0%Q /\ (limit <= 0)%Q).
Proof.
  unfold Qmax, GenericMinMax.gmax. destruct (0 ?= limit)%Q eqn:E.
  - right. split; [reflexivity|]. apply Qeq_alt in E. rewrite <- E. apply Qle_refl.
  - left. split; [reflexivity|]. now apply Qlt_alt.
  - right. split; [reflexivity|]. apply Qgt_alt in E. now apply Qlt_le_weak.
Qed.

(** X12. The keywords [topKeywords] returns are words of the text, pairwise
    different, in non-increasing order of how often they occur in it, and
    at most [limit] of them; a limit of 0 or less gives none. *)
Theorem topKeywords_ranked (text : jsstring) (limit : Q) :
  let ks := topKeywords text limit in
  NoDup ks
  /\ (forall k, In k ks -> In k (extractWords text))
  /\ StronglySorted
       (fun a b => (occurrences (extractWords text) b
                    <= occurrences (extractWords text) a)%nat) ks
  /\ (length ks <= Z.to_nat (truncate limit))%nat
  /\ ((limit <= 0)%Q -> ks = []).
Proof.
  cbv zeta. unfold topKeywords.
  set (ws := extractWords text).
  destruct (countWords_spec ws) as [D S].
  set (sorted := sortByCount (countWords ws)).
  assert (P : Permutation sorted (countWords ws)) by apply sortByCount_Permutation.
  assert (N0 : (0 <= Qmax 0 limit)%Q) by apply Q.le_max_l.
  rewrite sliceTo_nonneg by exact N0.
  set (k := Z.to_nat (truncate (Qmax 0 limit))).
  assert (M : forall kn, In kn (firstn k sorted) ->
                snd kn = occurrences ws (fst kn) /\ (0 < snd kn)%nat).
  { intros [w n] H. apply In_firstn in H. apply (Permutation_in _ P) in H.
    now apply S. }
  split; [|split; [|split; [|split]]].
  - rewrite <- firstn_map. apply NoDup_firstn.
    apply (Permutation_NoDup (Permutation_sym (Permutation_map fst P))), D.
  - intros w H. apply in_map_iff in H as (kn & <- & H).
    destruct (M kn H) as [E L]. unfold occurrences in E.
    apply (count_occ_In (list_eq_dec N.eq_dec)). lia.
  - assert (T : StronglySorted (fun a b => (snd b <= snd a)%nat) (firstn k sorted))
      by apply StronglySorted_firstn, sortByCount_sorted.
    revert M T. generalize (firstn k sorted). clear.
    induction l as [|x r IH]; intros M T; simpl; [constructor|].
    inversion T as [|? ? Tr F]; subst. constructor.
    + apply IH; [|exact Tr]. intros kn H. apply M. now right.
    + rewrite Forall_forall in *. intros w H.
      apply in_map_iff in H as (kn & <- & H).
      destruct (M kn (or_intror H)) as [<- _].
      destruct (M x (or_introl eq_refl)) as [<- _]. now apply F.
  - rewrite length_map, length_firstn. unfold k.
    destruct (Qmax_0_cases limit) as [[-> _]|[-> _]]; [lia|].
    change (truncate 0) with 0%Z. simpl. lia.
  - intros L. unfold k. destruct (Qmax_0_cases limit) as [[_ F]|[-> _]]; [lra|].
    reflexivity.
Qed.

(** ** Code blocks *)

Lemma replaceMatches_id (matchLen : jsstring -> option nat) (r : jsstring)
    (p : N -> bool) (s : jsstring) :
  (forall c t, p c = true -> matchLen (c :: t) = None) ->
  forallb p s = true ->
  replaceMatches matchLen r 0 s = s.
Proof.
  intros M. induction s as [|c t IH]; [reflexivity|]. simpl. intros H.
  apply andb_true_iff in H as [Hc Ht]. rewrite (M c t Hc). now rewrite IH.
Qed.

(** X13. A text without a back-tick has no code block: [stripCodeBlocks]
    returns it unchanged. *)
Theorem stripCodeBlocks_no_backtick (markdown : jsstring) :
  forallb (fun c => negb (c =? BACKTICK)) markdown = true ->
  stripCodeBlocks markdown = markdown.
Proof.
  intros H. unfold stripCodeBlocks.
  rewrite (replaceMatches_id fencedLen [SPACE] (fun c => negb (c =? BACKTICK)));
    [| |exact H].
  - apply (replaceMatches_id inlineLen [SPACE] (fun c => negb (c =? BACKTICK)));
      [|exact H].
    intros c t Hc. apply negb_true_iff in Hc. simpl. now rewrite Hc.
  - intros c t Hc. apply negb_true_iff in Hc. unfold fencedLen. simpl.
    change (c =? 96) with (c =? BACKTICK). now rewrite Hc.
Qed.

Lemma stripCodeBlocks_no_backtick_witness :
  stripCodeBlocks (u "APIs are about contracts.") = u "APIs are about contracts.".
Proof.
  apply (stripCodeBlocks_no_backtick (u "APIs are about contracts.")).
  reflexivity.
Defined.

(** ** Heading lines *)

Lemma takeWhile_app_stop (p : N -> bool) (a b : jsstring) :
  forallb p a = true ->
  match b with [] => True | c :: _ => p c = false end ->
  takeWhile p (a ++ b) = a.
Proof.
  intros Ha Hb. induction a as [|x a IH]; simpl.
  - destruct b as [|c b]; [reflexivity|]. simpl. now rewrite Hb.
  - simpl in Ha. apply andb_true_iff in Ha as [-> Ha]. now rewrite IH.
Qed.

Lemma skipn_app_exact {A : Type} (a b : list A) : skipn (length a) (a ++ b) = b.
Proof. induction a; simpl; auto. Qed.

Lemma firstn_app_exact {A : Type} (a b : list A) : firstn (length a) (a ++ b) = a.
Proof. induction a; simpl; [reflexivity | now f_equal]. Qed.

Lemma rev_seq_S (start len : nat) :
  rev (seq start (S len)) = (start + len)%nat :: rev (seq start len).
Proof. rewrite seq_S, rev_app_distr. reflexivity. Qed.

Lemma forallb_false_In (p : N -> bool) (s : jsstring) (c : N) :
  In c s -> p c = false -> forallb p s = false.
Proof.
  intros H P. destruct (forallb p s) eqn:F; [|reflexivity].
  rewrite (forallb_In _ _ _ F H) in P. discriminate.
Qed.

Lemma lastUnit_skipn (s : jsstring) (n : nat) :
  (n < length s)%nat -> In (lastUnit s) (skipn n s).
Proof.
  unfold lastUnit. revert n. induction s as [|c t IH]; intros n H;
    [simpl in H; lia|].
  destruct n as [|n].
  - simpl skipn. destruct t as [|d t']; [now left|].
    right. apply (IH 0%nat). simpl. lia.
  - simpl skipn. destruct t as [|d t']; [simpl in H; lia|].
    change (last (c :: d :: t') 0) with (last (d :: t') 0).
    apply IH. simpl in *. lia.
Qed.

Lemma repeat_hash_all (n : nat) :
  forallb (isChar HASH) (repeat HASH n) = true.
Proof. induction n as [|n IH]; simpl; [reflexivity | exact IH]. Qed.

Section HeadingLine.

Variables (k : nat) (gap text tail : jsstring).
Hypothesis hashes : (1 <= k <= 6)%nat.
Hypothesis gap_space : gap <> [] /\ forallb isWhiteSpace gap = true.
Hypothesis text_first :
  match text with [] => False | c :: _ => isWhiteSpace c = false end.
Hypothesis text_last : isWhiteSpace (lastUnit text) = false.
Hypothesis text_line : forallb (fun c => negb (isLineTerminator c)) text = true.
Hypothesis tail_space : forallb isWhiteSpace tail = true.

Let wsStar : item :=
  {| cls := isWhiteSpace; rmin := 0; rmax := None; greedy := true |}.

Lemma heading_text_step :
  matchItems [ {| cls := fun c => negb (isLineTerminator c);
                  rmin := 1; rmax := None; greedy := false |}; wsStar ]
             (text ++ tail)
  = Some [text; tail].
Proof.
  rewrite matchItems_cons. unfold counts. cbn [rmin rmax greedy cls].
  set (avail := length (takeWhile (fun c => negb (isLineTerminator c)) (text ++ tail))).
  assert (A : (length text <= avail)%nat).
  { unfold avail. clear -text_line. induction text as [|c t IH]; simpl; [lia|].
    simpl in text_line. apply andb_true_iff in text_line as [-> Ht].
    simpl. specialize (IH Ht). lia. }
  assert (T : (1 <= length text)%nat).
  { destruct text; [contradiction | simpl; lia]. }
  replace (S avail - 1)%nat with ((length text - 1) + S (avail - length text))%nat
    by lia.
  rewrite seq_app. rewrite firstSome_skip.
  - replace (1 + (length text - 1))%nat with (length text) by lia.
    cbn [seq firstSome].
    rewrite skipn_app_exact, firstn_app_exact. unfold wsStar.
    rewrite matchItems_last_star, tail_space. reflexivity.
  - intros n Hn. apply in_seq in Hn. unfold wsStar.
    rewrite matchItems_last_star.
    assert (F : forallb isWhiteSpace (skipn n (text ++ tail)) = false).
    { apply (forallb_false_In _ _ (lastUnit text)); [|exact text_last].
      rewrite skipn_app. apply in_or_app. left. apply lastUnit_skipn. lia. }
    now rewrite F.
Qed.

Lemma heading_gap_step :
  matchItems (tl headingRe) (gap ++ text ++ tail) = Some [gap; text; tail].
Proof.
  destruct gap_space as [G1 G2]. unfold headingRe. cbn [tl].
  rewrite matchItems_cons. unfold counts. cbn [rmin rmax greedy cls].
  rewrite takeWhile_app_stop; [|exact G2|].
  - destruct gap as [|g gs] eqn:Eg; [contradiction|]. rewrite <- Eg in *.
    assert (L : length gap = S (length gs)) by (rewrite Eg; reflexivity).
    rewrite L. replace (S (S (length gs)) - 1)%nat with (S (length gs)) by lia.
    rewrite rev_seq_S. cbn [firstSome].
    replace (1 + length gs)%nat with (length gap) by lia.
    rewrite skipn_app_exact, firstn_app_exact.
    fold wsStar. now rewrite heading_text_step.
  - destruct text as [|c t]; [contradiction|]. exact text_first.
Qed.

Lemma heading_line_matches :
  headingOfLine (repeat HASH k ++ gap ++ text ++ tail) = [text].
Proof.
  unfold headingOfLine.
  assert (M : matchItems headingRe (repeat HASH k ++ gap ++ text ++ tail)
              = Some [repeat HASH k; gap; text; tail]).
  { change headingRe with (hd anyChar headingRe :: tl headingRe).
    rewrite matchItems_cons. unfold counts. cbn [hd headingRe rmin rmax greedy cls].
    rewrite takeWhile_app_stop.
    - rewrite repeat_length.
      replace (Nat.min 6 k) with k by lia.
      replace (S k - 1)%nat with (S (k - 1)) by lia.
      rewrite rev_seq_S. cbn [firstSome].
      replace (1 + (k - 1))%nat with (length (repeat HASH k))
        by (rewrite repeat_length; lia).
      rewrite skipn_app_exact, firstn_app_exact.
      now rewrite heading_gap_step.
    - apply repeat_hash_all.
    - destruct gap_space as [G1 G2]. destruct gap as [|g gs]; [contradiction|].
      simpl in *. apply andb_true_iff in G2 as [G2 _].
      unfold isChar. apply N.eqb_neq. intros ->. discriminate. }
  rewrite M. destruct text; [contradiction | reflexivity].
Qed.

End HeadingLine.

Lemma split_single (sep : N) (s : jsstring) :
  ~ In sep s -> split sep s = [s].
Proof.
  induction s as [|c t IH]; intros H; simpl; [reflexivity|].
  destruct (c =? sep) eqn:E.
  - apply N.eqb_eq in E. exfalso. apply H. now left.
  - rewrite IH; [reflexivity|]. intros F. apply H. now right.
Qed.

(** X14. A line made of one to six hash signs, then white space, then a
    text that neither starts nor ends with white space and holds no line
    terminator, then white space only, is a heading, and the heading is
    exactly that text: wherever such a line stands in a document, between
    the headings of what comes before it and of what comes after it. *)
Theorem heading_line_text (before after gap text tail : jsstring) (k : nat) :
  (1 <= k <= 6)%nat ->
  gap <> [] ->
  forallb isWhiteSpace gap = true ->
  text <> [] ->
  isWhiteSpace (hd 0 text) = false ->
  isWhiteSpace (lastUnit text) = false ->
  forallb (fun c => negb (isLineTerminator c)) text = true ->
  forallb isWhiteSpace tail = true ->
  ~ In LF (gap ++ tail) ->
  extractHeadings
    (before ++ LF :: (repeat HASH k ++ gap ++ text ++ tail) ++ LF :: after)
  = extractHeadings before ++ text :: extractHeadings after.
Proof.
  intros K G1 G2 T0 T1 T2 T3 T4 NL.
  rewrite extractHeadings_app. f_equal.
  rewrite extractHeadings_app.
  change (text :: extractHeadings after) with ([text] ++ extractHeadings after).
  f_equal. unfold extractHeadings.
  rewrite split_single.
  - cbn [flat_map]. rewrite app_nil_r.
    apply heading_line_matches; auto.
    destruct text; [contradiction | exact T1].
  - intros F. apply in_app_or in F as [F|F].
    + apply repeat_spec in F. discriminate.
    + apply in_app_or in F as [F|F]; [apply NL, in_or_app; now left|].
      apply in_app_or in F as [F|F]; [|apply NL, in_or_app; now right].
      rewrite forallb_forall in T3. specialize (T3 _ F). discriminate.
Qed.

Lemma heading_line_text_witness :
  extractHeadings (u "intro" ++ LF :: u "##  Real title  " ++ LF :: u "# Next")
  = extractHeadings (u "intro") ++ u "Real title" :: extractHeadings (u "# Next").
Proof.
  apply (heading_line_text (u "intro") (u "# Next") (u "  ") (u "Real title")
           (u "  ") 2); try reflexivity; try lia; try discriminate.
  vm_compute. intros [F|[F|[F|[F|[]]]]]; discriminate.
Defined.

Lemma str_eqb_sym (a b : jsstring) : str_eqb a b = str_eqb b a.
Proof.
  destruct (str_eqb b a) eqn:E.
  - apply str_eqb_eq in E. subst. apply str_eqb_refl.
  - apply str_eqb_neq. apply str_eqb_neq in E. congruence.
Qed.

Ltac decide_options :=
  repeat match goal with
  | |- context [str_eqb (u ?x) (u ?y)] =>
      let b := eval vm_compute in (str_eqb (u x) (u y)) in
      change (str_eqb (u x) (u y)) with b
  | H : context [str_eqb (u ?x) (u ?y)] |- _ =>
      let b := eval vm_compute in (str_eqb (u x) (u y)) in
      change (str_eqb (u x) (u y)) with b in H
  end.

Lemma parseLoop_flags (argv : list jsstring) (c cfg : CliConfig) :
  parseLoop argv c = Parsed cfg ->
  write cfg = write c || has argv (u "--write")
  /\ verbose cfg = verbose c || has argv (u "--verbose")
  /\ cacheRebuild cfg = cacheRebuild c || has argv (u "--cache-rebuild")
  /\ (has argv (u "--dry-run") = false ->
      dryRun cfg = dryRun c && negb (has argv (u "--write")))
  /\ (has argv (u "--write") = false ->
      dryRun cfg = dryRun c || has argv (u "--dry-run"))
  /\ (has argv (u "--config") = false -> configFile cfg = configFile c)
  /\ (has argv (u "--file") = false -> singleFile cfg = singleFile c)
  /\ has argv (u "--help") = false.
Proof.
  revert c. induction argv as [|a rest IH]; intros c H.
  - injection H as <-. cbn [has existsb negb]. rewrite !orb_false_r, andb_true_r.
    repeat split; auto.
  - cbn [parseLoop] in H. rewrite !has_cons.
    destruct (str_eqb a (u "--help")) eqn:E1; [discriminate|].
    destruct (str_eqb a (u "--config")) eqn:E2.
    { apply str_eqb_eq in E2. subst a.
      destruct (getValue rest) as [v|]; [|discriminate].
      apply IH in H. cbn [withConfigFile write verbose cacheRebuild dryRun
                            configFile singleFile] in H.
      destruct H as (W & V & R & D1 & D2 & C & F & X).
      decide_options. cbn [orb].
      repeat split; auto; discriminate. }
    destruct (str_eqb a (u "--file")) eqn:E3.
    { apply str_eqb_eq in E3. subst a.
      destruct (getValue rest) as [v|]; [|discriminate].
      apply IH in H. cbn [withSingleFile write verbose cacheRebuild dryRun
                            configFile singleFile] in H.
      destruct H as (W & V & R & D1 & D2 & C & F & X).
      decide_options. cbn [orb].
      repeat split; auto; discriminate. }
    destruct (str_eqb a (u "--dry-run")) eqn:E4.
    { apply str_eqb_eq in E4. subst a.
      apply IH in H. cbn [withDryRun write verbose cacheRebuild dryRun
                            configFile singleFile] in H.
      destruct H as (W & V & R & D1 & D2 & C & F & X).
      decide_options. cbn [orb].
      repeat split; auto; try discriminate.
      intros N. rewrite (D2 N). now rewrite orb_true_r. }
    destruct (str_eqb a (u "--write")) eqn:E5.
    { apply str_eqb_eq in E5. subst a.
      apply IH in H. cbn [withWrite write verbose cacheRebuild dryRun
                            configFile singleFile] in H.
      destruct H as (W & V & R & D1 & D2 & C & F & X).
      decide_options. cbn [orb].
      repeat split; auto; try discriminate.
      - rewrite W. now rewrite orb_true_r.
      - intros N. rewrite (D1 N). now rewrite andb_false_r. }
    destruct (str_eqb a (u "--cache-rebuild")) eqn:E6.
    { apply str_eqb_eq in E6. subst a.
      apply IH in H. cbn [withCacheRebuild write verbose cacheRebuild dryRun
                            configFile singleFile] in H.
      destruct H as (W & V & R & D1 & D2 & C & F & X).
      decide_options. cbn [orb].
      repeat split; auto; try discriminate.
      rewrite R. now rewrite orb_true_r. }
    destruct (str_eqb a (u "--verbose")) eqn:E7.
    { apply str_eqb_eq in E7. subst a.
      apply IH in H. cbn [withVerbose write verbose cacheRebuild dryRun
                            configFile singleFile] in H.
      destruct H as (W & V & R & D1 & D2 & C & F & X).
      decide_options. cbn [orb].
      repeat split; auto; try discriminate.
      rewrite V. now rewrite orb_true_r. }
    destruct (isOption a) eqn:O; [discriminate|].
    apply IH in H. destruct H as (W & V & R & D1 & D2 & C & F & X).
    rewrite (str_eqb_sym (u "--write") a), E5, (str_eqb_sym (u "--verbose") a), E7,
      (str_eqb_sym (u "--cache-rebuild") a), E6, (str_eqb_sym (u "--dry-run") a), E4,
      (str_eqb_sym (u "--config") a), E2, (str_eqb_sym (u "--file") a), E3,
      (str_eqb_sym (u "--help") a), E1.
    cbn [orb]. repeat split; auto.
Qed.

(** The loop reaches every suffix of the arguments, unless it has ended
    before. *)
Lemma parseLoop_suffix (a s : list jsstring) (c cfg : CliConfig) :
  parseLoop (a ++ s) c = Parsed cfg ->
  exists c', parseLoop s c' = Parsed cfg.
Proof.
  revert c. induction a as [|x a IH]; intros c H; [eauto|].
  cbn [app parseLoop] in H.
  destruct (str_eqb x (u "--help")); [discriminate|].
  destruct (str_eqb x (u "--config"));
    [destruct (getValue (a ++ s)); [eauto | discriminate]|].
  destruct (str_eqb x (u "--file"));
    [destruct (getValue (a ++ s)); [eauto | discriminate]|].
  destruct (str_eqb x (u "--dry-run")); [eauto|].
  destruct (str_eqb x (u "--write")); [eauto|].
  destruct (str_eqb x (u "--cache-rebuild")); [eauto|].
  destruct (str_eqb x (u "--verbose")); [eauto|].
  destruct (isOption x); [discriminate | eauto].
Qed.

(** X15. What a command line that [parseArgs] accepts switches on.
    [write], [verbose] and [cacheRebuild] are on exactly when their option
    occurs.  [dryRun] follows the last of [--dry-run] and [--write]: it is
    on without [--write], off with [--write] and no [--dry-run], and when
    both occur the later one decides, so [dryRun] and [write] can both be
    on.  Without [--config] the configuration file is the default one, and
    without [--file] no single file is selected. *)
Theorem parseArgs_flags (argv : list jsstring) (cfg : CliConfig) :
  parseArgs argv = Parsed cfg ->
  write cfg = has argv (u "--write")
  /\ verbose cfg = has argv (u "--verbose")
  /\ cacheRebuild cfg = has argv (u "--cache-rebuild")
  /\ (has argv (u "--write") = false -> dryRun cfg = true)
  /\ (has argv (u "--dry-run") = false ->
      dryRun cfg = negb (has argv (u "--write")))
  /\ (forall a b, argv = a ++ u "--dry-run" :: b ->
      has b (u "--write") = false -> dryRun cfg = true)
  /\ (forall a b, argv = a ++ u "--write" :: b ->
      has b (u "--dry-run") = false -> dryRun cfg = false)
  /\ (has argv (u "--config") = false ->
      configFile cfg = u "src/scripts/tagger/tagger.config.json")
  /\ (has argv (u "--file") = false -> singleFile cfg = None).
Proof.
  intros H. unfold parseArgs in H.
  destruct (parseLoop_flags _ _ _ H) as (W & V & R & D1 & D2 & C & F & _).
  cbn [initialCli write verbose cacheRebuild dryRun configFile singleFile
       orb andb] in *.
  split; [exact W|]. split; [exact V|]. split; [exact R|].
  split; [intros N; now rewrite (D2 N)|]. split; [exact D1|].
  split; [|split; [|split; [exact C | exact F]]].
  - intros a b -> N. apply parseLoop_suffix in H as [c' H].
    destruct (parseLoop_flags _ _ _ H) as (_ & _ & _ & _ & D & _).
    rewrite has_cons in D. decide_options. cbn [orb] in D.
    rewrite (D N), has_cons. decide_options. cbn [orb].
    apply orb_true_r.
  - intros a b -> N. apply parseLoop_suffix in H as [c' H].
    destruct (parseLoop_flags _ _ _ H) as (_ & _ & _ & D & _).
    rewrite has_cons in D. decide_options. cbn [orb] in D.
    rewrite (D N), has_cons. decide_options. cbn [orb negb].
    apply andb_false_r.
Qed.

Lemma parseArgs_flags_witness :
  write writeMode = has [u "--dry-run"; u "--write"] (u "--write")
  /\ dryRun writeMode = false.
Proof.
  destruct (parseArgs_flags [u "--dry-run"; u "--write"] writeMode
              ltac:(reflexivity)) as (W & _ & _ & _ & _ & _ & D & _).
  split; [exact W|].
  apply (D [u "--dry-run"] []); reflexivity.
Defined.

(** No known option is a positional argument. *)
Lemma positional_not_known (a : jsstring) (name : string) :
  isOption a = false -> isOption (u name) = true -> str_eqb a (u name) = false.
Proof.
  intros O K. apply str_eqb_neq. intros ->. congruence.
Qed.

Lemma parseLoop_outcomes (argv : list jsstring) (c : CliConfig) :
  match parseLoop argv c with
  | Parsed _ =>
      forallb (fun a => negb (isOption a) || has knownOptions a) argv = true
  | HelpExit => has argv (u "--help") = true
  | MissingValue opt =>
      (opt = u "--config" \/ opt = u "--file") /\ has argv opt = true
  | UnknownOption opt =>
      has argv opt = true /\ isOption opt = true /\ has knownOptions opt = false
  end.
Proof.
  assert (G : forall (x : jsstring) (rest : list jsstring) (c' : CliConfig),
             negb (isOption x) || has knownOptions x = true ->
             (forall c0,
               match parseLoop rest c0 with
               | Parsed _ =>
                   forallb (fun a => negb (isOption a) || has knownOptions a) rest
                   = true
               | HelpExit => has rest (u "--help") = true
               | MissingValue opt =>
                   (opt = u "--config" \/ opt = u "--file") /\ has rest opt = true
               | UnknownOption opt =>
                   has rest opt = true /\ isOption opt = true
                   /\ has knownOptions opt = false
               end) ->
             match parseLoop rest c' with
             | Parsed _ =>
                 forallb (fun a => negb (isOption a) || has knownOptions a)
                         (x :: rest) = true
             | HelpExit => has (x :: rest) (u "--help") = true
             | MissingValue opt =>
                 (opt = u "--config" \/ opt = u "--file")
                 /\ has (x :: rest) opt = true
             | UnknownOption opt =>
                 has (x :: rest) opt = true /\ isOption opt = true
                 /\ has knownOptions opt = false
             end).
  { intros x rest c' K IH. specialize (IH c').
    destruct (parseLoop rest c') as [cfg| |opt|opt]; rewrite ?has_cons.
    - cbn [forallb]. now rewrite K, IH.
    - now rewrite IH, orb_true_r.
    - destruct IH as [A B]. now rewrite B, orb_true_r.
    - destruct IH as (A & B & C). now rewrite A, orb_true_r. }
  revert c. induction argv as [|a rest IH]; intros c; [reflexivity|].
  cbn [parseLoop].
  destruct (str_eqb a (u "--help")) eqn:E1.
  { apply str_eqb_eq in E1. subst a. rewrite has_cons. now rewrite str_eqb_refl. }
  destruct (str_eqb a (u "--config")) eqn:E2.
  { apply str_eqb_eq in E2. subst a. destruct (getValue rest).
    - now apply G.
    - rewrite has_cons, str_eqb_refl. auto. }
  destruct (str_eqb a (u "--file")) eqn:E3.
  { apply str_eqb_eq in E3. subst a. destruct (getValue rest).
    - now apply G.
    - rewrite has_cons, str_eqb_refl. auto. }
  destruct (str_eqb a (u "--dry-run")) eqn:E4.
  { apply str_eqb_eq in E4. subst a. now apply G. }
  destruct (str_eqb a (u "--write")) eqn:E5.
  { apply str_eqb_eq in E5. subst a. now apply G. }
  destruct (str_eqb a (u "--cache-rebuild")) eqn:E6.
  { apply str_eqb_eq in E6. subst a. now apply G. }
  destruct (str_eqb a (u "--verbose")) eqn:E7.
  { apply str_eqb_eq in E7. subst a. now apply G. }
  destruct (isOption a) eqn:O.
  - rewrite has_cons, str_eqb_refl. split; [reflexivity|]. split; [exact O|].
    unfold knownOptions. cbn [map has existsb].
    now rewrite E1, E2, E3, E4, E5, E6, E7.
  - apply G; [|exact IH]. now rewrite O.
Qed.

Lemma parseLoop_positional (argv : list jsstring) (c : CliConfig) :
  forallb (fun a => negb (isOption a)) argv = true ->
  parseLoop argv c = Parsed c.
Proof.
  induction argv as [|a rest IH]; intros H; [reflexivity|].
  cbn [forallb] in H. apply andb_true_iff in H as [O H].
  apply negb_true_iff in O. cbn [parseLoop].
  rewrite !(positional_not_known a _ O) by reflexivity.
  rewrite O. now apply IH.
Qed.

(** X16. How [parseArgs] ends.  It returns a configuration only when every
    argument that starts with two hyphens is one of the seven options; it
    exits for the help only when [--help] occurs; the missing-value error
    names [--config] or [--file], and the unknown-option error names an
    argument that starts with two hyphens and is none of the options.
    Arguments that do not start with two hyphens are ignored: a command
    line of such arguments only gives the initial configuration, a dry
    run. *)
Theorem parseArgs_outcomes (argv : list jsstring) :
  match parseArgs argv with
  | Parsed _ =>
      forallb (fun a => negb (isOption a) || has knownOptions a) argv = true
  | HelpExit => has argv (u "--help") = true
  | MissingValue opt =>
      (opt = u "--config" \/ opt = u "--file") /\ has argv opt = true
  | UnknownOption opt =>
      has argv opt = true /\ isOption opt = true /\ has knownOptions opt = false
  end
  /\ (forallb (fun a => negb (isOption a)) argv = true ->
      parseArgs argv = Parsed initialCli).
Proof.
  split; [apply parseLoop_outcomes | apply parseLoop_positional].
Qed.

(** ** The outcome of one document *)

(** Every label of the merge is a normalised label or an entry of the
    vocabulary, taken as it stands. *)
Lemma combined_label_or_vocabulary (base : jsstring) (p : ParsedFile)
    (conf : RequiredTaggerConfig) (cacheHashtags : list jsstring) (x : jsstring) :
  In x (combinedOf base p conf cacheHashtags) ->
  isLabel x \/ In x cacheHashtags.
Proof.
  unfold combinedOf. rewrite sliceTo_firstn. intros H.
  apply In_firstn in H. rewrite uniqueStable_In in H.
  apply in_app_or in H as [H|H]; [left; eapply existingOf_labels, H|].
  unfold mappedNewOf in H. rewrite in_map_iff in H. destruct H as (c & E & Hc).
  apply kept_incl in Hc. unfold generatedAllOf in Hc.
  rewrite uniqueStable_In in Hc. apply slugifyAll_labels in Hc.
  destruct (mapToCache_mapped c cacheHashtags (cacheSimilarityThreshold conf))
    as [M|M]; rewrite E in M; [left; now rewrite M | now right].
Qed.

(** Below the cap the merge is the existing labels followed by the added
    ones. *)
Lemma combined_is_existing_and_added (base : jsstring) (p : ParsedFile)
    (conf : RequiredTaggerConfig) (cacheHashtags : list jsstring) :
  (0 <= max conf)%Q ->
  addedOf base p conf cacheHashtags <> [] ->
  combinedOf base p conf cacheHashtags
  = existingOf (data p) ++ addedOf base p conf cacheHashtags.
Proof.
  intros M A.
  destruct (Qlt_le_dec (inject_Z (Z.of_nat (length (existingOf (data p)))))
                       (max conf)) as [L|L].
  - destruct (combined_below_cap base p conf cacheHashtags M L) as [rest E].
    unfold addedOf. rewrite E. rewrite filter_has_self_app; [reflexivity|].
    rewrite <- E. apply combined_NoDup.
  - destruct (combined_at_cap base p conf cacheHashtags M L) as [_ E].
    contradiction.
Qed.

Lemma processFile_written (dump : UnknownRecord -> jsstring) (f : SourceFile)
    (cfg : CliConfig) (conf : RequiredTaggerConfig)
    (cacheHashtags : list jsstring) (o : Outcome) (text : jsstring) :
  processFile dump f cfg conf cacheHashtags = Ok (o, Some text) ->
  changed o = true /\ dryRun cfg = false /\ writable f = true.
Proof.
  unfold processFile. destruct (parsed f) as [p|]; [|discriminate].
  destruct (addedOf _ _ _ _); [discriminate|].
  destruct (str_eqb _ _); [discriminate|].
  destruct (dryRun cfg); [discriminate|].
  destruct (writable f); [|discriminate].
  intros H. injection H as <- _. auto.
Qed.

(** X17. What [processFile] resolves to, under a configuration that
    [loadConfig] returned.  The final list has no duplicates and at most
    [max] entries, and each entry is a normalised label or an entry of the
    vocabulary.  An outcome that reports no change reports no added label
    and nothing was written.  An outcome that reports a change has added
    labels, and the final list is the existing labels followed by the added
    ones.  A text is written only by a run that is no dry run, reports a
    change and can write the file. *)
Theorem processFile_outcome (dump : UnknownRecord -> jsstring)
    (f : SourceFile) (cfg : CliConfig) (conf : RequiredTaggerConfig)
    (cacheHashtags : list jsstring) (cfgPath : jsstring)
    (attempt : TryOutcome jsval) (o : Outcome) (w : option jsstring) :
  loadConfig cfgPath attempt = Ok conf ->
  processFile dump f cfg conf cacheHashtags = Ok (o, w) ->
  NoDup (final o)
  /\ (inject_Z (Z.of_nat (length (final o))) <= max conf)%Q
  /\ Forall (fun x => isLabel x \/ In x cacheHashtags) (final o)
  /\ (changed o = false -> added o = [] /\ w = None)
  /\ (changed o = true ->
      added o <> []
      /\ exists p, parsed f = Some p
                   /\ final o = existingOf (data p) ++ added o)
  /\ (forall text, w = Some text ->
      changed o = true /\ dryRun cfg = false /\ writable f = true).
Proof.
  intros Hc H. apply loadConfig_valid in Hc as [H1 H2].
  assert (M : (0 <= max conf)%Q) by lra.
  pose proof H as H0.
  apply processFile_Ok in H as (p & Hp & Hf & Hch & Ha & Hw). cbv zeta in *.
  split; [rewrite Hf; apply combined_NoDup|].
  split.
  { rewrite Hf. unfold combinedOf. rewrite sliceTo_nonneg by exact M.
    pose proof (firstn_le_length (Z.to_nat (truncate (max conf)))
                  (uniqueStable (existingOf (data p)
                     ++ mappedNewOf (baseName f) p conf cacheHashtags))) as L.
    destruct (truncate_spec (max conf) M) as [T _].
    pose proof (truncate_nonneg (max conf) M) as T0.
    apply Qle_trans with (inject_Z (truncate (max conf))); [|exact T].
    rewrite <- Zle_Qle. lia. }
  split.
  { rewrite Hf. apply Forall_forall. intros x.
    apply combined_label_or_vocabulary. }
  split.
  { intros C. rewrite C in Ha, Hw. simpl in Hw. auto. }
  split.
  { intros C. rewrite C in Ha. rewrite C in Hch.
    symmetry in Hch. apply andb_true_iff in Hch as [Hn _].
    assert (A : addedOf (baseName f) p conf cacheHashtags <> []).
    { destruct (addedOf (baseName f) p conf cacheHashtags);
        [discriminate | congruence]. }
    split; [now rewrite Ha|]. exists p. split; [exact Hp|].
    rewrite Hf, Ha. now apply combined_is_existing_and_added. }
  intros text E. rewrite E in H0. eapply processFile_written, H0.
Qed.

Lemma processFile_outcome_witness :
  NoDup (final taggedOutcome)
  /\ (inject_Z (Z.of_nat (length (final taggedOutcome))) <= max defaults)%Q
  /\ final taggedOutcome
     = [u "rust"; u "web"] ++ added taggedOutcome.
Proof.
  destruct (processFile_outcome keysOnly taggedFile writeMode defaults []
              (configFile writeMode)
              (Threw (Some (u "ENOENT")) (u "no such file or directory"))
              taggedOutcome (Some taggedWritten)
              defaults_loaded taggedFile_processed)
    as (D & L & _ & _ & _ & _).
  split; [exact D|]. split; [exact L|]. reflexivity.
Defined.

(** X18. A dry run reports what the run that writes would do.  With
    [dryRun] on, [processFile] writes nothing; and whatever it resolves to,
    the same call with [dryRun] off resolves to the same outcome: without
    writing when the outcome reports no change, with a text written when it
    reports a change and the file can be written, and with the write error
    when it cannot.  An error of the dry run is the error of the other
    run. *)
Theorem dry_run_reports_write_run (dump : UnknownRecord -> jsstring)
    (f : SourceFile) (cfg cfg' : CliConfig) (conf : RequiredTaggerConfig)
    (cacheHashtags : list jsstring) :
  dryRun cfg = true -> dryRun cfg' = false ->
  match processFile dump f cfg conf cacheHashtags with
  | Ok (o, w) =>
      w = None
      /\ (changed o = false ->
          processFile dump f cfg' conf cacheHashtags = Ok (o, None))
      /\ (changed o = true -> writable f = true ->
          exists text,
            processFile dump f cfg' conf cacheHashtags = Ok (o, Some text))
      /\ (changed o = true -> writable f = false ->
          processFile dump f cfg' conf cacheHashtags
          = Throw (WriteError (filePath f)))
  | Throw e => processFile dump f cfg' conf cacheHashtags = Throw e
  end.
Proof.
  intros D D'. unfold processFile. rewrite D, D'.
  destruct (parsed f) as [p|]; [|reflexivity].
  destruct (addedOf (baseName f) p conf cacheHashtags) as [|a r].
  - cbn [changed]. repeat split; discriminate.
  - destruct (str_eqb _ (raw p)).
    + cbn [changed]. repeat split; discriminate.
    + cbn [changed]. split; [reflexivity|]. split; [discriminate|].
      split; intros _ W; rewrite W; eauto.
Qed.

Lemma dry_run_reports_write_run_witness :
  dryRun initialCli = true
  /\ match processFile keysOnly taggedFile initialCli defaults [] with
     | Ok (o, w) =>
         w = None
         /\ (changed o = false ->
             processFile keysOnly taggedFile writeMode defaults [] = Ok (o, None))
         /\ (changed o = true -> writable taggedFile = true ->
             exists text,
               processFile keysOnly taggedFile writeMode defaults []
               = Ok (o, Some text))
         /\ (changed o = true -> writable taggedFile = false ->
             processFile keysOnly taggedFile writeMode defaults []
             = Throw (WriteError (filePath taggedFile)))
     | Throw e => processFile keysOnly taggedFile writeMode defaults [] = Throw e
     end.
Proof.
  split; [reflexivity|].
  apply (dry_run_reports_write_run keysOnly taggedFile initialCli writeMode
           defaults []); reflexivity.
Defined.

(** ** The batch *)



Lemma insertSorted_NoDup (x : jsstring) (l : list jsstring) :
  ~ In x l -> NoDup l -> NoDup (insertSorted x l).
Proof.
  induction l as [|y r IH]; intros N D; simpl.
  - constructor; [auto | constructor].
  - destruct (str_leb x y); [now constructor|].
    inversion D as [|? ? Hy Dr]; subst. constructor.
    + rewrite insertSorted_In. intros [->|H]; [apply N; now left | contradiction].
    + apply IH; [|exact Dr]. intros H. apply N. now right.
Qed.

Lemma sortLabels_NoDup (l : list jsstring) : NoDup l -> NoDup (sortLabels l).
Proof.
  induction l as [|x r IH]; intros D; [constructor|]. simpl.
  inversion D as [|? ? Hx Dr]; subst.
  apply insertSorted_NoDup; [now rewrite sortLabels_In | now apply IH].
Qed.










(** X21. A dry run writes nothing.  With [dryRun] on, [main] writes no
    document and no cache file, neither when it loads the cache nor after
    the loop, in the ordinary run and in a cache rebuild alike, and it
    never ends with a write error. *)
Theorem dry_run_writes_nothing (dump : UnknownRecord -> jsstring)
    (cfg : CliConfig) (w : World) :
  dryRun cfg = true ->
  match main dump cfg w with
  | Ok r =>
      cacheBuilt r = None
      /\ cacheWritten r = None
      /\ forall o t, In (Ok (o, t)) (results r) -> t = None
  | Throw e => forall path, e <> WriteError path
  end.
Proof.
  intros D. unfold main.
  destruct (loadConfig (configFile cfg) (configAttempt w)) as [conf|e] eqn:C.
  2:{ cbn [bind]. intros path ->.
      unfold loadConfig in C.
      destruct (readJsonFile (configFile cfg) (configAttempt w)) as [raw|e] eqn:J;
        cbn [bind] in C.
      - destruct (negb (truthy raw)); [discriminate|]. cbv zeta in C.
        destruct (Qlt_bool _ 1); [discriminate|].
        destruct (Qlt_bool _ _); discriminate.
      - injection C as ->. unfold readJsonFile in J.
        destruct (configAttempt w) as [v|[c|] m]; try discriminate.
        destruct (str_eqb c (u "ENOENT")); discriminate. }
  cbn [bind]. destruct (files w) as [|f0 fs] eqn:F; [discriminate|].
  rewrite <- F. rewrite D. destruct (cacheRebuild cfg).
  - unfold buildCache. cbn [bind results cacheBuilt cacheWritten snd].
    split; [reflexivity|]. split; [reflexivity|]. intros o t [].
  - assert (K : forall x,
               loadOrCreateCache (clock w) (cacheCanBeWritten w) (scanned w)
                 (cacheFile conf) true (cacheAttempt w) = x ->
               match x with
               | Ok (_, built) => built = None
               | Throw e => forall path, e <> WriteError path
               end).
    { intros x <-. unfold loadOrCreateCache.
      destruct (readJsonFile (cacheFile conf) (cacheAttempt w)) as [v|e'] eqn:J;
        cbn [bind].
      - unfold buildCache.
        destruct (getProp v (u "version")) as [[| |[q| | |]| | |]|];
          try reflexivity.
        destruct (getProp v (u "hashtags")) as [[| | | |items|]|];
          try reflexivity.
        destruct (Qeq_bool q 1); reflexivity.
      - intros path ->. unfold readJsonFile in J.
        destruct (cacheAttempt w) as [v|[c|] m]; try discriminate.
        destruct (str_eqb c (u "ENOENT")); discriminate. }
    specialize (K _ eq_refl).
    destruct (loadOrCreateCache (clock w) (cacheCanBeWritten w) (scanned w)
                (cacheFile conf) true (cacheAttempt w)) as [[cache built]|e].
    + cbn [bind fst snd]. subst built.
      assert (P : forall o t,
                 In (Ok (o, t))
                    (map (fun f => processFile dump f cfg conf (hashtags cache))
                         (files w)) -> t = None).
      { intros o t I. apply in_map_iff in I as (f & I & _).
        destruct t as [text|]; [|reflexivity].
        apply processFile_written in I as (_ & X & _). congruence. }
      destruct (length _ =? length (hashtags cache))%nat;
        cbn [results cacheBuilt cacheWritten]; auto.
    + cbn [bind]. exact K.
Qed.

Lemma dry_run_writes_nothing_witness :
  dryRun initialCli = true
  /\ match main keysOnly initialCli batchWorld with
     | Ok r =>
         cacheBuilt r = None
         /\ cacheWritten r = None
         /\ forall o t, In (Ok (o, t)) (results r) -> t = None
     | Throw e => forall path, e <> WriteError path
     end.
Proof.
  split; [reflexivity|].
  apply (dry_run_writes_nothing keysOnly initialCli batchWorld). reflexivity.
Defined.

(** ** What a match of the heading pattern looks like *)

Lemma firstn_takeWhile (p : N -> bool) (n : nat) (s : jsstring) :
  (n <= length (takeWhile p s))%nat ->
  forallb p (firstn n s) = true /\ length (firstn n s) = n.
Proof.
  revert s. induction n as [|n IH]; intros s H; [now destruct s|].
  destruct s as [|c t]; [simpl in H; lia|].
  simpl in H. destruct (p c) eqn:E; [|simpl in H; lia].
  simpl in H. destruct (IH t ltac:(lia)) as [A B].
  simpl. now rewrite E, A, B.
Qed.

Lemma counts_In (it : item) (avail n : nat) :
  In n (counts it avail) ->
  (rmin it <= n <= avail)%nat
  /\ match rmax it with Some m => (n <= m)%nat | None => True end.
Proof.
  unfold counts. intros H.
  assert (I : In n (seq (rmin it)
                      (S match rmax it with
                         | Some m => Nat.min m avail
                         | None => avail
                         end - rmin it)))
    by (destruct (greedy it); [now apply in_rev in H | exact H]).
  apply in_seq in I. destruct (rmax it); split; lia || exact Logic.I.
Qed.

(** The matcher is sound: the texts it returns make up the input, and each
    is a repetition of its item within the bounds of the item. *)
Lemma matchItems_sound (re : list item) (s : jsstring) (caps : list jsstring) :
  matchItems re s = Some caps ->
  concat caps = s
  /\ Forall2 (fun it g => forallb (cls it) g = true
                          /\ (rmin it <= length g)%nat
                          /\ match rmax it with
                             | Some m => (length g <= m)%nat
                             | None => True
                             end) re caps.
Proof.
  revert s caps. induction re as [|it re IH]; intros s caps H.
  - destruct s; [|discriminate]. injection H as <-. split; constructor.
  - rewrite matchItems_cons in H. apply firstSome_Some in H as (n & Hn & H).
    destruct (matchItems re (skipn n s)) as [caps'|] eqn:E; [|discriminate].
    injection H as <-. destruct (IH _ _ E) as [C F].
    apply counts_In in Hn as [[L U] M].
    destruct (firstn_takeWhile (cls it) n s U) as [A B].
    split.
    + cbn [concat]. rewrite C. apply firstn_skipn.
    + constructor; [|exact F]. rewrite B. auto.
Qed.

Lemma all_char_repeat (x : N) (s : jsstring) :
  forallb (isChar x) s = true -> s = repeat x (length s).
Proof.
  induction s as [|c t IH]; [reflexivity|]. simpl. intros H.
  apply andb_true_iff in H as [E H]. apply N.eqb_eq in E. subst c.
  now rewrite <- IH.
Qed.

Lemma headingOfLine_shape (line h : jsstring) :
  In h (headingOfLine line) ->
  headingOfLine line = [h]
  /\ exists k gap tail,
       line = repeat HASH k ++ gap ++ h ++ tail
       /\ (1 <= k <= 6)%nat
       /\ gap <> [] /\ forallb isWhiteSpace gap = true
       /\ h <> []
       /\ forallb (fun c => negb (isLineTerminator c)) h = true
       /\ forallb isWhiteSpace tail = true.
Proof.
  unfold headingOfLine.
  destruct (matchItems headingRe line) as [caps|] eqn:M; [|contradiction].
  destruct (matchItems_sound _ _ _ M) as [C F].
  unfold headingRe in F.
  inversion F as [|i1 g1 r1 c1 P1 F1]; subst.
  inversion F1 as [|i2 g2 r2 c2 P2 F2]; subst.
  inversion F2 as [|i3 g3 r3 c3 P3 F3]; subst.
  inversion F3 as [|i4 g4 r4 c4 P4 F4]; subst.
  inversion F4; subst.
  cbn [cls rmin rmax] in P1, P2, P3, P4.
  destruct P1 as (A1 & L1 & U1), P2 as (A2 & L2 & _), P3 as (A3 & L3 & _),
           P4 as (A4 & _).
  destruct g3 as [|c g3]; [contradiction|].
  intros [<-|[]]. split; [reflexivity|].
  exists (length g1), g2, g4.
  split.
  { cbn [concat]. rewrite app_nil_r. now rewrite <- (all_char_repeat _ _ A1). }
  split; [lia|]. split; [destruct g2; [simpl in L2; lia | discriminate]|].
  split; [exact A2|]. split; [discriminate|]. split; [exact A3 | exact A4].
Qed.

(** X22. Where a heading comes from.  Every heading [extractHeadings]
    returns is cut from one line of the document: the line starts with one
    to six hash signs followed by white space, the heading follows, and
    only white space follows the heading.  The heading is not empty and
    holds no line terminator.  No line gives more than one heading. *)
Theorem heading_shape (markdown h : jsstring) :
  In h (extractHeadings markdown) ->
  exists line k gap tail,
    In line (split LF markdown)
    /\ headingOfLine line = [h]
    /\ line = repeat HASH k ++ gap ++ h ++ tail
    /\ (1 <= k <= 6)%nat
    /\ gap <> [] /\ forallb isWhiteSpace gap = true
    /\ h <> []
    /\ forallb (fun c => negb (isLineTerminator c)) h = true
    /\ forallb isWhiteSpace tail = true.
Proof.
  unfold extractHeadings. rewrite in_flat_map. intros (line & I & H).
  destruct (headingOfLine_shape line h H) as (E & k & gap & tail & S).
  exists line, k, gap, tail. auto.
Qed.

Lemma heading_shape_witness :
  exists line k gap tail,
    In line (split LF (u "intro" ++ LF :: u "##  Real title  "))
    /\ headingOfLine line = [u "Real title"]
    /\ line = repeat HASH k ++ gap ++ u "Real title" ++ tail
    /\ (1 <= k <= 6)%nat
    /\ gap <> [] /\ forallb isWhiteSpace gap = true
    /\ u "Real title" <> []
    /\ forallb (fun c => negb (isLineTerminator c)) (u "Real title") = true
    /\ forallb isWhiteSpace tail = true.
Proof.
  apply (heading_shape (u "intro" ++ LF :: u "##  Real title  ")
           (u "Real title")).
  vm_compute. left. reflexivity.
Defined.

(** ** Where the labels come from *)

Lemma sliceTo_In {A : Type} (n : Q) (l : list A) (x : A) :
  In x (sliceTo n l) -> In x l.
Proof. rewrite sliceTo_firstn. apply In_firstn. Qed.

Lemma slugifyAll_In (items : list jsstring) (x : jsstring) :
  In x (slugifyAll items) <-> exists h, In h items /\ slugifyHashtag h = Some x.
Proof.
  unfold slugifyAll. rewrite in_flat_map. split.
  - intros (h & I & H). exists h. split; [exact I|].
    destruct (slugifyHashtag h) as [s|]; [|contradiction].
    destruct H as [->|[]]. reflexivity.
  - intros (h & I & H). exists h. split; [exact I|]. rewrite H. now left.
Qed.

Lemma kept_not_denied (items deny : list jsstring) (x : jsstring) :
  In x (kept (filterNewWithDenylist items deny Exact)) -> ~ In x deny.
Proof.
  unfold filterNewWithDenylist. destruct deny as [|d ds]; [auto|].
  cbn [kept]. rewrite filter_In. intros [_ H].
  apply negb_true_iff in H. now apply has_not_In.
Qed.

(** X23. No label comes from nowhere.  Every label of the final list is an
    existing one, that is the slug of an entry of the document's
    [hashtags], or it is what the vocabulary maps a generated slug to: the
    slug of the title (the file's base name when the front matter has no
    title), of a heading, of a tag or of a keyword of the body without its
    code blocks.  In exact mode that slug is not on the denylist; the label
    it is mapped to is the slug itself or an entry of the vocabulary. *)
Theorem final_label_origin (dump : UnknownRecord -> jsstring) (f : SourceFile)
    (cfg : CliConfig) (conf : RequiredTaggerConfig)
    (cacheHashtags : list jsstring) (o : Outcome) (w : option jsstring) :
  processFile dump f cfg conf cacheHashtags = Ok (o, w) ->
  exists p,
    parsed f = Some p
    /\ forall x, In x (final o) ->
         (isStringArray (getField (data p) (u "hashtags")) = true
          /\ exists h, In h (strings (getField (data p) (u "hashtags")))
                       /\ slugifyHashtag h = Some x)
         \/ exists c g,
              (getTitleFromFrontmatter (data p) = Some c
               \/ (getTitleFromFrontmatter (data p) = None /\ c = baseName f)
               \/ In c (extractHeadings (content p))
               \/ (isStringArray (getField (data p) (u "tags")) = true
                   /\ In c (strings (getField (data p) (u "tags"))))
               \/ In c (topKeywords (stripCodeBlocks (content p))
                                    (keywordLimit conf)))
              /\ slugifyHashtag c = Some g
              /\ (denylistMode conf = Exact -> ~ In g (denylist conf))
              /\ x = mapped (mapToCache g cacheHashtags
                               (cacheSimilarityThreshold conf))
              /\ (x = g \/ In x cacheHashtags).
Proof.
  intros H. apply processFile_Ok in H as (p & Hp & Hf & _). cbv zeta in Hf.
  exists p. split; [exact Hp|]. intros x I. rewrite Hf in I.
  unfold combinedOf in I. apply sliceTo_In in I.
  rewrite uniqueStable_In in I. apply in_app_or in I as [I|I].
  - left. unfold existingOf in I.
    destruct (isStringArray (getField (data p) (u "hashtags")));
      [|contradiction].
    split; [reflexivity|]. rewrite uniqueStable_In in I.
    now apply slugifyAll_In.
  - right. unfold mappedNewOf in I. rewrite in_map_iff in I.
    destruct I as (g & E & K).
    pose proof (kept_incl _ _ _ _ K) as G. unfold generatedAllOf in G.
    rewrite uniqueStable_In in G. apply slugifyAll_In in G as (c & C & S).
    exists c, g. split.
    { unfold rawCandidatesOf in C. apply sliceTo_In in C.
      rewrite uniqueStable_In in C. destruct C as [C|C].
      - destruct (getTitleFromFrontmatter (data p)) as [t|];
          [left; now subst | right; left; auto].
      - right. right. apply in_app_or in C as [C|C]; [now left|].
        right. apply in_app_or in C as [C|C]; [|now right].
        left. destruct (isStringArray (getField (data p) (u "tags")));
          [auto | contradiction]. }
    split; [exact S|]. split.
    { intros M. rewrite M in K. eapply kept_not_denied, K. }
    split; [now rewrite E|].
    destruct (mapToCache_mapped g cacheHashtags (cacheSimilarityThreshold conf))
      as [M|M]; rewrite E in M; auto.
Qed.

Lemma final_label_origin_witness :
  exists p,
    parsed taggedFile = Some p
    /\ forall x, In x (final taggedOutcome) ->
         (isStringArray (getField (data p) (u "hashtags")) = true
          /\ exists h, In h (strings (getField (data p) (u "hashtags")))
                       /\ slugifyHashtag h = Some x)
         \/ exists c g,
              (getTitleFromFrontmatter (data p) = Some c
               \/ (getTitleFromFrontmatter (data p) = None
                   /\ c = baseName taggedFile)
               \/ In c (extractHeadings (content p))
               \/ (isStringArray (getField (data p) (u "tags")) = true
                   /\ In c (strings (getField (data p) (u "tags"))))
               \/ In c (topKeywords (stripCodeBlocks (content p))
                                    (keywordLimit defaults)))
              /\ slugifyHashtag c = Some g
              /\ (denylistMode defaults = Exact -> ~ In g (denylist defaults))
              /\ x = mapped (mapToCache g [] (cacheSimilarityThreshold defaults))
              /\ (x = g \/ In x []).
Proof.
  exact (final_label_origin keysOnly taggedFile writeMode defaults []
           taggedOutcome (Some taggedWritten) taggedFile_processed).
Defined.

(** X24. The vocabulary a cache rebuild scans from the files: no entry
    twice, every entry a normalised label, and an entry is in it exactly
    when it is the slug of an entry of the [hashtags] of a file that can be
    read and whose [hashtags] is an array of strings.  Files that cannot be
    read are passed over. *)
Theorem scanned_vocabulary (files : list SourceFile) :
  NoDup (scanExistingHashtags files)
  /\ Forall isLabel (scanExistingHashtags files)
  /\ forall x,
       In x (scanExistingHashtags files)
       <-> exists f p h,
             In f files /\ parsed f = Some p
             /\ isStringArray (getField (data p) (u "hashtags")) = true
             /\ In h (strings (getField (data p) (u "hashtags")))
             /\ slugifyHashtag h = Some x.
Proof.
  split; [apply sortLabels_NoDup, uniqueStable_NoDup|].
  split; [apply scanExistingHashtags_labels|].
  intros x. unfold scanExistingHashtags.
  rewrite sortLabels_In, uniqueStable_In, in_flat_map. split.
  - intros (f & I & H). destruct (parsed f) as [p|] eqn:P; [|contradiction].
    destruct (isStringArray (getField (data p) (u "hashtags"))) eqn:A;
      [|contradiction].
    apply slugifyAll_In in H as (h & Hh & S). exists f, p, h. auto.
  - intros (f & p & h & I & P & A & Hh & S). exists f. split; [exact I|].
    rewrite P, A. apply slugifyAll_In. eauto.
Qed.

(** X25. The suggestions a warning lists are generated labels that did not
    make it into the final list, each once.  With a limit that is not
    negative there are at most that many. *)
Theorem suggestions_are_leftovers (base : jsstring) (p : ParsedFile)
    (conf : RequiredTaggerConfig) (cacheHashtags : list jsstring) :
  NoDup (suggestionsOf base p conf cacheHashtags)
  /\ (forall x, In x (suggestionsOf base p conf cacheHashtags) ->
        In x (generatedAllOf base p conf)
        /\ ~ In x (combinedOf base p conf cacheHashtags))
  /\ ((0 <= warningSuggestionLimit conf)%Q ->
      (length (suggestionsOf base p conf cacheHashtags)
       <= Z.to_nat (truncate (warningSuggestionLimit conf)))%nat).
Proof.
  unfold suggestionsOf. split; [apply uniqueStable_NoDup|]. split.
  - intros x I. rewrite uniqueStable_In in I. apply sliceTo_In in I.
    apply filter_In in I as [G N]. split; [exact G|].
    apply negb_true_iff in N. now apply has_not_In.
  - intros L. rewrite sliceTo_nonneg by exact L.
    rewrite uniqueStable_id.
    + apply firstn_le_length.
    + apply NoDup_firstn, NoDup_filter. unfold generatedAllOf.
      apply uniqueStable_NoDup.
Qed.

(** X26. Under a configuration that [loadConfig] returned, a document that
    is not warned about ends with at least two labels, and at least [min]
    of them; a document that ends with no label or with one is always
    warned about. *)
Theorem quiet_document_has_labels (base : jsstring) (p : ParsedFile)
    (conf : RequiredTaggerConfig) (cacheHashtags : list jsstring)
    (cfgPath : jsstring) (attempt : TryOutcome jsval) :
  loadConfig cfgPath attempt = Ok conf ->
  (warnsLowRichness base p conf cacheHashtags = false ->
     (2 <= length (combinedOf base p conf cacheHashtags))%nat
     /\ (min conf
         <= inject_Z (Z.of_nat (length (combinedOf base p conf cacheHashtags))))%Q)
  /\ ((length (combinedOf base p conf cacheHashtags) <= 1)%nat ->
      warnsLowRichness base p conf cacheHashtags = true).
Proof.
  intros Hc. apply loadConfig_valid in Hc as [H1 _].
  unfold warnsLowRichness. cbv zeta.
  assert (W : forall k : nat,
             (k =? 1)%nat || Qlt_bool (inject_Z (Z.of_nat k)) (min conf) = false
             <-> (2 <= k)%nat /\ (min conf <= inject_Z (Z.of_nat k))%Q).
  { intros k. rewrite orb_false_iff, Nat.eqb_neq. split.
    - intros [A B]. apply Qlt_bool_false in B. split; [|exact B].
      assert (Q1 : (1 <= inject_Z (Z.of_nat k))%Q) by lra.
      change 1%Q with (inject_Z 1) in Q1. rewrite <- Zle_Qle in Q1. lia.
    - intros [A B]. split; [lia|].
      destruct (Qlt_bool (inject_Z (Z.of_nat k)) (min conf)) eqn:E;
        [|reflexivity].
      apply Qlt_bool_true in E. lra. }
  split; [apply W|].
  intros L. destruct (_ || _) eqn:E; [reflexivity|].
  apply W in E as [E _]. lia.
Qed.

Lemma quiet_document_has_labels_witness :
  (warnsLowRichness (u "tagged") taggedPost defaults [] = false ->
     (2 <= length (combinedOf (u "tagged") taggedPost defaults []))%nat
     /\ (min defaults
         <= inject_Z (Z.of_nat
              (length (combinedOf (u "tagged") taggedPost defaults []))))%Q)
  /\ ((length (combinedOf (u "tagged") taggedPost defaults []) <= 1)%nat ->
      warnsLowRichness (u "tagged") taggedPost defaults [] = true).
Proof.
  exact (quiet_document_has_labels (u "tagged") taggedPost defaults []
           (configFile writeMode)
           (Threw (Some (u "ENOENT")) (u "no such file or directory"))
           defaults_loaded).
Defined.

(** X27. A configuration file whose JSON is falsy, or has none of the
    thirteen properties [loadConfig] reads (an array, a number, a string,
    an object with other keys only), is accepted without a word and gives
    the defaults. *)
Theorem config_without_known_keys (cfgPath : jsstring) (raw : jsval) :
  truthy raw = false \/ (forall k, In k configKeys -> getProp raw k = None) ->
  loadConfig cfgPath (Returned raw) = Ok defaults.
Proof.
  intros [T|K]; unfold loadConfig; cbn [readJsonFile bind].
  - now rewrite T.
  - destruct (negb (truthy raw)); [reflexivity|].
    cbv zeta.
    rewrite !K by (unfold configKeys; cbn [map In]; tauto).
    reflexivity.
Qed.

Lemma config_without_known_keys_witness :
  loadConfig (u "tagger.config.json")
    (Returned (VObj [(u "foo", VNum (Finite 1)); (u "Min", VNum (Finite 0))]))
  = Ok defaults.
Proof.
  apply config_without_known_keys. right. intros k H.
  unfold configKeys in H. cbn [map In] in H.
  repeat (destruct H as [<-|H]; [reflexivity|]). contradiction.
Defined.

(** X28. The labels of a document whose [hashtags] is an array of strings
    are kept.  Under a configuration that [loadConfig] returned, with the
    stored entries normalised and taken once each: when there are fewer of
    them than [max], the final list starts with them in their order, so
    every stored entry that is a normalised label is in the final list;
    when there are [max] or more, the final list is these cut at [max] and
    nothing is added. *)
Theorem string_hashtags_preserved (dump : UnknownRecord -> jsstring)
    (f : SourceFile) (cfg : CliConfig) (conf : RequiredTaggerConfig)
    (cacheHashtags : list jsstring) (cfgPath : jsstring)
    (attempt : TryOutcome jsval) (o : Outcome) (w : option jsstring)
    (p : ParsedFile) :
  loadConfig cfgPath attempt = Ok conf ->
  processFile dump f cfg conf cacheHashtags = Ok (o, w) ->
  parsed f = Some p ->
  isStringArray (getField (data p) (u "hashtags")) = true ->
  let stored := strings (getField (data p) (u "hashtags")) in
  let existing := uniqueStable (slugifyAll stored) in
  ((inject_Z (Z.of_nat (length existing)) < max conf)%Q ->
     (exists rest, final o = existing ++ rest)
     /\ forall x, In x stored -> isLabel x -> In x (final o))
  /\ ((max conf <= inject_Z (Z.of_nat (length existing)))%Q ->
        final o = sliceTo (max conf) existing /\ added o = []).
Proof.
  intros Hc H Hp A stored existing.
  destruct (existing_labels_preserved dump f cfg conf cacheHashtags cfgPath
              attempt o w Hc H) as (q & Hq & B1 & B2).
  rewrite Hp in Hq. injection Hq as <-. cbv zeta in B1, B2.
  assert (E : existingOf (data p) = existing)
    by (unfold existingOf; now rewrite A).
  rewrite E in B1, B2. split; [|exact B2].
  intros L. destruct (B1 L) as [rest R]. split; [eauto|].
  intros x I Lx. rewrite R. apply in_or_app. left.
  unfold existing. apply uniqueStable_In, slugifyAll_In. eauto.
Qed.

Lemma string_hashtags_preserved_witness :
  ((inject_Z (Z.of_nat (length (uniqueStable (slugifyAll
       (strings (getField (data taggedPost) (u "hashtags")))))))
    < max defaults)%Q ->
     (exists rest,
        final taggedOutcome
        = uniqueStable (slugifyAll
            (strings (getField (data taggedPost) (u "hashtags")))) ++ rest)
     /\ forall x,
          In x (strings (getField (data taggedPost) (u "hashtags"))) ->
          isLabel x -> In x (final taggedOutcome))
  /\ ((max defaults
       <= inject_Z (Z.of_nat (length (uniqueStable (slugifyAll
            (strings (getField (data taggedPost) (u "hashtags"))))))))%Q ->
        final taggedOutcome
        = sliceTo (max defaults)
            (uniqueStable (slugifyAll
               (strings (getField (data taggedPost) (u "hashtags")))))
        /\ added taggedOutcome = []).
Proof.
  exact (string_hashtags_preserved keysOnly taggedFile writeMode defaults []
           (configFile writeMode)
           (Threw (Some (u "ENOENT")) (u "no such file or directory"))
           taggedOutcome (Some taggedWritten) taggedPost
           defaults_loaded taggedFile_processed eq_refl eq_refl).
Defined.
